(** * The playback coordination engine of wavesurfer-react-player

    A shallow embedding of [AudioPlayerProvider] (context/AudioPlayerContext.tsx)
    and of the standalone mode of [WaveformPlayer]
    (components/WaveformPlayer.tsx), with the properties their specification
    states about them; and of what the components add to them: the
    [WaveformPlayer] under a provider, the cursor of the waveforms, the volume
    button of the [MiniPlayer] (components/MiniPlayer.tsx), [formatTime]
    (utils/formatTime.ts) and [useLazyLoad] (hooks/useLazyLoad.ts), with
    properties read off the code.

    Modelling conventions.
    - A JavaScript [number] is an exact rational extended with [NaN] and the
      two infinities; rounding and the negative zero are not modelled.
      Statements about whole numbers are bounded by [MAX_SAFE_INTEGER],
      where the rounding of the platform would show.
    - React state is the record [AudioPlayerState]; [setState] takes an
      updater, as every call in the source does.  Refs ([audioRef],
      [fadeIntervalRef]) are fields of the [World] next to it.
    - The audio element is the record of the attributes the provider reads
      and writes; an attribute holds what was last assigned to it (what the
      element makes of a position outside its resource is not modelled).
      Its setters refuse some values by raising
      ([volume_setter], [currentTime_setter]); the values a caller passes to
      [setVolume] and [seek] go through them, and a call that raises stops
      where it raises ([setVolume_call], [seek_call]).  The levels the
      provider assigns on its own (0, the steps of a fade, the target of a
      start) are levels from 0 to 1 as long as the default volume is one, as
      its documentation asks; they are stored as assigned.  The element
      answers [play()] and [pause()] by queueing its [play] and [pause]
      events, which the event loop delivers to the provider's listeners
      later.
    - Whether the platform grants a start request is an argument of the
      operation that makes it.  [play] and [togglePlay] take the request and
      its settlement as one transition, in a render that has seen the state
      the previous operation left; [run] takes such operations one at a
      time.  Their two halves, [play_request], [togglePlay_request] and
      [settle], are apart in [moves]: there other operations run between a
      request and its settlement, the continuation works with the values
      its closure took before the request, and a call may come from a
      render that has not seen the latest state.
    - The store can be read at mount; a write to it is taken or refused
      ([setItem]).
    - The code runs in a browser: [typeof window !== 'undefined'] holds.
    - The lifecycle callbacks of the configuration and the custom event
      dispatched on [window] are recorded in a log of effects.
    - [parseFloat] and [Number.prototype.toString] belong to the platform;
      they are the two operations of the class [NumberFormat]. *)

From Stdlib Require Import QArith Qround Lqa Ascii String.
From stdpp Require Import gmap strings list pretty.

(** ** Numbers *)

Inductive number : Type :=
  | NaN
  | NegInf
  | Fin (q : Q)
  | PosInf.

Definition isNaN (x : number) : bool :=
  match x with NaN => true | _ => false end.

(** [x <= y] of JavaScript: false as soon as one side is [NaN]. *)
Definition num_leb (x y : number) : bool :=
  match x, y with
  | NaN, _ | _, NaN => false
  | NegInf, _ => true
  | _, PosInf => true
  | Fin a, Fin b => Qle_bool a b
  | _, _ => false
  end.

(** [x >= y]. *)
Definition num_geb (x y : number) : bool := num_leb y x.

(** [Math.max(x, y)] and [Math.min(x, y)]: [NaN] when an argument is. *)
Definition Math_max (x y : number) : number :=
  match x, y with
  | NaN, _ | _, NaN => NaN
  | _, _ => if num_leb x y then y else x
  end.

Definition Math_min (x y : number) : number :=
  match x, y with
  | NaN, _ | _, NaN => NaN
  | _, _ => if num_leb y x then y else x
  end.

Definition signed_inf (nonneg : bool) : number :=
  if nonneg then PosInf else NegInf.

(** [x * y]. *)
Definition num_mul (x y : number) : number :=
  match x, y with
  | NaN, _ | _, NaN => NaN
  | Fin a, Fin b => Fin (a * b)
  | Fin a, PosInf | PosInf, Fin a =>
      if Qeq_bool a 0 then NaN else signed_inf (Qle_bool 0 a)
  | Fin a, NegInf | NegInf, Fin a =>
      if Qeq_bool a 0 then NaN else signed_inf (negb (Qle_bool 0 a))
  | PosInf, PosInf | NegInf, NegInf => PosInf
  | PosInf, NegInf | NegInf, PosInf => NegInf
  end.

(** [x / y]. *)
Definition num_div (x y : number) : number :=
  match x, y with
  | NaN, _ | _, NaN => NaN
  | Fin a, Fin b =>
      if Qeq_bool b 0
      then (if Qeq_bool a 0 then NaN else signed_inf (Qle_bool 0 a))
      else Fin (a / b)
  | Fin _, (PosInf | NegInf) => Fin 0
  | PosInf, Fin b => signed_inf (Qle_bool 0 b)
  | NegInf, Fin b => signed_inf (negb (Qle_bool 0 b))
  | _, _ => NaN
  end.

Definition of_nat (n : nat) : number := Fin (inject_Z (Z.of_nat n)).

(** A number is falsy when it is zero or [NaN]. *)
Definition num_truthy (x : number) : bool :=
  match x with
  | NaN => false
  | Fin q => negb (Qeq_bool q 0)
  | _ => true
  end.

(** [x || 0] for an optional number ([undefined] is falsy). *)
Definition or_zero (x : option number) : number :=
  match x with
  | Some n => if num_truthy n then n else Fin 0
  | None => Fin 0
  end.

(** The order of the extended rationals, as a proposition. *)
Definition num_le (x y : number) : Prop := num_leb x y = true.

(** [x] lies in the closed interval from 0 to 1. *)
Definition in_unit (x : number) : Prop :=
  num_le (Fin 0) x /\ num_le x (Fin 1).

(** The same number, whatever fraction writes it. *)
Definition num_eq (x y : number) : Prop :=
  match x, y with
  | NaN, NaN | NegInf, NegInf | PosInf, PosInf => True
  | Fin a, Fin b => (a == b)%Q
  | _, _ => False
  end.

(** [x < y]. *)
Definition num_ltb (x y : number) : bool :=
  num_leb x y && negb (num_leb y x).

(** The clamp of [v] to the interval from [lo] to [hi]: [lo] below it, [hi]
    above it, [v] itself otherwise. *)
Definition clamp (v lo hi : number) : number :=
  if num_ltb v lo then lo else if num_ltb hi v then hi else v.

(** The platform's conversions between numbers and strings. *)
Class NumberFormat : Type := {
  Number_toString : number -> string;
  parseFloat : string -> number;
  parseFloat_empty : parseFloat "" = NaN
}.

(** ** Data model (types/index.ts) *)

Module Song.
Record t : Type := mk {
  id : string;
  title : string;
  artist : option string;
  album : option string;
  audioUrl : string;
  duration : option number;
  peaks : option (list number)
}.
End Song.

Record AudioPlayerState : Type := mkState {
  currentSong : option Song.t;
  isPlaying : bool;
  currentTime : number;
  duration : number;
  volume : number;
  displayVolume : number;
  isFadingIn : bool
}.

(** The data of [AudioPlayerConfig]; its four callbacks are logged as
    [Effect]s when they are invoked. *)
Record AudioPlayerConfig : Type := mkConfig {
  fadeInEnabled : bool;
  fadeInDuration : number;
  persistVolume : bool;
  storageKey : string;
  defaultVolume : number
}.

Definition DEFAULT_CONFIG : AudioPlayerConfig :=
  {| fadeInEnabled := true;
     fadeInDuration := Fin 3000;
     persistVolume := true;
     storageKey := "audioPlayerVolume";
     defaultVolume := Fin 1 |}.

Definition FADE_STEPS : nat := 30.
Definition MIN_FADE_IN_VOLUME : number := Fin 0.1.

(** ** The audio element *)

Module Audio.
Record t : Type := mk {
  src : string;
  volume : number;
  currentTime : number;
  duration : number;
  paused : bool
}.
End Audio.

Inductive MediaEvent : Type :=
  | Ev_timeupdate
  | Ev_loadedmetadata
  | Ev_ended
  | Ev_play
  | Ev_pause.

(** [new Audio()]. *)
Definition new_Audio : Audio.t :=
  {| Audio.src := ""; Audio.volume := Fin 1; Audio.currentTime := Fin 0;
     Audio.duration := NaN; Audio.paused := true |}.

(** The attributes as stored, one by one. *)
Definition set_src (u : string) (a : Audio.t) : Audio.t :=
  {| Audio.src := u; Audio.volume := Audio.volume a;
     Audio.currentTime := Audio.currentTime a;
     Audio.duration := Audio.duration a; Audio.paused := Audio.paused a |}.

Definition set_volume (v : number) (a : Audio.t) : Audio.t :=
  {| Audio.src := Audio.src a; Audio.volume := v;
     Audio.currentTime := Audio.currentTime a;
     Audio.duration := Audio.duration a; Audio.paused := Audio.paused a |}.

Definition set_currentTime (t : number) (a : Audio.t) : Audio.t :=
  {| Audio.src := Audio.src a; Audio.volume := Audio.volume a;
     Audio.currentTime := t;
     Audio.duration := Audio.duration a; Audio.paused := Audio.paused a |}.

Definition set_duration (d : number) (a : Audio.t) : Audio.t :=
  {| Audio.src := Audio.src a; Audio.volume := Audio.volume a;
     Audio.currentTime := Audio.currentTime a;
     Audio.duration := d; Audio.paused := Audio.paused a |}.

Definition set_paused (p : bool) (a : Audio.t) : Audio.t :=
  {| Audio.src := Audio.src a; Audio.volume := Audio.volume a;
     Audio.currentTime := Audio.currentTime a;
     Audio.duration := Audio.duration a; Audio.paused := p |}.

(** [audio.pause()]: a playing element becomes paused and announces it. *)
Definition el_pause (a : Audio.t) : Audio.t * list MediaEvent :=
  if Audio.paused a then (a, []) else (set_paused true a, [Ev_pause]).

(** [audio.play()]: with the platform's grant a paused element starts and
    announces it, and the promise is fulfilled; without it the element is
    left as it was and the promise is rejected. *)
Definition el_play (granted : bool) (a : Audio.t)
  : Audio.t * list MediaEvent * bool :=
  if granted
  then (if Audio.paused a then (set_paused false a, [Ev_play], true)
        else (a, [], true))
  else (a, [], false).

(** The setters of the element refuse some values: [volume] takes a finite
    number from 0 to 1, [currentTime] a finite number.  A refused assignment
    raises and leaves the element as it was. *)
Inductive DOMException : Type :=
  | TypeError
  | IndexSizeError
  | QuotaExceededError.

Definition volume_setter (v : number) (a : Audio.t) : DOMException + Audio.t :=
  match v with
  | Fin q =>
      if Qle_bool 0 q && Qle_bool q 1 then inr (set_volume v a)
      else inl IndexSizeError
  | _ => inl TypeError
  end.

Definition currentTime_setter (t : number) (a : Audio.t) : DOMException + Audio.t :=
  match t with
  | Fin _ => inr (set_currentTime t a)
  | _ => inl TypeError
  end.

(** How a call ends: it returns, or an exception of the element leaves it
    early; either way with the world the call has made so far. *)
Inductive Outcome (A : Type) : Type :=
  | Returned (a : A)
  | Thrown (e : DOMException) (a : A).
Arguments Returned {A} a.
Arguments Thrown {A} e a.

Definition outcome_world {A : Type} (o : Outcome A) : A :=
  match o with Returned a | Thrown _ a => a end.

(** ** The world of one provider *)

(** The closure of the [setInterval] callback of [fadeInVolume]. *)
Record FadeInterval : Type := mkFade {
  fadeStepDuration : number;
  volumeStep : number;
  targetVolume : number;
  currentStep : nat
}.

Inductive Effect : Type :=
  | DispatchEvent (detail : option string)
  | OnPlay (song : Song.t)
  | OnPause
  | OnEnd
  | OnTimeUpdate (t : number).

Record World : Type := mkWorld {
  config : AudioPlayerConfig;
  state : AudioPlayerState;
  audioRef : option Audio.t;
  fadeIntervalRef : option FadeInterval;
  localStorage : gmap string string;
  effects : list Effect;
  tasks : list MediaEvent
}.

Inductive Settled (A : Type) : Type :=
  | Fulfilled (a : A)
  | Rejected (a : A).
Arguments Fulfilled {A} a.
Arguments Rejected {A} a.

Definition settled_value {A : Type} (p : Settled A) : A :=
  match p with Fulfilled a | Rejected a => a end.

(** *** Field updates *)

Definition with_isPlaying (b : bool) (s : AudioPlayerState) : AudioPlayerState :=
  mkState (currentSong s) b (currentTime s) (duration s) (volume s)
          (displayVolume s) (isFadingIn s).

Definition with_currentTime (t : number) (s : AudioPlayerState) : AudioPlayerState :=
  mkState (currentSong s) (isPlaying s) t (duration s) (volume s)
          (displayVolume s) (isFadingIn s).

Definition with_duration (d : number) (s : AudioPlayerState) : AudioPlayerState :=
  mkState (currentSong s) (isPlaying s) (currentTime s) d (volume s)
          (displayVolume s) (isFadingIn s).

Definition with_volume (v : number) (s : AudioPlayerState) : AudioPlayerState :=
  mkState (currentSong s) (isPlaying s) (currentTime s) (duration s) v
          (displayVolume s) (isFadingIn s).

Definition with_displayVolume (v : number) (s : AudioPlayerState) : AudioPlayerState :=
  mkState (currentSong s) (isPlaying s) (currentTime s) (duration s) (volume s)
          v (isFadingIn s).

Definition with_isFadingIn (b : bool) (s : AudioPlayerState) : AudioPlayerState :=
  mkState (currentSong s) (isPlaying s) (currentTime s) (duration s) (volume s)
          (displayVolume s) b.

Definition with_currentSong (c : option Song.t) (s : AudioPlayerState) : AudioPlayerState :=
  mkState c (isPlaying s) (currentTime s) (duration s) (volume s)
          (displayVolume s) (isFadingIn s).

Definition setState (f : AudioPlayerState -> AudioPlayerState) (w : World) : World :=
  mkWorld (config w) (f (state w)) (audioRef w) (fadeIntervalRef w)
          (localStorage w) (effects w) (tasks w).

Definition with_audioRef (a : option Audio.t) (w : World) : World :=
  mkWorld (config w) (state w) a (fadeIntervalRef w)
          (localStorage w) (effects w) (tasks w).

Definition with_fadeIntervalRef (i : option FadeInterval) (w : World) : World :=
  mkWorld (config w) (state w) (audioRef w) i
          (localStorage w) (effects w) (tasks w).

Definition with_localStorage (m : gmap string string) (w : World) : World :=
  mkWorld (config w) (state w) (audioRef w) (fadeIntervalRef w)
          m (effects w) (tasks w).

Definition with_tasks (q : list MediaEvent) (w : World) : World :=
  mkWorld (config w) (state w) (audioRef w) (fadeIntervalRef w)
          (localStorage w) (effects w) q.

(** An invoked callback or a dispatched event goes to the end of the log. *)
Definition emit (e : Effect) (w : World) : World :=
  mkWorld (config w) (state w) (audioRef w) (fadeIntervalRef w)
          (localStorage w) (effects w ++ [e]) (tasks w).

(** [audioRef.current.x = v], under the guard that the element exists. *)
Definition update_audio (f : Audio.t -> Audio.t) (w : World) : World :=
  with_audioRef (f <$> audioRef w) w.

(** The element's method, with the events it queues. *)
Definition audio_pause (w : World) : World :=
  match audioRef w with
  | None => w
  | Some a =>
      let '(a', evs) := el_pause a in
      with_tasks (tasks w ++ evs) (with_audioRef (Some a') w)
  end.

(** *** Listeners of the audio element (the mount effect) *)

Definition handleTimeUpdate (audio : Audio.t) (w : World) : World :=
  emit (OnTimeUpdate (Audio.currentTime audio))
       (setState (with_currentTime (Audio.currentTime audio)) w).

Definition handleLoadedMetadata (audio : Audio.t) (w : World) : World :=
  setState (with_duration (Audio.duration audio)) w.

Definition handleEnded (w : World) : World :=
  emit OnEnd (setState (fun s => with_currentTime (Fin 0) (with_isPlaying false s)) w).

Definition handlePlay (w : World) : World :=
  setState (with_isPlaying true) w.

Definition handlePause (w : World) : World :=
  setState (with_isPlaying false) w.

Definition handle (e : MediaEvent) (w : World) : World :=
  match audioRef w with
  | None => w
  | Some audio =>
      match e with
      | Ev_timeupdate => handleTimeUpdate audio w
      | Ev_loadedmetadata => handleLoadedMetadata audio w
      | Ev_ended => handleEnded w
      | Ev_play => handlePlay w
      | Ev_pause => handlePause w
      end
  end.

(** One turn of the event loop: the oldest queued event reaches its
    listener. *)
Definition deliver (w : World) : World :=
  match tasks w with
  | [] => w
  | e :: q => handle e (with_tasks q w)
  end.

(** All queued events, oldest first. *)
Definition run_tasks (w : World) : World :=
  fold_left (fun w e => handle e w) (tasks w) (with_tasks [] w).

(** [await audioRef.current.play()]: the element is asked to start; when the
    promise is fulfilled the events queued so far have reached their
    listeners. *)
Definition await_play (granted : bool) (w : World) : Settled World :=
  match audioRef w with
  | None => Rejected w
  | Some a =>
      let '(a', evs, ok) := el_play granted a in
      let w' := with_tasks (tasks w ++ evs) (with_audioRef (Some a') w) in
      if ok then Fulfilled (run_tasks w') else Rejected w'
  end.

(** *** Fading *)

Definition clearFade (w : World) : World :=
  match fadeIntervalRef w with
  | Some _ => with_fadeIntervalRef None w
  | None => w
  end.

Definition fadeInVolume (target : number) (w : World) : World :=
  match audioRef w with
  | None => w
  | Some _ =>
      let w := clearFade w in
      let w := setState (fun s => with_displayVolume (Fin 0) (with_isFadingIn true s)) w in
      let stepDuration := num_div (fadeInDuration (config w)) (of_nat FADE_STEPS) in
      let step := num_div target (of_nat FADE_STEPS) in
      with_fadeIntervalRef (Some (mkFade stepDuration step target 0)) w
  end.

(** One firing of the interval set by [fadeInVolume]; a cleared interval
    does not fire. *)
Definition fade_tick (w : World) : World :=
  match fadeIntervalRef w with
  | None => w
  | Some iv =>
      let step := S (currentStep iv) in
      let newVolume :=
        Math_min (num_mul (volumeStep iv) (of_nat step)) (targetVolume iv) in
      let w := with_fadeIntervalRef
                 (Some (mkFade (fadeStepDuration iv) (volumeStep iv)
                               (targetVolume iv) step)) w in
      let w := update_audio (set_volume newVolume) w in
      let w := setState (with_displayVolume newVolume) w in
      if (FADE_STEPS <=? step)%nat
      then setState (fun s => with_displayVolume (targetVolume iv)
                                (with_isFadingIn false s))
                    (clearFade w)
      else w
  end.

(** *** The actions of the context value *)

(** [state.currentSong?.id !== song.id]. *)
Definition other_song (cur : option Song.t) (song : Song.t) : bool :=
  match cur with
  | Some c => negb (String.eqb (Song.id c) (Song.id song))
  | None => true
  end.

(** [play(song)] with its start request settled at once: nothing runs
    between the request and the continuation, and the render has seen the
    state of the world.  [play_request] and [settle] below are its two
    halves. *)
Definition play_async (song : Song.t) (granted : bool) (w : World) : Settled World :=
  match audioRef w with
  | None => Fulfilled w
  | Some _ =>
      let st := state w in
      let w := clearFade w in
      let w :=
        if other_song (currentSong st) song
        then setState (fun s => with_duration (or_zero (Song.duration song))
                                  (with_currentTime (Fin 0)
                                     (with_currentSong (Some song) s)))
                      (update_audio (set_src (Song.audioUrl song)) w)
        else w in
      let target := Math_max (volume st) MIN_FADE_IN_VOLUME in
      let w :=
        if fadeInEnabled (config w)
        then update_audio (set_volume (Fin 0)) w
        else update_audio (set_volume target) w in
      match await_play granted w with
      | Fulfilled w =>
          let w := emit (DispatchEvent (Some (Song.id song))) w in
          let w := if fadeInEnabled (config w) then fadeInVolume target w else w in
          Fulfilled (emit (OnPlay song) w)
      | Rejected w => Fulfilled w
      end
  end.

Definition play (song : Song.t) (granted : bool) (w : World) : World :=
  settled_value (play_async song granted w).

Definition pause (w : World) : World :=
  match audioRef w with
  | None => w
  | Some _ => emit OnPause (audio_pause (clearFade w))
  end.

(** [togglePlay()], its start request settled at once as in [play];
    [togglePlay_request] and [settle] are its two halves. *)
Definition togglePlay (granted : bool) (w : World) : World :=
  match audioRef w, currentSong (state w) with
  | Some _, Some cur =>
      if isPlaying (state w) then pause w
      else
        let target := Math_max (volume (state w)) MIN_FADE_IN_VOLUME in
        let w :=
          if fadeInEnabled (config w)
          then update_audio (set_volume (Fin 0)) w
          else w in
        match await_play granted w with
        | Fulfilled w =>
            let w := emit (DispatchEvent (Some (Song.id cur))) w in
            if fadeInEnabled (config w) then fadeInVolume target w else w
        | Rejected w => w
        end
  | _, _ => w
  end.

(** [seek(time)]: the assignment to the element comes before the update of
    the state; when the element refuses the time the update is not
    reached. *)
Definition seek_call (time : number) (w : World) : Outcome World :=
  match audioRef w with
  | None => Returned w
  | Some a =>
      match currentTime_setter time a with
      | inl e => Thrown e w
      | inr a' =>
          Returned (setState (with_currentTime time) (with_audioRef (Some a') w))
      end
  end.

(** The world after [seek(time)], however the call ended. *)
Definition seek (time : number) (w : World) : World :=
  outcome_world (seek_call time w).

Definition stop (w : World) : World :=
  match audioRef w with
  | None => w
  | Some _ =>
      let w := clearFade w in
      let w := audio_pause w in
      let w := update_audio (set_currentTime (Fin 0)) w in
      let w := update_audio (set_src "") w in
      setState (fun s => with_isFadingIn false
                           (with_duration (Fin 0)
                              (with_currentTime (Fin 0)
                                 (with_isPlaying false
                                    (with_currentSong None s))))) w
  end.

Section Persistence.
Context {fmt : NumberFormat}.

(** [localStorage.setItem(k, v)]: the store takes the item, or refuses it
    (its quota is exceeded, or the page may not use it) and raises. *)
Definition setItem (accepts : bool) (k v : string) (m : gmap string string)
  : DOMException + gmap string string :=
  if accepts then inr (<[k := v]> m) else inl QuotaExceededError.

(** [setVolume(v)], [accepts] telling whether the store takes a write.  The
    assignment to the element and the write to the store come before the
    update of the state; when one of them raises, what follows it is not
    reached. *)
Definition setVolume_on (accepts : bool) (v : number) (w : World) : Outcome World :=
  match audioRef w with
  | None => Returned w
  | Some a =>
      let clampedVolume := Math_max (Fin 0) (Math_min (Fin 1) v) in
      let w :=
        match fadeIntervalRef w with
        | Some _ => setState (with_isFadingIn false) (clearFade w)
        | None => w
        end in
      match volume_setter clampedVolume a with
      | inl e => Thrown e w
      | inr a' =>
          let w := with_audioRef (Some a') w in
          let update :=
            setState (fun s => with_displayVolume clampedVolume
                                 (with_volume clampedVolume s)) in
          if persistVolume (config w)
          then
            match setItem accepts (storageKey (config w))
                          (Number_toString clampedVolume) (localStorage w) with
            | inl e => Thrown e w
            | inr m => Returned (update (with_localStorage m w))
            end
          else Returned (update w)
      end
  end.

(** On a store that takes every write. *)
Definition setVolume_call (v : number) (w : World) : Outcome World :=
  setVolume_on true v w.

(** The world after [setVolume(v)], however the call ended. *)
Definition setVolume (v : number) (w : World) : World :=
  outcome_world (setVolume_call v w).

(** [useState] of the provider, before its mount effect has run. *)
Definition initial (cfg : AudioPlayerConfig) (storage : gmap string string) : World :=
  {| config := cfg;
     state := {| currentSong := None; isPlaying := false;
                 currentTime := Fin 0; duration := Fin 0;
                 volume := defaultVolume cfg;
                 displayVolume := defaultVolume cfg;
                 isFadingIn := false |};
     audioRef := None;
     fadeIntervalRef := None;
     localStorage := storage;
     effects := [];
     tasks := [] |}.

(** The mount effect: the element is created and the saved volume read. *)
Definition mount (w : World) : World :=
  let w := with_audioRef (Some new_Audio) w in
  if persistVolume (config w)
  then match localStorage w !! storageKey (config w) with
       | Some savedVolume =>
           if negb (String.eqb savedVolume "")
           then
             let vol := parseFloat savedVolume in
             if negb (isNaN vol) && num_geb vol (Fin 0) && num_leb vol (Fin 1)
             then update_audio (set_volume vol)
                    (setState (fun s => with_displayVolume vol (with_volume vol s)) w)
             else w
           else w
       | None => w
       end
  else w.

(** A provider as its consumers first see it. *)
Definition provider (cfg : AudioPlayerConfig) (storage : gmap string string) : World :=
  mount (initial cfg storage).
End Persistence.

(** ** A decimal formatter

    An instance of [NumberFormat] on decimal literals, to run the model on
    concrete inputs: [decimal_toString] writes the expansion of a rational
    (up to [FRACTION_DIGITS] places), [decimal_parseFloat] reads the longest
    decimal prefix of a string.  The two agree with [Number.prototype.toString]
    and [parseFloat] on the numbers that JavaScript writes without an
    exponent and with at most [FRACTION_DIGITS] fraction digits, and on the
    strings without an exponent; they are used on such inputs only.  The
    theorems take the platform's functions as the parameters of
    [NumberFormat]. *)

Definition FRACTION_DIGITS : nat := 20.

Definition digit_char (d : N) : Ascii.ascii := ascii_of_N (48 + d).

Definition digit_of (c : Ascii.ascii) : option N :=
  let n := N_of_ascii c in
  if ((48 <=? n) && (n <=? 57))%N then Some (n - 48)%N else None.

Fixpoint frac_digits (fuel : nat) (r d : N) : string :=
  match fuel with
  | O => ""
  | S fuel' =>
      if (r =? 0)%N then ""
      else String (digit_char (r * 10 / d)) (frac_digits fuel' ((r * 10) mod d) d)
  end.

Definition decimal_toString (x : number) : string :=
  match x with
  | NaN => "NaN"
  | PosInf => "Infinity"
  | NegInf => "-Infinity"
  | Fin q =>
      let a := Z.abs_N (Qnum q) in
      let d := Npos (Qden q) in
      let sign := if (Qnum q <? 0)%Z then "-" else "" in
      let whole := pretty (a / d)%N in
      let r := (a mod d)%N in
      if (r =? 0)%N then sign +:+ whole
      else sign +:+ whole +:+ "." +:+ frac_digits FRACTION_DIGITS r d
  end.

Fixpoint read_digits (s : string) (acc : N) (count : nat) : N * nat * string :=
  match s with
  | String c s' =>
      match digit_of c with
      | Some d => read_digits s' (acc * 10 + d)%N (S count)
      | None => (acc, count, s)
      end
  | EmptyString => (acc, count, s)
  end.

Fixpoint skip_spaces (s : string) : string :=
  match s with
  | String " " s' => skip_spaces s'
  | _ => s
  end.

Definition decimal_parseFloat (s : string) : number :=
  let s := skip_spaces s in
  let '(neg, s) :=
    match s with
    | String "-" s' => (true, s')
    | String "+" s' => (false, s')
    | _ => (false, s)
    end in
  if String.prefix "Infinity" s then signed_inf (negb neg)
  else
    let '(whole, nw, rest) := read_digits s 0%N 0 in
    let '(all, nf, _) :=
      match rest with
      | String "." rest' => read_digits rest' whole 0
      | _ => (whole, 0, rest)
      end in
    if (nw + nf =? 0)%nat then NaN
    else
      let n := Z.of_N all in
      Fin ((if neg then (- n)%Z else n) # Z.to_pos (10 ^ Z.of_nat nf)).

#[export] Instance decimal_format : NumberFormat :=
  {| Number_toString := decimal_toString;
     parseFloat := decimal_parseFloat;
     parseFloat_empty := eq_refl |}.

(** ** What the source does on its own *)

(** Playback has advanced to position [t]. *)
Definition source_progress (t : number) (w : World) : World :=
  match audioRef w with
  | None => w
  | Some a =>
      with_tasks (tasks w ++ [Ev_timeupdate])
                 (with_audioRef (Some (set_currentTime t a)) w)
  end.

(** The metadata of the loaded resource gives its length [d]. *)
Definition source_metadata (d : number) (w : World) : World :=
  match audioRef w with
  | None => w
  | Some a =>
      with_tasks (tasks w ++ [Ev_loadedmetadata])
                 (with_audioRef (Some (set_duration d a)) w)
  end.

(** Playback has reached the end of the resource. *)
Definition source_ended (w : World) : World :=
  match audioRef w with
  | None => w
  | Some a =>
      let '(a', evs) := el_pause a in
      with_tasks (tasks w ++ evs ++ [Ev_ended]) (with_audioRef (Some a') w)
  end.

(** ** Sequences of operations *)

Inductive Action : Type :=
  | APlay (song : Song.t) (granted : bool)
  | APause
  | ATogglePlay (granted : bool)
  | ASeek (time : number)
  | ASetVolume (v : number)
  | AStop
  | AFadeTick
  | ADeliver
  | ASourceProgress (t : number)
  | ASourceMetadata (d : number)
  | ASourceEnded.

Section Traces.
Context {fmt : NumberFormat}.

Definition step (a : Action) (w : World) : World :=
  match a with
  | APlay song granted => play song granted w
  | APause => pause w
  | ATogglePlay granted => togglePlay granted w
  | ASeek time => seek time w
  | ASetVolume v => setVolume v w
  | AStop => stop w
  | AFadeTick => fade_tick w
  | ADeliver => deliver w
  | ASourceProgress t => source_progress t w
  | ASourceMetadata d => source_metadata d w
  | ASourceEnded => source_ended w
  end.

Definition run (tr : list Action) (w : World) : World :=
  fold_left (fun w a => step a w) tr w.

End Traces.

(** [n] firings of the fade interval. *)
Definition fade_ticks (n : nat) (w : World) : World :=
  Nat.iter n fade_tick w.

(** ** Start requests and their settlement

    [play] and [togglePlay] above make their start request and take its
    settlement in one transition, from the state their render has seen.  In
    the code the two halves are apart: the call runs up to the request,
    other operations may run, and the continuation runs when the promise
    settles, with the values its closure took from the state of the render
    that made the call ([seen], which may be older than the state of the
    world).  The definitions below are the two halves. *)

Inductive Continuation : Type :=
  | AfterPlay (song : Song.t) (targetVolume : number)
  | AfterTogglePlay (id : option string) (targetVolume : number).

(** A start request that has not settled: how its promise will settle and
    what runs when it is fulfilled. *)
Record Pending : Type := mkPending {
  fulfils : bool;
  continuation : Continuation
}.

Definition continuation_target (c : Continuation) : number :=
  match c with
  | AfterPlay _ target | AfterTogglePlay _ target => target
  end.

(** [audioRef.current.play()], up to the promise it returns. *)
Definition request_start (granted : bool) (w : World) : World * bool :=
  match audioRef w with
  | None => (w, false)
  | Some a =>
      let '(a', evs, ok) := el_play granted a in
      (with_tasks (tasks w ++ evs) (with_audioRef (Some a') w), ok)
  end.

(** [play(song)] up to its [await]. *)
Definition play_request (seen : AudioPlayerState) (song : Song.t) (granted : bool)
    (w : World) : World * option Pending :=
  match audioRef w with
  | None => (w, None)
  | Some _ =>
      let w := clearFade w in
      let w :=
        if other_song (currentSong seen) song
        then setState (fun s => with_duration (or_zero (Song.duration song))
                                  (with_currentTime (Fin 0)
                                     (with_currentSong (Some song) s)))
                      (update_audio (set_src (Song.audioUrl song)) w)
        else w in
      let target := Math_max (volume seen) MIN_FADE_IN_VOLUME in
      let w :=
        if fadeInEnabled (config w)
        then update_audio (set_volume (Fin 0)) w
        else update_audio (set_volume target) w in
      let '(w, ok) := request_start granted w in
      (w, Some (mkPending ok (AfterPlay song target)))
  end.

(** [togglePlay()] up to the promise of its start request; the pause branch
    has none. *)
Definition togglePlay_request (seen : AudioPlayerState) (granted : bool)
    (w : World) : World * option Pending :=
  match audioRef w, currentSong seen with
  | Some _, Some cur =>
      if isPlaying seen then (pause w, None)
      else
        let target := Math_max (volume seen) MIN_FADE_IN_VOLUME in
        let w :=
          if fadeInEnabled (config w)
          then update_audio (set_volume (Fin 0)) w
          else w in
        let '(w, ok) := request_start granted w in
        (w, Some (mkPending ok (AfterTogglePlay (Some (Song.id cur)) target)))
  | _, _ => (w, None)
  end.

(** The promise settles: when it is fulfilled the events queued so far have
    reached their listeners and the continuation runs; when it is rejected
    nothing runs. *)
Definition settle (p : Pending) (w : World) : World :=
  if fulfils p
  then
    let w := run_tasks w in
    match continuation p with
    | AfterPlay song target =>
        let w := emit (DispatchEvent (Some (Song.id song))) w in
        let w := if fadeInEnabled (config w) then fadeInVolume target w else w in
        emit (OnPlay song) w
    | AfterTogglePlay id target =>
        let w := emit (DispatchEvent id) w in
        if fadeInEnabled (config w) then fadeInVolume target w else w
    end
  else w.

(** A provider with the start requests that have not settled. *)
Record Running : Type := mkRunning {
  world : World;
  pending : list Pending
}.

(** What can happen to a running provider: an action or an event as in
    [step]; a call of [play] or [togglePlay] up to its start request, from a
    render that has seen the current state ([None]) or some other state
    ([Some seen]: an older one in the code; the runs cover every state); the
    settlement of a pending request; a [setVolume] that finds the store
    refusing its write. *)
Inductive Move : Type :=
  | MAction (a : Action)
  | MPlay (seen : option AudioPlayerState) (song : Song.t) (granted : bool)
  | MTogglePlay (seen : option AudioPlayerState) (granted : bool)
  | MSettle (i : nat)
  | MSetVolumeRefused (v : number).

Section Moves.
Context {fmt : NumberFormat}.

Definition requested (r : Running) (wp : World * option Pending) : Running :=
  mkRunning (fst wp)
            (pending r ++ match snd wp with Some p => [p] | None => [] end).

Definition move (m : Move) (r : Running) : Running :=
  match m with
  | MAction a => mkRunning (step a (world r)) (pending r)
  | MPlay seen song granted =>
      requested r (play_request (default (state (world r)) seen) song granted
                                (world r))
  | MTogglePlay seen granted =>
      requested r (togglePlay_request (default (state (world r)) seen) granted
                                      (world r))
  | MSettle i =>
      match pending r !! i with
      | Some p => mkRunning (settle p (world r)) (delete i (pending r))
      | None => r
      end
  | MSetVolumeRefused v =>
      mkRunning (outcome_world (setVolume_on false v (world r))) (pending r)
  end.

Definition moves (ms : list Move) (r : Running) : Running :=
  fold_left (fun r m => move m r) ms r.

(** A provider as its consumers first see it, no request pending. *)
Definition started (cfg : AudioPlayerConfig) (storage : gmap string string) : Running :=
  mkRunning (provider cfg storage) [].
End Moves.

(** [displayVolume] is where a provider that is not fading shows it: at
    [volume], or at the target of a completed fade. *)
Definition level_settled (w : World) : Prop :=
  displayVolume (state w) = volume (state w)
  \/ displayVolume (state w) = Math_max (volume (state w)) MIN_FADE_IN_VOLUME.

(** The moves that can leave [isFadingIn] false beside a level that no fade
    has completed, and when they do not:
    - [stop()] clears the flag without writing [displayVolume]: it is
      allowed where the flag is false already or the level is settled;
    - a [setVolume] that raises (the element refuses [NaN], or the store
      refuses the write) has cleared the flag of a running fade before: it
      is allowed where no fade interval is live or the level is settled;
    - the continuation of a granted start request starts a fade to the
      target its closure holds: the request is allowed to settle when that
      target is still [max(volume, MIN_FADE_IN_VOLUME)]. *)
Definition allowed (m : Move) (r : Running) : Prop :=
  match m with
  | MAction AStop =>
      isFadingIn (state (world r)) = true -> level_settled (world r)
  | MAction (ASetVolume v) =>
      isNaN v = true -> fadeIntervalRef (world r) <> None ->
      level_settled (world r)
  | MSetVolumeRefused v =>
      isNaN v = true \/ persistVolume (config (world r)) = true ->
      fadeIntervalRef (world r) <> None ->
      level_settled (world r)
  | MSettle i =>
      forall p, pending r !! i = Some p ->
        fulfils p = true ->
        fadeInEnabled (config (world r)) = true ->
        continuation_target (continuation p)
        = Math_max (volume (state (world r))) MIN_FADE_IN_VOLUME
  | _ => True
  end.

Section Undisturbed.
Context {fmt : NumberFormat}.

(** Every move of the run is allowed where it is made. *)
Fixpoint undisturbed (ms : list Move) (r : Running) : Prop :=
  match ms with
  | [] => True
  | m :: ms' => allowed m r /\ undisturbed ms' (move m r)
  end.
End Undisturbed.

(** ** The standalone mode of [WaveformPlayer] *)

Record Widget : Type := mkWidget {
  song : Song.t;
  localAudioRef : option Audio.t;
  localIsPlaying : bool;
  localCurrentTime : number;
  totalDuration : number
}.

Definition setLocalIsPlaying (b : bool) (p : Widget) : Widget :=
  mkWidget (song p) (localAudioRef p) b (localCurrentTime p) (totalDuration p).

Definition with_localAudioRef (a : option Audio.t) (p : Widget) : Widget :=
  mkWidget (song p) a (localIsPlaying p) (localCurrentTime p) (totalDuration p).

(** The listener for [MINI_PLAYER_PLAY_EVENT]. *)
Definition handleOtherPlayerPlay (detail : option string) (p : Widget) : Widget :=
  match localAudioRef p with
  | Some a =>
      if bool_decide (detail ≠ Some (Song.id (song p)))
      then setLocalIsPlaying false
             (with_localAudioRef (Some (fst (el_pause a))) p)
      else p
  | None => p
  end.

(** The click on the play button, with the details of the events it
    dispatches. *)
Definition handlePlayClick (granted : bool) (p : Widget)
  : Widget * list (option string) :=
  if String.eqb (Song.id (song p)) "" || String.eqb (Song.audioUrl (song p)) ""
  then (p, [])
  else
    match localAudioRef p with
    | None => (p, [])
    | Some a =>
        if localIsPlaying p
        then (setLocalIsPlaying false
                (with_localAudioRef (Some (fst (el_pause a))) p), [])
        else
          let a :=
            if negb (String.eqb (Audio.src a) (Song.audioUrl (song p)))
            then set_src (Song.audioUrl (song p)) a
            else a in
          let '(a', _, _) := el_play granted a in
          (setLocalIsPlaying true (with_localAudioRef (Some a') p),
           [Some (Song.id (song p))])
    end.

(** ** Players on one page *)

Inductive Instance : Type :=
  | Session (w : World)
  | Standalone (p : Widget).

Definition reports_isPlaying (i : Instance) : bool :=
  match i with
  | Session w => isPlaying (state w)
  | Standalone p => localIsPlaying p
  end.

(** The level of the instance's own audio element. *)
Definition output_volume (i : Instance) : option number :=
  match i with
  | Session w => Audio.volume <$> audioRef w
  | Standalone p => Audio.volume <$> localAudioRef p
  end.

Definition dispatched (es : list Effect) : list (option string) :=
  omap (fun e => match e with DispatchEvent d => Some d | _ => None end) es.

(** The instance starts a track: a session through [play], a widget (whose
    track is its own song) through its play button. *)
Definition start (track : Song.t) (granted : bool) (i : Instance)
  : Instance * list (option string) :=
  match i with
  | Session w =>
      let w' := play track granted w in
      (Session w', dispatched (drop (length (effects w)) (effects w')))
  | Standalone p =>
      let '(p', ds) := handlePlayClick granted p in (Standalone p', ds)
  end.

(** The listeners registered on [window] for the play event: only a
    standalone widget has one. *)
Definition receive (detail : option string) (i : Instance) : Instance :=
  match i with
  | Session w => Session w
  | Standalone p => Standalone (handleOtherPlayerPlay detail p)
  end.

Definition broadcast (ds : list (option string)) (i : Instance) : Instance :=
  fold_left (fun i d => receive d i) ds i.

(** [A] starts [trackX], then [B] starts [trackY]; every dispatched event
    reaches both. *)
Definition two_players (A B : Instance) (trackX trackY : Song.t)
    (grantedA grantedB : bool) : Instance * Instance :=
  let '(A1, dsA) := start trackX grantedA A in
  let A2 := broadcast dsA A1 in
  let B1 := broadcast dsA B in
  let '(B2, dsB) := start trackY grantedB B1 in
  (broadcast dsB A2, broadcast dsB B2).

(** ** Observations and invariants *)

(** What the listeners of the element never write. *)
Definition levels (w : World)
  : number * number * bool * option Song.t * option FadeInterval
    * AudioPlayerConfig * gmap string string :=
  (volume (state w), displayVolume (state w), isFadingIn (state w),
   currentSong (state w), fadeIntervalRef w, config w, localStorage w).

Definition handles (evs : list MediaEvent) (w : World) : World :=
  fold_left (fun w e => handle e w) evs w.

(** [isPlaying] once the listeners of [evs] have run. *)
Definition playing_after (evs : list MediaEvent) (b : bool) : bool :=
  fold_left (fun b e => match e with
                        | Ev_play => true
                        | Ev_pause | Ev_ended => false
                        | _ => b
                        end) evs b.

(** The element and the provider agree on whether the source is playing,
    once the queued events are delivered. *)
Definition source_in_sync (w : World) : Prop :=
  forall a : Audio.t,
    audioRef w = Some a ->
    playing_after (tasks w) (isPlaying (state w)) = negb (Audio.paused a).

(** What decides whether the provider and its element agree. *)
Definition sync_view (w : World) : bool * list MediaEvent * option bool :=
  (isPlaying (state w), tasks w, Audio.paused <$> audioRef w).

(** A mounted provider in sync with its element, with no [play] event
    waiting in the queue. *)
Definition synced (w : World) : Prop :=
  exists a : Audio.t,
    audioRef w = Some a
    /\ playing_after (tasks w) (isPlaying (state w)) = negb (Audio.paused a)
    /\ Ev_play ∉ tasks w.

(** The level after [k] firings of an interval with step [inc] and target
    [t], from the level [v0]. *)
Definition ramp (inc t : number) (k : nat) (v0 : number) : number :=
  match k with
  | O => v0
  | S _ => Math_min (num_mul inc (of_nat k)) t
  end.


(** The track an instance plays when it is started with [track]. *)
Definition track_id (i : Instance) (track : Song.t) : string :=
  match i with
  | Session _ => Song.id track
  | Standalone q => Song.id (song q)
  end.

(** The instance is mounted and consistent with its element: it can be
    started. *)
Definition ready (i : Instance) : Prop :=
  match i with
  | Session w => (exists a, audioRef w = Some a) /\ source_in_sync w
  | Standalone q =>
      (exists a, localAudioRef q = Some a)
      /\ Song.id (song q) <> "" /\ Song.audioUrl (song q) <> ""
  end.

(** The store as the instance sees it; a widget never touches it. *)
Definition storage_of (i : Instance) : option (gmap string string) :=
  match i with
  | Session w => Some (localStorage w)
  | Standalone _ => None
  end.

(** ** Fixtures: the songs of the test suite, providers and runs *)

Definition testSong : Song.t :=
  {| Song.id := "test-1"; Song.title := "Test Song";
     Song.artist := Some "Test Artist"; Song.album := Some "Test Album";
     Song.audioUrl := "https://example.com/song.mp3";
     Song.duration := Some (Fin 180); Song.peaks := None |}.

Definition otherSong : Song.t :=
  {| Song.id := "test-2"; Song.title := "Other Song";
     Song.artist := None; Song.album := None;
     Song.audioUrl := "https://example.com/other.mp3";
     Song.duration := None; Song.peaks := None |}.

(** [<AudioPlayerProvider>] with the default configuration and an empty
    store. *)
Definition default_provider : World := provider DEFAULT_CONFIG ∅.

(** [<AudioPlayerProvider config={{ fadeInEnabled: false }}>]. *)
Definition NO_FADE_CONFIG : AudioPlayerConfig :=
  {| fadeInEnabled := false;
     fadeInDuration := fadeInDuration DEFAULT_CONFIG;
     persistVolume := persistVolume DEFAULT_CONFIG;
     storageKey := storageKey DEFAULT_CONFIG;
     defaultVolume := defaultVolume DEFAULT_CONFIG |}.

Definition no_fade_provider : World := provider NO_FADE_CONFIG ∅.

(** A provider three steps into the fade of [testSong]. *)
Definition mid_fade : World := fade_ticks 3 (play testSong true default_provider).

(** The default provider after [setVolume(0.8)], as in the test suite. *)
Definition volume_08 : World := setVolume (Fin 0.8) default_provider.


Definition stop_mid_fade_trace : list Action :=
  [APlay testSong true; AFadeTick; AStop].


(** A run in which the volume is set to 0.3 between the start request and
    its settlement: the fade that follows goes to the target taken before
    the request, 1. *)
Definition stale_target_run : list Move :=
  [MPlay None testSong true; MAction (ASetVolume (Fin 0.3)); MSettle 0]
  ++ repeat (MAction AFadeTick) FADE_STEPS.

(** A standalone [<WaveformPlayer song={s} standalone />] once mounted. *)
Definition standalone_player (s : Song.t) : Widget :=
  {| song := s; localAudioRef := Some new_Audio; localIsPlaying := false;
     localCurrentTime := Fin 0; totalDuration := or_zero (Song.duration s) |}.

(** ** Formatting a time (utils/formatTime.ts) *)

(** [Math.floor]. *)
Definition Math_floor (x : number) : number :=
  match x with
  | Fin q => Fin (inject_Z (Qfloor q))
  | _ => x
  end.

(** The integer part of a rational, towards zero. *)
Definition Qtrunc (q : Q) : Z :=
  if Qle_bool 0 q then Qfloor q else Qceiling q.

(** [x % y]: the remainder takes the sign of the dividend. *)
Definition num_rem (x y : number) : number :=
  match x, y with
  | NaN, _ | _, NaN => NaN
  | (PosInf | NegInf), _ => NaN
  | Fin a, (PosInf | NegInf) => Fin a
  | Fin a, Fin b =>
      if Qeq_bool b 0 then NaN
      else Fin (a - b * inject_Z (Qtrunc (a / b)))
  end.

Fixpoint repeat_string (n : nat) (s : string) : string :=
  match n with
  | O => ""
  | S n' => s +:+ repeat_string n' s
  end.

(** [s.padStart(targetLength, padString)]. *)
Definition padStart (targetLength : nat) (padString : string) (s : string) : string :=
  let fillLen := (targetLength - String.length s)%nat in
  if (fillLen =? 0)%nat || String.eqb padString "" then s
  else String.substring 0 fillLen (repeat_string fillLen padString) +:+ s.

(** [Number.MAX_SAFE_INTEGER], [2^53 - 1].  The numbers of this file are
    exact; the whole numbers up to this one are the ones on which the
    division and the remainder of [formatTime] give the same whole minutes
    and seconds in the double-precision numbers of the platform. *)
Definition MAX_SAFE_INTEGER : Z := 9007199254740991.

Section FormatTime.
Context {fmt : NumberFormat}.

Definition formatTime (seconds : number) : string :=
  if negb (num_truthy seconds) || isNaN seconds || num_ltb seconds (Fin 0)
  then "0:00"
  else
    let mins := Math_floor (num_div seconds (Fin 60)) in
    let secs := Math_floor (num_rem seconds (Fin 60)) in
    Number_toString mins +:+ ":" +:+ padStart 2 "0" (Number_toString secs).
End FormatTime.

(** ** Lazy loading (hooks/useLazyLoad.ts) *)

(** The state of the hook and whether the observer of its last effect is
    connected. *)
Record LazyLoad : Type := mkLazy {
  isVisible : bool;
  observing : bool
}.

(** [useState(forceVisible)], before the effect has run. *)
Definition useLazyLoad (forceVisible : bool) : LazyLoad :=
  {| isVisible := forceVisible; observing := false |}.

(** The body of the effect; [attached] tells whether [ref.current] is set. *)
Definition lazy_effect (forceVisible attached : bool) (l : LazyLoad) : LazyLoad :=
  if forceVisible then mkLazy true (observing l)
  else if negb attached then l
  else mkLazy (isVisible l) true.

(** The cleanup of the effect. *)
Definition lazy_cleanup (l : LazyLoad) : LazyLoad :=
  mkLazy (isVisible l) false.

(** The callback of the observer on the first of its entries; a disconnected
    observer is not called. *)
Definition lazy_callback (isIntersecting : bool) (l : LazyLoad) : LazyLoad :=
  if observing l
  then (if isIntersecting then mkLazy true false else l)
  else l.

Inductive LazyEvent : Type :=
  | LRender (forceVisible attached : bool)
  | LEntries (isIntersecting : bool)
  | LUnmount.

(** A render whose effect runs: the cleanup of the previous effect, then the
    effect. *)
Definition lazy_step (e : LazyEvent) (l : LazyLoad) : LazyLoad :=
  match e with
  | LRender forceVisible attached =>
      lazy_effect forceVisible attached (lazy_cleanup l)
  | LEntries isIntersecting => lazy_callback isIntersecting l
  | LUnmount => lazy_cleanup l
  end.

Definition lazy_run (evs : list LazyEvent) (l : LazyLoad) : LazyLoad :=
  fold_left (fun l e => lazy_step e l) evs l.

(** The event can make the element visible. *)
Definition reveals (e : LazyEvent) : bool :=
  match e with
  | LRender forceVisible _ => forceVisible
  | LEntries isIntersecting => isIntersecting
  | LUnmount => false
  end.

(** ** The cursor of a waveform *)

(** The argument of [seekTo], when the guards on the two times let the call
    happen. *)
Definition seekTo_progress (time waveDuration : number) : option number :=
  if num_ltb (Fin 0) waveDuration && num_geb time (Fin 0)
  then Some (Math_min (num_div time waveDuration) (Fin 1))
  else None.

(** The effect that syncs the waveform of a [WaveformPlayer]; [wavesurfer] is
    the duration the instance reports, when there is an instance. *)
Definition WaveformPlayer_sync (wavesurfer : option number) (shouldSync : bool)
    (relevantCurrentTime : number) : option number :=
  match wavesurfer with
  | None => None
  | Some waveDuration =>
      if shouldSync then seekTo_progress relevantCurrentTime waveDuration
      else None
  end.

(** The same effect of the [MiniPlayer]. *)
Definition MiniPlayer_sync (wavesurfer : option number) (waveformReady : bool)
    (time : number) : option number :=
  match wavesurfer with
  | None => None
  | Some waveDuration =>
      if waveformReady then seekTo_progress time waveDuration else None
  end.

(** ** [WaveformPlayer] under a provider *)

(** [contextCurrentSong?.id === song.id]. *)
Definition isThisSongPlayingInContext (s : Song.t) (w : World) : bool :=
  match currentSong (state w) with
  | Some c => String.eqb (Song.id c) (Song.id s)
  | None => false
  end.

(** What the component shows. *)
Definition context_isPlaying (s : Song.t) (w : World) : bool :=
  isThisSongPlayingInContext s w && isPlaying (state w).

Definition context_currentTime (s : Song.t) (w : World) : number :=
  if isThisSongPlayingInContext s w then currentTime (state w) else Fin 0.

(** The click on the play button of the component of song [s]. *)
Definition context_handlePlayClick (s : Song.t) (granted : bool) (w : World) : World :=
  if String.eqb (Song.id s) "" || String.eqb (Song.audioUrl s) "" then w
  else if isThisSongPlayingInContext s w then togglePlay granted w
  else play s granted w.

(** The click on its waveform. *)
Definition context_interaction (s : Song.t) (newTime : number) (w : World) : World :=
  if isThisSongPlayingInContext s w then seek newTime w else w.

(** ** [MiniPlayer] *)

(** [if (!currentSong) return null]. *)
Definition MiniPlayer_renders (w : World) : bool :=
  match currentSong (state w) with Some _ => true | None => false end.

Section MiniPlayer.
Context {fmt : NumberFormat}.

(** The click on the volume button. *)
Definition MiniPlayer_muteClick (w : World) : World :=
  setVolume (if num_ltb (Fin 0) (displayVolume (state w)) then Fin 0 else Fin 1) w.
End MiniPlayer.

(** ** A page of standalone players *)

(** The click on the play button of the [i]-th player; the events it
    dispatches reach the listener of every player of the page. *)
Definition click_player (i : nat) (granted : bool) (ps : list Widget) : list Widget :=
  match ps !! i with
  | None => ps
  | Some p =>
      let '(p', ds) := handlePlayClick granted p in
      fold_left (fun ps d => handleOtherPlayerPlay d <$> ps) ds (<[i := p']> ps)
  end.

(** The listener of a standalone player for the [ended] event of its own
    element. *)
Definition local_handleEnded (p : Widget) : Widget :=
  mkWidget (song p) (localAudioRef p) false (Fin 0) (totalDuration p).

(** Playback of a standalone player has reached the end of the resource:
    the element pauses and the listener runs. *)
Definition player_ended (p : Widget) : Widget :=
  match localAudioRef p with
  | Some a => local_handleEnded (with_localAudioRef (Some (fst (el_pause a))) p)
  | None => p
  end.

(** What happens on a page: a click on the play button of a player, the end
    of the song of a player, a play event dispatched by another instance of
    the page (a provider, say). *)
Inductive PageEvent : Type :=
  | PClick (i : nat) (granted : bool)
  | PEnded (i : nat)
  | PPlayEvent (detail : option string).

Definition page_step (e : PageEvent) (ps : list Widget) : list Widget :=
  match e with
  | PClick i granted => click_player i granted ps
  | PEnded i =>
      match ps !! i with
      | Some p => <[i := player_ended p]> ps
      | None => ps
      end
  | PPlayEvent detail => handleOtherPlayerPlay detail <$> ps
  end.

Definition page_run (evs : list PageEvent) (ps : list Widget) : list Widget :=
  fold_left (fun ps e => page_step e ps) evs ps.

(** The positions of the players that report playing. *)
Definition playing_players (ps : list Widget) : list nat :=
  filter (fun j => localIsPlaying <$> ps !! j = Some true) (seq 0 (length ps)).

(** Every player is mounted with a song that can be played, and no two
    players have the same song. *)
Definition page_ready (ps : list Widget) : Prop :=
  Forall (fun p => ready (Standalone p)) ps
  /\ NoDup ((fun p => Song.id (song p)) <$> ps).

(** ** Further observations *)

(** The element's source and level, as the provider set them. *)
Definition element_src (w : World) : option string := Audio.src <$> audioRef w.

Definition element_volume (w : World) : option number := Audio.volume <$> audioRef w.

(** The element holds the source of the current song, or none. *)
Definition element_loaded (w : World) : Prop :=
  element_src w
  = Some (match currentSong (state w) with
          | Some c => Song.audioUrl c
          | None => ""
          end).

(** Without a current song the element is paused. *)
Definition idle_without_song (w : World) : Prop :=
  currentSong (state w) = None -> Audio.paused <$> audioRef w = Some true.

(** Every level of the provider lies between 0 and 1. *)
Definition levels_in_unit (w : World) : Prop :=
  in_unit (volume (state w))
  /\ in_unit (displayVolume (state w))
  /\ (forall a, audioRef w = Some a -> in_unit (Audio.volume a))
  /\ (forall iv, fadeIntervalRef w = Some iv ->
        in_unit (targetVolume iv) /\ num_le (Fin 0) (volumeStep iv)).

(** No [setVolume] of the trace is given [NaN]. *)
Definition sets_numbers (tr : list Action) : bool :=
  forallb (fun a => match a with
                    | ASetVolume v => negb (isNaN v)
                    | _ => true
                    end) tr.

(** A page of three standalone players. *)
Definition thirdSong : Song.t :=
  {| Song.id := "test-3"; Song.title := "Third Song";
     Song.artist := None; Song.album := None;
     Song.audioUrl := "https://example.com/third.mp3";
     Song.duration := Some (Fin 125); Song.peaks := None |}.

Definition three_players : list Widget :=
  [standalone_player testSong; standalone_player otherSong;
   standalone_player thirdSong].

(** The move writes the store of a provider that persists its volume: a
    [setVolume] that neither the element nor the store refuses. *)
Definition stores_volume (m : Move) : bool :=
  match m with
  | MAction (ASetVolume v) => negb (isNaN v)
  | _ => false
  end.

(** * Properties *)

(** ** Numbers *)

Lemma Qle_bool_false (a b : Q) : Qle_bool a b = false <-> (b < a)%Q.
Proof.
  split; intros H.
  - apply Qnot_le_lt. intros Hle. apply Qle_bool_iff in Hle. congruence.
  - destruct (Qle_bool a b) eqn:E; [|reflexivity].
    apply Qle_bool_iff in E. exfalso. now apply (Qlt_not_le _ _ H).
Qed.

Ltac qprop :=
  repeat match goal with
  | H : Qle_bool _ _ = true |- _ => apply Qle_bool_iff in H
  | H : Qle_bool _ _ = false |- _ => apply Qle_bool_false in H
  | |- Qle_bool _ _ = true => apply Qle_bool_iff
  | |- Qle_bool _ _ = false => apply Qle_bool_false
  end.

(** Case analysis on every comparison of rationals in the goal. *)
Ltac qcases :=
  repeat match goal with
  | |- context [Qle_bool ?a ?b] => destruct (Qle_bool a b) eqn:?; simpl
  end;
  qprop; try reflexivity; try easy; try lra.

Lemma num_leb_refl (x : number) : isNaN x = false -> num_leb x x = true.
Proof. destruct x as [| |q|]; simpl; try easy. intros _. qprop. lra. Qed.

Lemma num_le_trans (x y z : number) : num_le x y -> num_le y z -> num_le x z.
Proof.
  unfold num_le.
  destruct x as [| |a|], y as [| |b|], z as [| |c|]; simpl; try easy.
  intros. qprop. lra.
Qed.

Lemma num_eq_refl (x : number) : num_eq x x.
Proof. destruct x; simpl; try easy. Qed.

Lemma num_eq_leb_l (x y z : number) : num_eq x y -> num_leb x z = num_leb y z.
Proof.
  destruct x as [| |a|], y as [| |b|], z as [| |c|]; simpl; try easy.
  intros Hab. qcases.
Qed.

Lemma num_eq_leb_r (x y z : number) : num_eq x y -> num_leb z x = num_leb z y.
Proof.
  destruct x as [| |a|], y as [| |b|], z as [| |c|]; simpl; try easy.
  intros Hab. qcases.
Qed.

Lemma num_eq_isNaN (x y : number) : num_eq x y -> isNaN x = isNaN y.
Proof. destruct x, y; simpl; easy. Qed.

Lemma in_unit_not_NaN (x : number) : in_unit x -> isNaN x = false.
Proof. destruct x; unfold in_unit, num_le; simpl; easy. Qed.

(** The clamp computed by [setVolume] is the identity on the unit interval. *)
Lemma clamp_code_in_unit (v : number) :
  in_unit v -> Math_max (Fin 0) (Math_min (Fin 1) v) = v.
Proof.
  intros [H0 H1]. unfold num_le in *.
  destruct v as [| |q|]; simpl in *; try easy.
  rewrite H1. simpl. now rewrite H0.
Qed.

(** What [Math.max(0, Math.min(1, v))] computes is the clamp of [v] to the
    unit interval. *)
Lemma clamp_code (v : number) :
  Math_max (Fin 0) (Math_min (Fin 1) v) = clamp v (Fin 0) (Fin 1).
Proof.
  unfold clamp, num_ltb.
  destruct v as [| |q|]; simpl; try easy.
  qcases.
Qed.

Lemma clamp_in_unit (v : number) :
  isNaN v = false -> in_unit (clamp v (Fin 0) (Fin 1)).
Proof.
  intros Hv. unfold clamp, num_ltb, in_unit, num_le.
  destruct v as [| |q|]; simpl in *; try easy.
  qcases; split; qcases.
Qed.

(** ** What each operation leaves alone *)

Lemma clearFade_spec (w : World) : clearFade w = with_fadeIntervalRef None w.
Proof. unfold clearFade. destruct w as [? ? ? [?|] ? ? ?]; reflexivity. Qed.

(** Every field after [pause()]. *)
Lemma pause_fields (w : World) (a : Audio.t) :
  audioRef w = Some a ->
  state (pause w) = state w
  /\ fadeIntervalRef (pause w) = None
  /\ audioRef (pause w) = Some (fst (el_pause a))
  /\ tasks (pause w) = tasks w ++ snd (el_pause a)
  /\ effects (pause w) = effects w ++ [OnPause]
  /\ localStorage (pause w) = localStorage w
  /\ config (pause w) = config w.
Proof.
  intros Ha. unfold pause. rewrite Ha, clearFade_spec.
  unfold audio_pause. simpl. rewrite Ha.
  destruct (el_pause a) as [a' evs]. simpl. repeat split; reflexivity.
Qed.

(** C10: [pause()] writes no field of the playback state, whether or not a
    fade is running (a fade in progress keeps its flag and its level): it
    clears the fade interval, asks the element to pause, which queues the
    element's [pause] event when it was playing, and invokes the on-pause
    callback; [isPlaying] is cleared when the listener of that event runs. *)
Theorem pause_frame (w : World) (a : Audio.t) :
  audioRef w = Some a ->
  currentSong (state (pause w)) = currentSong (state w)
  /\ isPlaying (state (pause w)) = isPlaying (state w)
  /\ currentTime (state (pause w)) = currentTime (state w)
  /\ duration (state (pause w)) = duration (state w)
  /\ volume (state (pause w)) = volume (state w)
  /\ displayVolume (state (pause w)) = displayVolume (state w)
  /\ isFadingIn (state (pause w)) = isFadingIn (state w)
  /\ fadeIntervalRef (pause w) = None
  /\ audioRef (pause w) = Some (fst (el_pause a))
  /\ tasks (pause w) = tasks w ++ (if Audio.paused a then [] else [Ev_pause])
  /\ effects (pause w) = effects w ++ [OnPause]
  /\ localStorage (pause w) = localStorage w
  /\ isPlaying (state (handle Ev_pause (pause w))) = false.
Proof.
  intros Ha. destruct (pause_fields w a Ha) as (Hst & Hfi & Haud & Htk & Hef & Hls & _).
  rewrite Hst, Hfi, Haud, Htk, Hef, Hls. unfold handle. rewrite Haud.
  repeat split; try reflexivity. unfold el_pause. now destruct (Audio.paused a).
Qed.

Lemma pause_frame_witness :
  audioRef mid_fade = Some (set_volume (Fin (3 # 30)) (set_paused false
                              (set_volume (Fin 0)
                                 (set_src (Song.audioUrl testSong) new_Audio))))
  /\ displayVolume (state (pause mid_fade)) = Fin (3 # 30)
  /\ isFadingIn (state (pause mid_fade)) = true.
Proof.
  assert (Ha : audioRef mid_fade
               = Some (set_volume (Fin (3 # 30)) (set_paused false
                         (set_volume (Fin 0)
                            (set_src (Song.audioUrl testSong) new_Audio)))))
    by (vm_compute; reflexivity).
  split; [exact Ha|].
  destruct (pause_frame mid_fade _ Ha) as (_ & _ & _ & _ & _ & Hd & Hf & _).
  rewrite Hd, Hf. repeat split; vm_compute; reflexivity.
Defined.

(** ** A denied start request *)

Lemma await_play_denied (w : World) (a : Audio.t) :
  audioRef w = Some a -> await_play false w = Rejected w.
Proof.
  intros Ha. unfold await_play. rewrite Ha. simpl.
  destruct w as [cfg st aud fi ls ef tk]. simpl in *. subst aud.
  unfold with_tasks, with_audioRef. simpl. now rewrite app_nil_r.
Qed.

(** Every field after a denied [play]. *)
Lemma play_denied_fields (track : Song.t) (w : World) (a : Audio.t) :
  audioRef w = Some a ->
  play_async track false w = Fulfilled (play track false w)
  /\ effects (play track false w) = effects w
  /\ fadeIntervalRef (play track false w) = None
  /\ isFadingIn (state (play track false w)) = isFadingIn (state w)
  /\ displayVolume (state (play track false w)) = displayVolume (state w)
  /\ volume (state (play track false w)) = volume (state w)
  /\ localStorage (play track false w) = localStorage w
  /\ (exists a', audioRef (play track false w) = Some a').
Proof.
  intros Ha. unfold play, play_async. rewrite Ha, clearFade_spec.
  destruct w as [[fe fd pv sk dv] st aud fi ls ef tk]. simpl in *. subst aud.
  destruct (other_song (currentSong st) track), fe; simpl;
    rewrite ?app_nil_r; repeat split; try reflexivity; now eexists.
Qed.

(** C5: when the element rejects the start request, [play] settles without
    an error; the log of effects is the one before the call, so no event was
    dispatched and the on-play callback was not invoked; no fade interval is
    live and [isFadingIn] and [displayVolume] are as before. *)
Theorem play_denied (track : Song.t) (w : World) (a : Audio.t) :
  audioRef w = Some a ->
  play_async track false w = Fulfilled (play track false w)
  /\ effects (play track false w) = effects w
  /\ dispatched (effects (play track false w)) = dispatched (effects w)
  /\ fadeIntervalRef (play track false w) = None
  /\ isFadingIn (state (play track false w)) = isFadingIn (state w)
  /\ displayVolume (state (play track false w)) = displayVolume (state w).
Proof.
  intros Ha.
  destruct (play_denied_fields track w a Ha) as (Hs & He & Hi & Hf & Hd & _).
  rewrite He. repeat split; assumption.
Qed.

Lemma play_denied_witness :
  audioRef default_provider = Some new_Audio
  /\ play_async testSong false default_provider
     = Fulfilled (play testSong false default_provider)
  /\ effects (play testSong false default_provider) = []
  /\ fadeIntervalRef (play testSong false default_provider) = None.
Proof.
  assert (Ha : audioRef default_provider = Some new_Audio)
    by (vm_compute; reflexivity).
  split; [exact Ha|].
  destruct (play_denied testSong default_provider new_Audio Ha)
    as (Hs & He & _ & Hf & _).
  split; [exact Hs|]. split; [exact He | exact Hf].
Defined.

(** ** Seeking *)

(** What [seek] does with a finite time, and with another. *)
Lemma seek_finite (q : Q) (w : World) (a : Audio.t) :
  audioRef w = Some a ->
  seek_call (Fin q) w
  = Returned (setState (with_currentTime (Fin q))
                (with_audioRef (Some (set_currentTime (Fin q) a)) w)).
Proof. intros Ha. unfold seek_call. now rewrite Ha. Qed.

Lemma seek_refused (t : number) (w : World) (a : Audio.t) :
  audioRef w = Some a ->
  (forall q, t <> Fin q) ->
  seek_call t w = Thrown TypeError w.
Proof.
  intros Ha Ht. unfold seek_call. rewrite Ha.
  destruct t as [| |q|]; try reflexivity. now destruct (Ht q).
Qed.

(** Either way the levels, the song and the fade are as before, and the
    element keeps its source, its level and its [paused]. *)
Lemma seek_cases (t : number) (w : World) (a : Audio.t) :
  audioRef w = Some a ->
  seek t w = w
  \/ seek t w = setState (with_currentTime t)
                  (with_audioRef (Some (set_currentTime t a)) w).
Proof.
  intros Ha. unfold seek. destruct t as [| |q|].
  1,2,4: left; erewrite seek_refused by (exact Ha || discriminate); reflexivity.
  right. now rewrite (seek_finite q w a Ha).
Qed.

(** C6, as the code has it: for a finite time [t], [seek(t)] hands [t] to
    the element and sets [currentTime] to [t] itself in the same transition,
    touching no other field; so [currentTime] lies between 0 and the
    duration when [t] does.  A time that is [NaN] or infinite is refused by
    the element: the call raises a [TypeError] before the state is written,
    and the world is as before. *)
Theorem seek_sets_currentTime (t : number) (w : World) (a : Audio.t) :
  audioRef w = Some a ->
  match t with
  | Fin _ =>
      seek_call t w = Returned (seek t w)
      /\ currentTime (state (seek t w)) = t
      /\ audioRef (seek t w) = Some (set_currentTime t a)
      /\ state (seek t w) = with_currentTime t (state w)
      /\ (num_le (Fin 0) t -> num_le t (duration (state w)) ->
          num_le (Fin 0) (currentTime (state (seek t w)))
          /\ num_le (currentTime (state (seek t w))) (duration (state (seek t w))))
  | _ => seek_call t w = Thrown TypeError w /\ seek t w = w
  end.
Proof.
  intros Ha. unfold seek. destruct t as [| |q|].
  1,2,4: erewrite seek_refused by (exact Ha || discriminate); now split.
  rewrite (seek_finite q w a Ha). cbn. repeat split; assumption.
Qed.

Lemma seek_sets_currentTime_witness :
  audioRef default_provider = Some new_Audio
  /\ currentTime (state (seek (Fin 42) default_provider)) = Fin 42
  /\ seek_call NaN default_provider = Thrown TypeError default_provider.
Proof.
  assert (Ha : audioRef default_provider = Some new_Audio)
    by (vm_compute; reflexivity).
  split; [exact Ha|].
  destruct (seek_sets_currentTime (Fin 42) default_provider new_Audio Ha)
    as (_ & Ht & _).
  split; [exact Ht|].
  exact (proj1 (seek_sets_currentTime NaN default_provider new_Audio Ha)).
Defined.

(** C6 as stated fails: a negative time and a time beyond the duration are
    stored in [currentTime] as they are. *)
Lemma seek_not_clamped :
  let playing := play testSong true default_provider in
  duration (state playing) = Fin 180
  /\ currentTime (state (seek (Fin (-5)) playing)) = Fin (-5)
  /\ num_leb (Fin 0) (currentTime (state (seek (Fin (-5)) playing))) = false
  /\ currentTime (state (seek (Fin 200) playing)) = Fin 200
  /\ num_leb (currentTime (state (seek (Fin 200) playing)))
             (duration (state (seek (Fin 200) playing))) = false.
Proof. vm_compute. repeat split; reflexivity. Qed.

(** ** Setting the volume *)

Section SetVolume.
Context {fmt : NumberFormat}.

(** The mount effect creates the element, keeps the configuration and the
    store, and starts no fade. *)
Lemma provider_mounted (cfg : AudioPlayerConfig) (storage : gmap string string) :
  exists a : Audio.t,
    audioRef (provider cfg storage) = Some a
    /\ config (provider cfg storage) = cfg
    /\ localStorage (provider cfg storage) = storage
    /\ fadeIntervalRef (provider cfg storage) = None
    /\ isFadingIn (state (provider cfg storage)) = false
    /\ displayVolume (state (provider cfg storage))
       = volume (state (provider cfg storage)).
Proof.
  unfold provider, mount, initial. destruct cfg as [fe fd pv sk dv].
  cbn [config persistVolume storageKey with_audioRef localStorage].
  destruct pv; [|eexists; repeat split; reflexivity].
  destruct (storage !! sk) as [saved|]; [|eexists; repeat split; reflexivity].
  destruct (negb (String.eqb saved "")); [|eexists; repeat split; reflexivity].
  destruct (negb (isNaN (parseFloat saved)) && num_geb (parseFloat saved) (Fin 0)
            && num_leb (parseFloat saved) (Fin 1));
    eexists; repeat split; reflexivity.
Qed.

(** The element takes the clamp of every number. *)
Lemma volume_setter_clamp (v : number) (a : Audio.t) :
  isNaN v = false ->
  volume_setter (Math_max (Fin 0) (Math_min (Fin 1) v)) a
  = inr (set_volume (Math_max (Fin 0) (Math_min (Fin 1) v)) a).
Proof.
  intros Hv. destruct v as [| |q|]; try discriminate; try reflexivity.
  cbn. destruct (Qle_bool q 1) eqn:H1; cbn.
  - destruct (Qle_bool 0 q) eqn:H0; cbn; [now rewrite H0, H1|reflexivity].
  - reflexivity.
Qed.

(** [setVolume] on a number: the call returns. *)
Lemma setVolume_returns (v : number) (w : World) (a : Audio.t) :
  audioRef w = Some a ->
  isNaN v = false ->
  setVolume_call v w = Returned (setVolume v w).
Proof.
  intros Ha Hv. unfold setVolume, setVolume_call, setVolume_on. rewrite Ha. cbv zeta.
  rewrite (volume_setter_clamp v a Hv). now destruct (persistVolume _).
Qed.

(** [setVolume] on [NaN]: a running fade is cleared with its flag, then the
    element refuses the level and the call raises; nothing else is
    written. *)
Lemma setVolume_refused (w : World) (a : Audio.t) :
  audioRef w = Some a ->
  setVolume_call NaN w
  = Thrown TypeError
      (match fadeIntervalRef w with
       | Some _ => setState (with_isFadingIn false) (with_fadeIntervalRef None w)
       | None => w
       end).
Proof.
  intros Ha. unfold setVolume_call, setVolume_on. rewrite Ha. cbn.
  destruct w as [cfg st aud [iv|] ls ef tk]; reflexivity.
Qed.

(** Every field after [setVolume] on a number, [c] being the clamp the code
    computes. *)
Lemma setVolume_fields (v : number) (w : World) (a : Audio.t) :
  audioRef w = Some a ->
  isNaN v = false ->
  let c := Math_max (Fin 0) (Math_min (Fin 1) v) in
  let w' := setVolume v w in
  volume (state w') = c
  /\ displayVolume (state w') = c
  /\ isFadingIn (state w')
     = match fadeIntervalRef w with
       | Some _ => false
       | None => isFadingIn (state w)
       end
  /\ audioRef w' = Some (set_volume c a)
  /\ fadeIntervalRef w' = None
  /\ localStorage w'
     = (if persistVolume (config w)
        then <[storageKey (config w) := Number_toString c]> (localStorage w)
        else localStorage w)
  /\ config w' = config w
  /\ effects w' = effects w
  /\ tasks w' = tasks w.
Proof.
  intros Ha Hv. unfold setVolume, setVolume_call, setVolume_on. rewrite Ha. cbv zeta.
  rewrite (volume_setter_clamp v a Hv).
  destruct w as [[fe fd pv sk dv] st aud [iv|] ls ef tk];
    cbn [audioRef] in Ha; subst aud; destruct pv; repeat split; reflexivity.
Qed.

(** What [setVolume] leaves alone on every argument, raising or not. *)
Lemma setVolume_frame (v : number) (w : World) (a : Audio.t) :
  audioRef w = Some a ->
  let w' := setVolume v w in
  config w' = config w
  /\ effects w' = effects w
  /\ tasks w' = tasks w
  /\ fadeIntervalRef w' = None
  /\ currentSong (state w') = currentSong (state w)
  /\ isPlaying (state w') = isPlaying (state w)
  /\ currentTime (state w') = currentTime (state w)
  /\ duration (state w') = duration (state w)
  /\ exists a', audioRef w' = Some a'
                /\ Audio.src a' = Audio.src a
                /\ Audio.paused a' = Audio.paused a
                /\ Audio.currentTime a' = Audio.currentTime a
                /\ Audio.duration a' = Audio.duration a.
Proof.
  intros Ha. destruct (isNaN v) eqn:Hv.
  - destruct v; try discriminate. unfold setVolume.
    rewrite (setVolume_refused w a Ha). cbn [outcome_world].
    destruct w as [cfg st aud [iv|] ls ef tk]; cbn in *; subst aud;
      repeat split; exists a; repeat split.
  - unfold setVolume, setVolume_call, setVolume_on. rewrite Ha. cbv zeta.
    rewrite (volume_setter_clamp v a Hv).
    destruct w as [[fe fd pv sk dv] st aud [iv|] ls ef tk];
      cbn [audioRef] in Ha; subst aud; destruct pv; cbn;
      repeat split; eexists; repeat split.
Qed.

(** On every number but [NaN], [setVolume] stores the clamp of its
    argument in [volume] and [displayVolume], hands it to the element,
    stops a running fade and clears its flag. *)
Lemma setVolume_clamps (v : number) (w : World) (a : Audio.t) :
  audioRef w = Some a ->
  isNaN v = false ->
  let w' := setVolume v w in
  volume (state w') = clamp v (Fin 0) (Fin 1)
  /\ displayVolume (state w') = volume (state w')
  /\ in_unit (volume (state w'))
  /\ audioRef w' = Some (set_volume (clamp v (Fin 0) (Fin 1)) a)
  /\ fadeIntervalRef w' = None
  /\ (fadeIntervalRef w <> None -> isFadingIn (state w') = false).
Proof.
  intros Ha Hv w'.
  destruct (setVolume_fields v w a Ha Hv) as (Hvol & Hdisp & Hfl & Haud & Hfi & _).
  fold w' in Hvol, Hdisp, Hfl, Haud, Hfi. rewrite clamp_code in *.
  rewrite Hvol, Hdisp, Haud, Hfi, Hfl. repeat split.
  - now apply clamp_in_unit.
  - now apply clamp_in_unit.
  - destruct (fadeIntervalRef w); easy.
Qed.

(** C3 at [NaN]: the clamp of [setVolume] lets [NaN] through, and the
    element refuses it: the call raises a [TypeError] to its caller.  By
    then a running fade has been stopped and its flag cleared; the volume,
    the displayed volume (in mid-ramp when a fade was running), the element
    and the store are the ones before the call.  The input is neither
    clamped nor turned down without a trace. *)
Theorem setVolume_NaN (w : World) (a : Audio.t) :
  audioRef w = Some a ->
  Math_max (Fin 0) (Math_min (Fin 1) NaN) = NaN
  /\ setVolume_call NaN w = Thrown TypeError (setVolume NaN w)
  /\ volume (state (setVolume NaN w)) = volume (state w)
  /\ displayVolume (state (setVolume NaN w)) = displayVolume (state w)
  /\ audioRef (setVolume NaN w) = Some a
  /\ localStorage (setVolume NaN w) = localStorage w
  /\ fadeIntervalRef (setVolume NaN w) = None
  /\ isFadingIn (state (setVolume NaN w))
     = match fadeIntervalRef w with
       | Some _ => false
       | None => isFadingIn (state w)
       end.
Proof.
  intros Ha. unfold setVolume. rewrite (setVolume_refused w a Ha).
  cbn [outcome_world]. split; [reflexivity|]. split; [reflexivity|].
  destruct w as [cfg st aud [iv|] ls ef tk]; cbn in *; subst aud; repeat split.
Qed.

End SetVolume.

Lemma setVolume_NaN_witness :
  audioRef mid_fade
  = Some (set_volume (Fin (3 # 30)) (set_paused false
            (set_volume (Fin 0) (set_src (Song.audioUrl testSong) new_Audio))))
  /\ setVolume_call NaN mid_fade = Thrown TypeError (setVolume NaN mid_fade)
  /\ isFadingIn (state (setVolume NaN mid_fade)) = false
  /\ displayVolume (state (setVolume NaN mid_fade)) = Fin (3 # 30)
  /\ volume (state (setVolume NaN mid_fade)) = Fin 1.
Proof.
  assert (Ha : audioRef mid_fade
               = Some (set_volume (Fin (3 # 30)) (set_paused false
                         (set_volume (Fin 0)
                            (set_src (Song.audioUrl testSong) new_Audio)))))
    by (vm_compute; reflexivity).
  assert (Hi : fadeIntervalRef mid_fade <> None) by (vm_compute; discriminate).
  assert (Hd : displayVolume (state mid_fade) = Fin (3 # 30))
    by (vm_compute; reflexivity).
  assert (Hv : volume (state mid_fade) = Fin 1) by (vm_compute; reflexivity).
  destruct (setVolume_NaN mid_fade _ Ha) as (_ & H1 & H2 & H3 & _ & _ & _ & H7).
  split; [exact Ha|]. split; [exact H1|].
  rewrite H7, H3, H2, Hd, Hv.
  destruct (fadeIntervalRef mid_fade); [repeat split | now destruct Hi].
Defined.

(** On a number the flag is cleared only with a live interval: after a
    [pause()] in mid-fade, which clears the interval and leaves the flag,
    [setVolume(0.5)] sets the levels and [isFadingIn] stays true. *)
Lemma setVolume_keeps_stale_flag :
  isFadingIn (state (setVolume (Fin 0.5) (pause mid_fade))) = true
  /\ fadeIntervalRef (setVolume (Fin 0.5) (pause mid_fade)) = None
  /\ volume (state (setVolume (Fin 0.5) (pause mid_fade))) = Fin 0.5
  /\ displayVolume (state (setVolume (Fin 0.5) (pause mid_fade))) = Fin 0.5.
Proof. vm_compute. repeat split; reflexivity. Qed.

(** ** The listeners and the start request *)

Lemma handle_levels (e : MediaEvent) (w : World) :
  levels (handle e w) = levels w /\ audioRef (handle e w) = audioRef w
  /\ tasks (handle e w) = tasks w.
Proof.
  unfold handle. destruct (audioRef w) as [a|] eqn:Ha; [|easy].
  destruct e; repeat split; try reflexivity; exact Ha.
Qed.

Lemma handles_levels (evs : list MediaEvent) (w : World) :
  levels (handles evs w) = levels w /\ audioRef (handles evs w) = audioRef w
  /\ tasks (handles evs w) = tasks w.
Proof.
  revert w. induction evs as [|e evs IH]; intros w; [easy|].
  cbn [handles fold_left]. fold (handles evs (handle e w)).
  destruct (IH (handle e w)) as (H1 & H2 & H3).
  destruct (handle_levels e w) as (H4 & H5 & H6).
  rewrite H1, H2, H3. easy.
Qed.

Lemma handles_isPlaying (evs : list MediaEvent) (w : World) (a : Audio.t) :
  audioRef w = Some a ->
  isPlaying (state (handles evs w)) = playing_after evs (isPlaying (state w)).
Proof.
  revert w. induction evs as [|e evs IH]; intros w Ha; [reflexivity|].
  cbn [handles playing_after fold_left]. fold (handles evs (handle e w)).
  fold (playing_after evs).
  rewrite IH by (destruct (handle_levels e w) as (_ & -> & _); exact Ha).
  f_equal. unfold handle. rewrite Ha. destruct e; reflexivity.
Qed.

Lemma run_tasks_spec (w : World) : run_tasks w = handles (tasks w) (with_tasks [] w).
Proof. reflexivity. Qed.

(** A granted start request: the element plays, the queue is empty, the
    provider knows, and nothing else of the provider has changed. *)
Lemma await_play_granted (w : World) (a : Audio.t) :
  audioRef w = Some a ->
  exists w' : World,
    await_play true w = Fulfilled w'
    /\ levels w' = levels w
    /\ audioRef w' = Some (set_paused false a)
    /\ tasks w' = []
    /\ (source_in_sync w -> isPlaying (state w') = true).
Proof.
  intros Ha. unfold await_play. rewrite Ha. unfold el_play.
  destruct (Audio.paused a) eqn:Hp; eexists; (split; [reflexivity|]);
    rewrite run_tasks_spec;
    match goal with |- context [handles ?evs ?w0] =>
      destruct (handles_levels evs w0) as (H1 & H2 & H3);
      pose proof (handles_isPlaying evs w0 _ eq_refl) as H4
    end; rewrite H1, H2, H3, H4; cbn [with_tasks tasks with_audioRef state].
  - repeat split. intros _. unfold playing_after. now rewrite fold_left_app.
  - repeat split.
    + destruct a; cbn in *; now subst.
    + intros Hs. rewrite app_nil_r. rewrite (Hs a Ha), Hp. reflexivity.
Qed.

Lemma handle_effects (e : MediaEvent) (w : World) :
  dispatched (effects (handle e w)) = dispatched (effects w)
  /\ exists l, effects (handle e w) = effects w ++ l.
Proof.
  unfold handle. destruct (audioRef w) as [a|].
  - destruct e; cbn [handleTimeUpdate handleLoadedMetadata handleEnded handlePlay
                     handlePause emit setState effects];
      unfold dispatched; rewrite ?omap_app, ?app_nil_r;
      (split; [reflexivity|]);
      first [ now (exists []; rewrite app_nil_r) | now eexists ].
  - split; [reflexivity|]. exists []. now rewrite app_nil_r.
Qed.

Lemma handles_effects (evs : list MediaEvent) (w : World) :
  dispatched (effects (handles evs w)) = dispatched (effects w)
  /\ exists l, effects (handles evs w) = effects w ++ l.
Proof.
  revert w. induction evs as [|e evs IH]; intros w.
  - split; [reflexivity|]. exists []. cbn. now rewrite app_nil_r.
  - cbn [handles fold_left]. fold (handles evs (handle e w)).
    destruct (IH (handle e w)) as (H1 & l1 & H2).
    destruct (handle_effects e w) as (H3 & l2 & H4).
    split; [congruence|]. exists (l2 ++ l1). rewrite H2, H4. now rewrite app_assoc.
Qed.

(** The effects of a granted start request: whatever the delivered events
    logged, none of it a dispatch. *)
Lemma await_play_effects (granted : bool) (w : World) :
  exists l : list Effect,
    effects (settled_value (await_play granted w)) = effects w ++ l
    /\ dispatched l = [].
Proof.
  unfold await_play. destruct (audioRef w) as [a|].
  2:{ exists []. cbn. now rewrite app_nil_r. }
  destruct (el_play granted a) as [[a' evs] ok]. destruct ok.
  - cbn [settled_value]. rewrite run_tasks_spec.
    match goal with |- context [handles ?es ?w0] =>
      destruct (handles_effects es w0) as (H1 & l & H2) end.
    exists l. split; [exact H2|].
    rewrite H2 in H1. unfold dispatched in *. rewrite omap_app in H1.
    cbn [with_tasks with_audioRef effects] in H1.
    apply (f_equal length) in H1. rewrite length_app in H1.
    destruct (omap _ l); [reflexivity|]. cbn in H1. lia.
  - exists []. cbn. now rewrite app_nil_r.
Qed.

(** ** A granted [play] *)

Lemma levels_inv (w w' : World) :
  levels w' = levels w ->
  volume (state w') = volume (state w)
  /\ displayVolume (state w') = displayVolume (state w)
  /\ isFadingIn (state w') = isFadingIn (state w)
  /\ currentSong (state w') = currentSong (state w)
  /\ fadeIntervalRef w' = fadeIntervalRef w
  /\ config w' = config w
  /\ localStorage w' = localStorage w.
Proof. unfold levels. intros [= -> -> -> -> -> -> ->]. easy. Qed.

Lemma other_song_false (cur : option Song.t) (track : Song.t) :
  other_song cur track = false ->
  exists c, cur = Some c /\ Song.id c = Song.id track.
Proof.
  destruct cur as [c|]; [|easy]. cbn. intros H. exists c. split; [reflexivity|].
  apply negb_false_iff in H. now apply String.eqb_eq in H.
Qed.

Arguments await_play : simpl never.

Lemma fadeInVolume_fields (target : number) (w : World) (a : Audio.t) :
  audioRef w = Some a ->
  fadeInVolume target w
  = with_fadeIntervalRef
      (Some (mkFade (num_div (fadeInDuration (config w)) (of_nat FADE_STEPS))
                    (num_div target (of_nat FADE_STEPS)) target 0))
      (setState (fun s => with_displayVolume (Fin 0) (with_isFadingIn true s)) w).
Proof.
  intros Ha. unfold fadeInVolume. rewrite Ha, clearFade_spec.
  destruct w; reflexivity.
Qed.

(** The world after a granted [play]. *)
Lemma play_granted (track : Song.t) (w : World) (a : Audio.t) :
  audioRef w = Some a ->
  let target := Math_max (volume (state w)) MIN_FADE_IN_VOLUME in
  let w' := play track true w in
  volume (state w') = volume (state w)
  /\ config w' = config w
  /\ localStorage w' = localStorage w
  /\ tasks w' = []
  /\ (exists c, currentSong (state w') = Some c /\ Song.id c = Song.id track)
  /\ (exists a', audioRef w' = Some a' /\ Audio.paused a' = false
                 /\ Audio.volume a'
                    = if fadeInEnabled (config w) then Fin 0 else target)
  /\ (source_in_sync w -> isPlaying (state w') = true)
  /\ (exists l, effects w'
                = effects w ++ l ++ [DispatchEvent (Some (Song.id track)); OnPlay track]
                /\ dispatched l = [])
  /\ (if fadeInEnabled (config w)
      then fadeIntervalRef w'
           = Some (mkFade (num_div (fadeInDuration (config w)) (of_nat FADE_STEPS))
                          (num_div target (of_nat FADE_STEPS)) target 0)
           /\ displayVolume (state w') = Fin 0
           /\ isFadingIn (state w') = true
      else fadeIntervalRef w' = None
           /\ displayVolume (state w') = displayVolume (state w)
           /\ isFadingIn (state w') = isFadingIn (state w)).
Proof.
  intros Ha target w'. subst w'. unfold play, play_async. rewrite Ha, clearFade_spec.
  destruct w as [[fe fd pv sk dv] st aud fi ls ef tk]. cbn [audioRef] in Ha. subst aud.
  subst target. simpl.
  destruct (other_song (currentSong st) track) eqn:Hother, fe; simpl;
    match goal with |- context [await_play true ?w0] =>
      destruct (await_play_granted w0 _ eq_refl) as (w1 & Haw & Hlev & Haud & Htk & Hplay);
      destruct (await_play_effects true w0) as (l & Hef & Hdl);
      rewrite Haw in *; cbn [settled_value] in Hef;
      apply levels_inv in Hlev; destruct Hlev as (Hv & Hd & Hf & Hc & Hfi & Hcfg & Hls)
    end; simpl in *.
  all: rewrite Hcfg; cbn [fadeInEnabled].
  all: try (erewrite fadeInVolume_fields by (cbn; exact Haud)).
  all: cbn [emit setState with_fadeIntervalRef state config localStorage tasks
            effects audioRef fadeIntervalRef volume displayVolume isFadingIn
            currentSong isPlaying with_displayVolume with_isFadingIn].
  all: rewrite ?Hcfg, ?Hv, ?Hd, ?Hf, ?Hc, ?Hls, ?Htk, ?Haud, ?Hef.
  all: repeat match goal with |- _ /\ _ => split end; try reflexivity.
  all: try (eexists; split; [reflexivity|]; try reflexivity; now repeat split).
  all: try (now apply other_song_false).
  all: try (intros Hs; apply Hplay; intros a0 [= <-]; cbn; exact (Hs a eq_refl)).
  all: try (exists l; split; [now rewrite <- !app_assoc | exact Hdl]).
  all: exact Hfi.
Qed.

(** ** The fade ramp *)

Lemma fade_tick_fields (w : World) (iv : FadeInterval) (a : Audio.t) :
  fadeIntervalRef w = Some iv ->
  audioRef w = Some a ->
  let k := S (currentStep iv) in
  let nv := Math_min (num_mul (volumeStep iv) (of_nat k)) (targetVolume iv) in
  let last := (FADE_STEPS <=? k)%nat in
  let w' := fade_tick w in
  fadeIntervalRef w'
    = (if last then None
       else Some (mkFade (fadeStepDuration iv) (volumeStep iv) (targetVolume iv) k))
  /\ audioRef w' = Some (set_volume nv a)
  /\ displayVolume (state w') = (if last then targetVolume iv else nv)
  /\ isFadingIn (state w') = (if last then false else isFadingIn (state w))
  /\ volume (state w') = volume (state w)
  /\ isPlaying (state w') = isPlaying (state w)
  /\ currentSong (state w') = currentSong (state w)
  /\ config w' = config w
  /\ localStorage w' = localStorage w
  /\ effects w' = effects w
  /\ tasks w' = tasks w.
Proof.
  intros Hi Ha. unfold fade_tick. rewrite Hi.
  destruct w as [cfg st aud fi ls ef tk]. cbn [fadeIntervalRef audioRef] in *.
  subst fi aud. cbv zeta.
  destruct (FADE_STEPS <=? S (currentStep iv))%nat; repeat split; reflexivity.
Qed.

Lemma fade_ticks_S (k : nat) (w : World) :
  fade_ticks (S k) w = fade_tick (fade_ticks k w).
Proof. reflexivity. Qed.

(** While fewer than [FADE_STEPS] firings have happened the interval is
    live and only the levels move. *)
Lemma fade_ticks_running (k : nat) (w : World) (d inc t : number) (a : Audio.t) :
  fadeIntervalRef w = Some (mkFade d inc t 0) ->
  audioRef w = Some a ->
  (k < FADE_STEPS)%nat ->
  let wk := fade_ticks k w in
  fadeIntervalRef wk = Some (mkFade d inc t k)
  /\ audioRef wk = Some (match k with O => a | S _ => set_volume (ramp inc t k (Fin 0)) a end)
  /\ displayVolume (state wk) = ramp inc t k (displayVolume (state w))
  /\ isFadingIn (state wk) = isFadingIn (state w)
  /\ volume (state wk) = volume (state w)
  /\ isPlaying (state wk) = isPlaying (state w)
  /\ currentSong (state wk) = currentSong (state w)
  /\ config wk = config w
  /\ localStorage wk = localStorage w
  /\ effects wk = effects w
  /\ tasks wk = tasks w.
Proof.
  intros Hi Ha. induction k as [|k IH]; intros Hk wk.
  - subst wk. cbn. repeat split; assumption.
  - specialize (IH ltac:(lia)). cbv zeta in IH.
    destruct IH as (H1 & H2 & H3 & H4 & H5 & H6 & H7 & H8 & H9 & H10 & H11).
    subst wk. rewrite fade_ticks_S.
    pose proof (fade_tick_fields _ _ _ H1 H2) as G. cbv zeta in G.
    destruct G as (G1 & G2 & G3 & G4 & G5 & G6 & G7 & G8 & G9 & G10 & G11).
    cbn [currentStep volumeStep targetVolume fadeStepDuration] in *.
    assert (Hlast : (FADE_STEPS <=? S k)%nat = false) by (apply Nat.leb_gt; lia).
    rewrite Hlast in *.
    rewrite G1, G2, G3, G4, G5, G6, G7, G8, G9, G10, G11.
    repeat split; try assumption; try reflexivity.
    destruct k; reflexivity.
Qed.

(** The last firing sets the level to the target and ends the fade. *)
Lemma fade_ticks_done (w : World) (d inc t : number) (a : Audio.t) :
  fadeIntervalRef w = Some (mkFade d inc t 0) ->
  audioRef w = Some a ->
  let wn := fade_ticks FADE_STEPS w in
  fadeIntervalRef wn = None
  /\ audioRef wn = Some (set_volume (ramp inc t FADE_STEPS (Fin 0)) a)
  /\ displayVolume (state wn) = t
  /\ isFadingIn (state wn) = false
  /\ volume (state wn) = volume (state w)
  /\ isPlaying (state wn) = isPlaying (state w)
  /\ currentSong (state wn) = currentSong (state w)
  /\ config wn = config w
  /\ localStorage wn = localStorage w
  /\ effects wn = effects w
  /\ tasks wn = tasks w.
Proof.
  intros Hi Ha wn.
  pose proof (fade_ticks_running 29 w d inc t a Hi Ha ltac:(unfold FADE_STEPS; lia)) as H.
  cbv zeta in H.
  destruct H as (H1 & H2 & H3 & H4 & H5 & H6 & H7 & H8 & H9 & H10 & H11).
  pose proof (fade_tick_fields _ _ _ H1 H2) as G. cbv zeta in G.
  cbn [currentStep volumeStep targetVolume fadeStepDuration] in G.
  rewrite <- (fade_ticks_S 29 w) in G.
  assert (Hlast : (FADE_STEPS <=? 30)%nat = true) by reflexivity.
  rewrite Hlast in G.
  destruct G as (G1 & G2 & G3 & G4 & G5 & G6 & G7 & G8 & G9 & G10 & G11).
  subst wn. assert (Hn : FADE_STEPS = 30%nat) by reflexivity. rewrite Hn.
  rewrite G1, G2, G3, G4, G5, G6, G7, G8, G9, G10, G11.
  repeat split; try assumption; reflexivity.
Qed.

(** A cleared interval does not fire. *)
Lemma fade_ticks_idle (k : nat) (w : World) :
  fadeIntervalRef w = None -> fade_ticks k w = w.
Proof.
  intros Hi. induction k as [|k IH]; [reflexivity|].
  rewrite fade_ticks_S, IH. unfold fade_tick. now rewrite Hi.
Qed.

(** *** The arithmetic of the ramp *)

Lemma of_nat_S_pos (k : nat) : (0 < inject_Z (Z.of_nat (S k)))%Q.
Proof. unfold Qlt, inject_Z. cbn [Qnum Qden]. lia. Qed.

Lemma of_nat_S_succ (k : nat) :
  (inject_Z (Z.of_nat (S k)) == inject_Z (Z.of_nat k) + 1)%Q.
Proof. rewrite Nat2Z.inj_succ. unfold Z.succ. now rewrite inject_Z_plus. Qed.

Lemma of_nat_le_steps (k : nat) :
  (k <= FADE_STEPS)%nat -> (inject_Z (Z.of_nat k) <= 30)%Q.
Proof.
  intros Hk. change 30%Q with (inject_Z 30). rewrite <- Zle_Qle.
  unfold FADE_STEPS in Hk. lia.
Qed.

(** The target of a fade from a volume that is a number: at least the
    floor. *)
Lemma target_shape (v : number) :
  isNaN v = false ->
  Math_max v MIN_FADE_IN_VOLUME = PosInf
  \/ exists q : Q, Math_max v MIN_FADE_IN_VOLUME = Fin q /\ (0.1 <= q)%Q.
Proof.
  destruct v as [| |a|]; cbn; try easy.
  - intros _. right. exists 0.1%Q. split; [reflexivity|lra].
  - intros _. right. destruct (Qle_bool a 0.1) eqn:H; qprop.
    + exists 0.1%Q. split; [reflexivity|lra].
    + exists a. split; [reflexivity|lra].
  - intros _. now left.
Qed.

(** The level after the [k]-th firing, for [k] from 1 on, when the target
    is the rational [q]. *)
Lemma ramp_Fin (q : Q) (k : nat) (v0 : number) :
  ramp (num_div (Fin q) (of_nat FADE_STEPS)) (Fin q) (S k) v0
  = if Qle_bool q (q / 30 * inject_Z (Z.of_nat (S k)))
    then Fin q
    else Fin (q / 30 * inject_Z (Z.of_nat (S k))).
Proof. reflexivity. Qed.

Lemma ramp_PosInf (k : nat) (v0 : number) :
  ramp (num_div PosInf (of_nat FADE_STEPS)) PosInf (S k) v0 = PosInf.
Proof.
  unfold ramp, of_nat. change (num_div PosInf (Fin (inject_Z (Z.of_nat FADE_STEPS))))
    with PosInf.
  pose proof (of_nat_S_pos k) as Hp. cbn [num_mul].
  destruct (Qeq_bool (inject_Z (Z.of_nat (S k))) 0) eqn:He.
  - apply Qeq_bool_iff in He. lra.
  - destruct (Qle_bool 0 (inject_Z (Z.of_nat (S k)))) eqn:Hl; qprop; [reflexivity|lra].
Qed.

Section Ramp.
Variables (t : number) (v0 : number).
Hypothesis target_ok :
  t = PosInf \/ exists q : Q, t = Fin q /\ (0.1 <= q)%Q.

Lemma target_nonneg : num_le (Fin 0) t.
Proof.
  destruct target_ok as [->|(q & -> & Hq)]; [reflexivity|].
  unfold num_le. cbn. qprop. lra.
Qed.

Lemma target_refl : num_le t t.
Proof.
  destruct target_ok as [->|(q & -> & Hq)]; [reflexivity|].
  unfold num_le. cbn. qprop. lra.
Qed.

Lemma ramp_first : num_le (Fin 0) (ramp (num_div t (of_nat FADE_STEPS)) t 1 v0).
Proof.
  destruct target_ok as [->|(q & -> & Hq)].
  - now rewrite ramp_PosInf.
  - rewrite ramp_Fin. unfold num_le, Qdiv. change (/ 30)%Q with (1 # 30)%Q.
    change (inject_Z (Z.of_nat 1)) with 1%Q.
    destruct (Qle_bool q (q * (1 # 30) * 1)); cbn; qprop; lra.
Qed.

Lemma ramp_le_target (k : nat) : num_le (ramp (num_div t (of_nat FADE_STEPS)) t (S k) v0) t.
Proof.
  destruct target_ok as [->|(q & -> & Hq)].
  - now rewrite ramp_PosInf.
  - rewrite ramp_Fin. unfold num_le.
    destruct (Qle_bool q _) eqn:H; cbn; qprop; lra.
Qed.

Lemma ramp_mono (k : nat) : num_le (ramp (num_div t (of_nat FADE_STEPS)) t (S k) v0) (ramp (num_div t (of_nat FADE_STEPS)) t (S (S k)) v0).
Proof.
  destruct target_ok as [->|(q & -> & Hq)].
  - now rewrite !ramp_PosInf.
  - rewrite !ramp_Fin. unfold num_le.
    pose proof (of_nat_S_succ (S k)) as Hs. pose proof (of_nat_S_pos k) as Hp.
    set (X := inject_Z (Z.of_nat (S k))) in *.
    set (Y := inject_Z (Z.of_nat (S (S k)))) in *.
    unfold Qdiv. change (/ 30)%Q with (1 # 30)%Q.
    destruct (Qle_bool q (q * (1 # 30) * X)) eqn:H1,
             (Qle_bool q (q * (1 # 30) * Y)) eqn:H2; cbn; qprop;
      rewrite ?Hs in *; try lra; nra.
Qed.

(** At the last firing the product has reached the target. *)
Lemma ramp_last : ramp (num_div t (of_nat FADE_STEPS)) t FADE_STEPS v0 = t.
Proof.
  unfold FADE_STEPS at 2. destruct target_ok as [->|(q & -> & Hq)].
  - now rewrite ramp_PosInf.
  - rewrite ramp_Fin. change (inject_Z (Z.of_nat 30)) with 30%Q.
    destruct (Qle_bool q (q / 30 * 30)) eqn:H; [reflexivity|].
    qprop. unfold Qdiv in H. change (/ 30)%Q with (1 # 30)%Q in H. lra.
Qed.
End Ramp.

Lemma fade_ticks_add (m n : nat) (w : World) :
  fade_ticks (m + n) w = fade_ticks m (fade_ticks n w).
Proof.
  induction m as [|m IH]; [reflexivity|].
  change (S m + n)%nat with (S (m + n)). now rewrite !fade_ticks_S, IH.
Qed.

(** C4: with the fade enabled, a granted [play] from a volume that is a
    number starts an interval of period [fadeInDuration / 30] and step
    [target / 30], where [target = max(volume, MIN_FADE_IN_VOLUME)], and
    shows the level 0.  The [k]-th firing puts [min(k * step, target)] on the
    element and, before the last one, in [displayVolume]; the interval is
    live for exactly 30 firings; the levels shown never decrease and never
    exceed the target; the 30th firing shows the target itself, clears
    [isFadingIn] and the interval. *)
Theorem fade_ramp (track : Song.t) (w : World) (a : Audio.t) :
  audioRef w = Some a ->
  fadeInEnabled (config w) = true ->
  isNaN (volume (state w)) = false ->
  let target := Math_max (volume (state w)) MIN_FADE_IN_VOLUME in
  let increment := num_div target (of_nat FADE_STEPS) in
  let faded := fun k : nat => fade_ticks k (play track true w) in
  let shown := fun k : nat => displayVolume (state (faded k)) in
  fadeIntervalRef (faded 0)
    = Some (mkFade (num_div (fadeInDuration (config w)) (of_nat FADE_STEPS))
                   increment target 0)
  /\ shown 0 = Fin 0
  /\ isFadingIn (state (faded 0)) = true
  /\ (forall k, (1 <= k < FADE_STEPS)%nat ->
        shown k = Math_min (num_mul increment (of_nat k)) target
        /\ isFadingIn (state (faded k)) = true
        /\ (currentStep <$> fadeIntervalRef (faded k)) = Some k)
  /\ (forall k, (1 <= k <= FADE_STEPS)%nat ->
        output_volume (Session (faded k))
        = Some (Math_min (num_mul increment (of_nat k)) target))
  /\ (forall k, (k < FADE_STEPS)%nat -> num_le (shown k) (shown (S k)))
  /\ (forall k, (k <= FADE_STEPS)%nat -> num_le (shown k) target)
  /\ shown FADE_STEPS = target
  /\ isFadingIn (state (faded FADE_STEPS)) = false
  /\ (forall k, (FADE_STEPS <= k)%nat -> fadeIntervalRef (faded k) = None).
Proof.
  intros Ha Hfade Hnum target increment faded shown.
  pose proof (play_granted track w a Ha) as P. cbv zeta in P. rewrite Hfade in P.
  destruct P as (_ & _ & _ & _ & _ & (a' & Ha' & _) & _ & _ & Hi & Hd & Hf).
  fold target in Hi. fold increment in Hi.
  pose proof (target_shape _ Hnum) as Hshape. fold target in Hshape.
  assert (Hrun : forall k, (k < FADE_STEPS)%nat ->
            fadeIntervalRef (faded k)
              = Some (mkFade (num_div (fadeInDuration (config w)) (of_nat FADE_STEPS))
                             increment target k)
            /\ audioRef (faded k)
               = Some (match k with
                       | O => a'
                       | S _ => set_volume (ramp increment target k (Fin 0)) a'
                       end)
            /\ shown k = ramp increment target k (Fin 0)
            /\ isFadingIn (state (faded k)) = true).
  { intros k Hk.
    pose proof (fade_ticks_running k _ _ _ _ _ Hi Ha' Hk) as R. cbv zeta in R.
    destruct R as (R1 & R2 & R3 & R4 & _).
    subst shown faded. cbv beta. rewrite R1, R2, R3, R4, Hd, Hf.
    repeat split; reflexivity. }
  pose proof (fade_ticks_done _ _ _ _ _ Hi Ha') as D. cbv zeta in D.
  destruct D as (D1 & D2 & D3 & D4 & _).
  assert (Hshown : forall k, (k <= FADE_STEPS)%nat ->
            shown k = match k with
                      | O => Fin 0
                      | S _ => if (k <? FADE_STEPS)%nat
                               then ramp increment target k (Fin 0) else target
                      end).
  { intros k Hk. destruct (Nat.ltb_spec k FADE_STEPS) as [Hlt|Hge].
    - destruct (Hrun k Hlt) as (_ & _ & -> & _). now destruct k.
    - assert (k = FADE_STEPS) by lia. subst k. exact D3. }
  repeat match goal with |- _ /\ _ => split end.
  - now destruct (Hrun 0%nat) as (? & _); [unfold FADE_STEPS; lia|].
  - exact Hd.
  - exact Hf.
  - intros k [Hk1 Hk2]. destruct (Hrun k Hk2) as (H1 & _ & H3 & H4).
    rewrite H1, H3, H4. destruct k; [lia|]. repeat split; reflexivity.
  - intros k [Hk1 Hk2]. cbn [output_volume].
    destruct (Nat.eq_dec k FADE_STEPS) as [->|Hne].
    + fold (faded FADE_STEPS) in D2. now rewrite D2.
    + destruct (Hrun k) as (_ & H2 & _); [lia|]. rewrite H2.
      destruct k; [lia|]. reflexivity.
  - intros k Hk. rewrite (Hshown k), (Hshown (S k)) by lia.
    destruct k as [|k].
    + destruct (1 <? FADE_STEPS)%nat; [apply (ramp_first _ _ Hshape)
                                      | apply (target_nonneg _ Hshape)].
    + destruct (Nat.ltb_spec (S k) FADE_STEPS) as [_|?]; [|lia].
      destruct (S (S k) <? FADE_STEPS)%nat;
        [apply (ramp_mono _ _ Hshape) | apply (ramp_le_target _ _ Hshape)].
  - intros k Hk. rewrite (Hshown k) by lia. destruct k as [|k].
    + apply (target_nonneg _ Hshape).
    + destruct (S k <? FADE_STEPS)%nat;
        [apply (ramp_le_target _ _ Hshape) | apply (target_refl _ Hshape)].
  - exact D3.
  - exact D4.
  - intros k Hk. replace k with ((k - FADE_STEPS) + FADE_STEPS)%nat by lia.
    subst faded. cbv beta. rewrite fade_ticks_add.
    rewrite (fade_ticks_idle _ _ D1). exact D1.
Qed.

Lemma fade_ramp_witness :
  audioRef default_provider = Some new_Audio
  /\ fadeInEnabled (config default_provider) = true
  /\ isNaN (volume (state default_provider)) = false
  /\ displayVolume (state (fade_ticks FADE_STEPS (play testSong true default_provider)))
     = Fin 1
  /\ isFadingIn (state (fade_ticks FADE_STEPS (play testSong true default_provider)))
     = false.
Proof.
  assert (Ha : audioRef default_provider = Some new_Audio)
    by (vm_compute; reflexivity).
  assert (Hf : fadeInEnabled (config default_provider) = true)
    by (vm_compute; reflexivity).
  assert (Hn : isNaN (volume (state default_provider)) = false)
    by (vm_compute; reflexivity).
  pose proof (fade_ramp testSong default_provider new_Audio Ha Hf Hn) as H.
  cbv zeta in H. destruct H as (_ & _ & _ & _ & _ & _ & _ & H8 & H9 & _).
  split; [exact Ha|]. split; [exact Hf|]. split; [exact Hn|].
  split; [rewrite H8; vm_compute; reflexivity | exact H9].
Defined.

(** ** Pausing and resuming *)

Lemma togglePlay_pauses (granted : bool) (w : World) (a : Audio.t) (cur : Song.t) :
  audioRef w = Some a ->
  currentSong (state w) = Some cur ->
  isPlaying (state w) = true ->
  togglePlay granted w = pause w.
Proof. intros Ha Hc Hp. unfold togglePlay. now rewrite Ha, Hc, Hp. Qed.

(** The resume branch of [togglePlay], with the fade enabled. *)
Lemma togglePlay_resumes (granted : bool) (w : World) (a : Audio.t) (cur : Song.t) :
  audioRef w = Some a ->
  currentSong (state w) = Some cur ->
  isPlaying (state w) = false ->
  fadeInEnabled (config w) = true ->
  let target := Math_max (volume (state w)) MIN_FADE_IN_VOLUME in
  let w' := togglePlay granted w in
  volume (state w') = volume (state w)
  /\ config w' = config w
  /\ (exists a', audioRef w' = Some a')
  /\ (if granted
      then fadeIntervalRef w'
           = Some (mkFade (num_div (fadeInDuration (config w)) (of_nat FADE_STEPS))
                          (num_div target (of_nat FADE_STEPS)) target 0)
           /\ displayVolume (state w') = Fin 0
           /\ isFadingIn (state w') = true
           /\ (source_in_sync w -> isPlaying (state w') = true)
      else fadeIntervalRef w' = fadeIntervalRef w /\ state w' = state w).
Proof.
  intros Ha Hc Hp Hfade target w'. subst w' target. unfold togglePlay.
  rewrite Ha, Hc, Hp, Hfade.
  destruct w as [[fe fd pv sk dv] st aud fi ls ef tk]. cbn [audioRef] in Ha. subst aud.
  simpl in *. subst fe. destruct granted.
  - match goal with |- context [await_play true ?w0] =>
      destruct (await_play_granted w0 _ eq_refl) as (w1 & Haw & Hlev & Haud & Htk & Hplay);
      rewrite Haw in *;
      apply levels_inv in Hlev; destruct Hlev as (Hv & Hd & Hf & Hcs & Hfi & Hcfg & Hls)
    end; simpl in *.
    rewrite Hcfg. cbn [fadeInEnabled].
    erewrite fadeInVolume_fields by (cbn; exact Haud).
    cbn [emit setState with_fadeIntervalRef state config localStorage tasks
         effects audioRef fadeIntervalRef volume displayVolume isFadingIn
         currentSong isPlaying with_displayVolume with_isFadingIn].
    rewrite ?Hcfg, ?Hv, ?Haud.
    repeat match goal with |- _ /\ _ => split end; try reflexivity.
    + now eexists.
    + intros Hs; apply Hplay; intros a0 [= <-]; cbn; exact (Hs a eq_refl).
  - erewrite await_play_denied by reflexivity. cbn.
    repeat split; try reflexivity. now eexists.
Qed.

(** The world once a playing provider has paused and the element's [pause]
    event has reached its listener. *)
Lemma pause_delivered (w : World) (a : Audio.t) :
  audioRef w = Some a ->
  Audio.paused a = false ->
  tasks w = [] ->
  let w' := run_tasks (pause w) in
  state w' = with_isPlaying false (state w)
  /\ audioRef w' = Some (set_paused true a)
  /\ fadeIntervalRef w' = None
  /\ config w' = config w
  /\ tasks w' = [].
Proof.
  intros Ha Hp Ht w'. subst w'.
  destruct w as [cfg st aud fi ls ef tk], a as [src v ct d p].
  cbn in Ha, Hp, Ht. subst aud p tk. destruct fi; repeat split; reflexivity.
Qed.

(** The world once the fade of a granted [play] has settled. *)
Lemma settled_after_play (track : Song.t) (w : World) (a : Audio.t) :
  audioRef w = Some a ->
  fadeInEnabled (config w) = true ->
  source_in_sync w ->
  exists (settled : World) (c : Song.t) (a0 : Audio.t),
    settled = fade_ticks FADE_STEPS (play track true w)
    /\ fadeIntervalRef settled = None
    /\ audioRef settled = Some a0
    /\ Audio.paused a0 = false
    /\ displayVolume (state settled) = Math_max (volume (state w)) MIN_FADE_IN_VOLUME
    /\ isFadingIn (state settled) = false
    /\ volume (state settled) = volume (state w)
    /\ isPlaying (state settled) = true
    /\ currentSong (state settled) = Some c
    /\ config settled = config w
    /\ tasks settled = [].
Proof.
  intros Ha Hfade Hsync.
  pose proof (play_granted track w a Ha) as P. cbv zeta in P. rewrite Hfade in P.
  destruct P as (Pv & Pc & _ & Pt & (c & Pcs & _) & (a0 & Pa & Pp & _) & Pplay & _
                 & Pi & _ & _).
  specialize (Pplay Hsync).
  pose proof (fade_ticks_done _ _ _ _ _ Pi Pa) as D. cbv zeta in D.
  remember (fade_ticks FADE_STEPS (play track true w)) as settled eqn:Es.
  destruct D as (Di & Da & Dd & Df & Dv & Dp & Dcs & Dc & _ & _ & Dt).
  rewrite Pplay in Dp. rewrite Pcs in Dcs. rewrite Pt in Dt. rewrite Pv in Dv.
  rewrite Pc in Dc.
  exists settled, c. eexists.
  split; [reflexivity|]. split; [exact Di|]. split; [exact Da|]. split; [exact Pp|].
  split; [exact Dd|]. split; [exact Df|]. split; [exact Dv|]. split; [exact Dp|].
  split; [exact Dcs|]. split; [exact Dc|]. exact Dt.
Qed.

(** Pausing and resuming a provider whose fade has settled. *)
Lemma pause_resume_settled
    (g1 g2 : bool) (settled : World) (c : Song.t) (a0 : Audio.t) :
  fadeInEnabled (config settled) = true ->
  fadeIntervalRef settled = None ->
  audioRef settled = Some a0 ->
  Audio.paused a0 = false ->
  displayVolume (state settled) = Math_max (volume (state settled)) MIN_FADE_IN_VOLUME ->
  isFadingIn (state settled) = false ->
  isPlaying (state settled) = true ->
  currentSong (state settled) = Some c ->
  tasks settled = [] ->
  let paused := run_tasks (togglePlay g1 settled) in
  let resumed := togglePlay g2 paused in
  let resettled := fade_ticks FADE_STEPS resumed in
  isPlaying (state paused) = false
  /\ displayVolume (state paused) = displayVolume (state settled)
  /\ (g2 = true ->
      isPlaying (state resumed) = true
      /\ displayVolume (state resumed) = Fin 0
      /\ isFadingIn (state resumed) = true)
  /\ displayVolume (state resettled) = displayVolume (state settled)
  /\ isFadingIn (state resettled) = isFadingIn (state settled).
Proof.
  intros Hfade Di Da Pp Dd Df Dp Dcs Dt. cbv zeta.
  rewrite (togglePlay_pauses g1 settled _ c Da Dcs Dp).
  pose proof (pause_delivered settled _ Da Pp Dt) as Q. cbv zeta in Q.
  remember (run_tasks (pause settled)) as paused eqn:Ep.
  destruct Q as (Qs & Qa & Qi & Qc & Qt). clear Ep.
  assert (Qsync : source_in_sync paused).
  { intros a1 Ha1. rewrite Qt, Qs. rewrite Qa in Ha1. now injection Ha1 as <-. }
  assert (Qcs : currentSong (state paused) = Some c) by (rewrite Qs; exact Dcs).
  assert (Qp : isPlaying (state paused) = false) by (rewrite Qs; reflexivity).
  assert (Qf : fadeInEnabled (config paused) = true) by (rewrite Qc; exact Hfade).
  assert (Qv : volume (state paused) = volume (state settled)) by (rewrite Qs; reflexivity).
  pose proof (togglePlay_resumes g2 paused _ c Qa Qcs Qp Qf) as R. cbv zeta in R.
  rewrite Qv in R.
  remember (togglePlay g2 paused) as resumed eqn:Er.
  destruct R as (Rv & Rc & (a2 & Ra) & R). clear Er.
  split; [exact Qp|]. split; [rewrite Qs; reflexivity|].
  destruct g2.
  - destruct R as (Ri & Rd & Rf & Rp).
    pose proof (fade_ticks_done _ _ _ _ _ Ri Ra) as E. cbv zeta in E.
    destruct E as (_ & _ & Ed & Ef & _).
    rewrite Ed, Ef, Dd, Df. repeat split; auto.
  - destruct R as (Ri & Rs). split; [discriminate|].
    rewrite fade_ticks_idle by (rewrite Ri; exact Qi).
    rewrite Rs, Qs. split; reflexivity.
Qed.

(** C7: with the fade enabled, once the fade of a granted [play] has
    settled, a [togglePlay] that pauses, followed (after the element's
    [pause] event) by a [togglePlay] that resumes and by the firings of the
    new fade, leaves [displayVolume] at the value it had before the pause,
    [max(volume, MIN_FADE_IN_VOLUME)]; with a volume of 0.8 that is 0.8.  A
    granted resume restarts the ramp from 0; a denied one leaves the level
    where it was. *)
Theorem pause_resume_volume
    (track : Song.t) (g1 g2 : bool) (w : World) (a : Audio.t) :
  audioRef w = Some a ->
  fadeInEnabled (config w) = true ->
  source_in_sync w ->
  let settled := fade_ticks FADE_STEPS (play track true w) in
  let paused := run_tasks (togglePlay g1 settled) in
  let resumed := togglePlay g2 paused in
  let resettled := fade_ticks FADE_STEPS resumed in
  isPlaying (state settled) = true
  /\ displayVolume (state settled) = Math_max (volume (state w)) MIN_FADE_IN_VOLUME
  /\ isPlaying (state paused) = false
  /\ displayVolume (state paused) = displayVolume (state settled)
  /\ (g2 = true ->
      isPlaying (state resumed) = true
      /\ displayVolume (state resumed) = Fin 0
      /\ isFadingIn (state resumed) = true)
  /\ displayVolume (state resettled) = displayVolume (state settled)
  /\ isFadingIn (state resettled) = isFadingIn (state settled)
  /\ (volume (state w) = Fin 0.8 -> displayVolume (state resettled) = Fin 0.8).
Proof.
  intros Ha Hfade Hsync. cbv zeta.
  destruct (settled_after_play track w a Ha Hfade Hsync)
    as (settled & c & a0 & Es & Di & Da & Pp & Dd & Df & Dv & Dp & Dcs & Dc & Dt).
  rewrite <- Es. clear Es.
  assert (Hf : fadeInEnabled (config settled) = true) by (rewrite Dc; exact Hfade).
  assert (Dd' : displayVolume (state settled)
                = Math_max (volume (state settled)) MIN_FADE_IN_VOLUME)
    by (rewrite Dv; exact Dd).
  pose proof (pause_resume_settled g1 g2 settled c a0 Hf Di Da Pp Dd' Df Dp Dcs Dt) as H.
  cbv zeta in H. destruct H as (H3 & H4 & H5 & H6 & H7).
  split; [exact Dp|]. split; [exact Dd|]. split; [exact H3|]. split; [exact H4|].
  split; [exact H5|]. split; [exact H6|]. split; [exact H7|].
  intros Hv. rewrite H6, Dd, Hv. reflexivity.
Qed.

Lemma pause_resume_volume_witness :
  audioRef volume_08 = Some (set_volume (Fin 0.8) new_Audio)
  /\ fadeInEnabled (config volume_08) = true
  /\ source_in_sync volume_08
  /\ displayVolume
       (state (fade_ticks FADE_STEPS
                 (togglePlay true
                    (run_tasks
                       (togglePlay true
                          (fade_ticks FADE_STEPS (play testSong true volume_08)))))))
     = Fin 0.8.
Proof.
  assert (Ha : audioRef volume_08 = Some (set_volume (Fin 0.8) new_Audio))
    by (vm_compute; reflexivity).
  assert (Hf : fadeInEnabled (config volume_08) = true)
    by (vm_compute; reflexivity).
  assert (Hs : source_in_sync volume_08).
  { intros a0 H0. rewrite Ha in H0. injection H0 as <-. vm_compute. reflexivity. }
  pose proof (pause_resume_volume testSong true true volume_08 _ Ha Hf Hs) as H.
  cbv zeta in H. destruct H as (_ & _ & _ & _ & _ & _ & _ & H8).
  split; [exact Ha|]. split; [exact Hf|]. split; [exact Hs|].
  apply H8. vm_compute. reflexivity.
Defined.

(** ** The levels of every reachable state *)















(** The two halves of a start request, and the whole. *)
Lemma request_start_levels (granted : bool) (w : World) (a : Audio.t) :
  audioRef w = Some a ->
  levels (fst (request_start granted w)) = levels w
  /\ exists a', audioRef (fst (request_start granted w)) = Some a'.
Proof.
  intros Ha. unfold request_start. rewrite Ha.
  destruct (el_play granted a) as [[a' evs] ok]. split; [reflexivity | now eexists].
Qed.

Lemma await_play_request (granted : bool) (w : World) :
  await_play granted w
  = (if snd (request_start granted w)
     then Fulfilled (run_tasks (fst (request_start granted w)))
     else Rejected (fst (request_start granted w))).
Proof.
  unfold await_play, request_start. destruct (audioRef w) as [a|]; [|reflexivity].
  destruct (el_play granted a) as [[a' evs] ok]. reflexivity.
Qed.

(** [play] is its request settled at once, from the state of the world. *)
Lemma play_is_request_settled (song : Song.t) (granted : bool) (w : World) :
  play song granted w
  = match snd (play_request (state w) song granted w) with
    | Some p => settle p (fst (play_request (state w) song granted w))
    | None => fst (play_request (state w) song granted w)
    end.
Proof.
  unfold play, play_async, play_request, settle.
  destruct (audioRef w) as [a|]; [|reflexivity]. cbv zeta.
  match goal with |- context [await_play granted ?w0] =>
    rewrite (await_play_request granted w0);
    destruct (request_start granted w0) as [w1 ok]
  end.
  destruct ok; reflexivity.
Qed.

Lemma togglePlay_is_request_settled (granted : bool) (w : World) :
  togglePlay granted w
  = match snd (togglePlay_request (state w) granted w) with
    | Some p => settle p (fst (togglePlay_request (state w) granted w))
    | None => fst (togglePlay_request (state w) granted w)
    end.
Proof.
  unfold togglePlay, togglePlay_request, settle.
  destruct (audioRef w) as [a|]; [|reflexivity].
  destruct (currentSong (state w)) as [cur|]; [|reflexivity].
  destruct (isPlaying (state w)); [reflexivity|]. cbv zeta.
  match goal with |- context [await_play granted ?w0] =>
    rewrite (await_play_request granted w0);
    destruct (request_start granted w0) as [w1 ok]
  end.
  destruct ok; reflexivity.
Qed.




Section Reachable.
Context {fmt : NumberFormat}.

(** [setVolume] that raises: on [NaN], or when the store refuses. *)
Lemma setVolume_raises (accepts : bool) (v : number) (w : World) (a : Audio.t) :
  audioRef w = Some a ->
  isNaN v = true \/ (accepts = false /\ persistVolume (config w) = true) ->
  let w' := outcome_world (setVolume_on accepts v w) in
  (exists e, setVolume_on accepts v w = Thrown e w')
  /\ state w' = (match fadeIntervalRef w with
                 | Some _ => with_isFadingIn false (state w)
                 | None => state w
                 end)
  /\ fadeIntervalRef w' = None
  /\ localStorage w' = localStorage w
  /\ config w' = config w
  /\ effects w' = effects w
  /\ tasks w' = tasks w
  /\ audioRef w'
     = Some (if isNaN v then a
             else set_volume (Math_max (Fin 0) (Math_min (Fin 1) v)) a).
Proof.
  intros Ha Hr w'. subst w'. unfold setVolume_on. rewrite Ha. cbv zeta.
  destruct (isNaN v) eqn:Hv.
  - destruct v; try discriminate. cbn.
    destruct w as [cfg st aud [iv|] ls ef tk]; cbn in *; subst aud;
      repeat split; now eexists.
  - destruct Hr as [Hr|(-> & Hp)]; [discriminate|].
    rewrite (volume_setter_clamp v a Hv).
    destruct w as [[fe fd pv sk dv] st aud [iv|] ls ef tk]; cbn in *; subst aud pv;
      repeat split; now eexists.
Qed.

(** When nothing refuses, the call is [setVolume]. *)
Lemma setVolume_on_taken (accepts : bool) (v : number) (w : World) :
  accepts = true \/ persistVolume (config w) = false ->
  outcome_world (setVolume_on accepts v w) = setVolume v w.
Proof.
  intros H. unfold setVolume, setVolume_call, setVolume_on.
  destruct (audioRef w) as [a|]; [|reflexivity]. cbv zeta.
  destruct (volume_setter _ a); [reflexivity|].
  destruct H as [->|H]; [reflexivity|].
  match goal with |- context [persistVolume ?c] =>
    replace (persistVolume c) with false
      by (destruct w as [? ? ? [?|] ? ? ?]; cbn in *; congruence)
  end. reflexivity.
Qed.






End Reachable.


(** Where the run is disturbed the level need not be settled.  With the
    volume set to 0.3 between the start request and its settlement, the
    fade goes to the target of the closure: when it has completed
    [isFadingIn] is false, [volume] is 0.3 and [displayVolume] is 1.  The
    settlement of that run is not allowed. *)
Lemma stale_target_fade :
  isFadingIn (state (world (moves stale_target_run (started DEFAULT_CONFIG ∅)))) = false
  /\ volume (state (world (moves stale_target_run (started DEFAULT_CONFIG ∅)))) = Fin 0.3
  /\ displayVolume (state (world (moves stale_target_run (started DEFAULT_CONFIG ∅))))
     = Fin 1
  /\ ~ undisturbed stale_target_run (started DEFAULT_CONFIG ∅).
Proof.
  split; [vm_compute; reflexivity|]. split; [vm_compute; reflexivity|].
  split; [vm_compute; reflexivity|].
  intros (_ & _ & H & _). vm_compute in H.
  specialize (H _ eq_refl eq_refl eq_refl). discriminate H.
Qed.


(** ** The provider stays in sync with its element *)

Lemma synced_in_sync (w : World) : synced w -> source_in_sync w.
Proof. intros (a & Ha & Hs & _) a0 Ha0. congruence. Qed.

Lemma synced_same (w w' : World) :
  synced w -> sync_view w' = sync_view w -> synced w'.
Proof.
  intros (a & Ha & Hs & Hn). unfold sync_view. rewrite Ha. intros [= Hp Ht Hq].
  destruct (audioRef w') as [a'|] eqn:Ha'; [|discriminate]. cbn in Hq.
  injection Hq as Hq.
  exists a'. rewrite Hp, Ht, Hq. split; [exact Ha'|]. split; assumption.
Qed.

Lemma playing_after_quiet (evs : list MediaEvent) (b : bool) :
  Ev_play ∉ evs -> playing_after evs b = false \/ playing_after evs b = b.
Proof.
  revert b. induction evs as [|e evs IH]; intros b Hn; [now right|].
  apply not_elem_of_cons in Hn as [Hne Hn]. cbn [playing_after fold_left].
  fold (playing_after evs).
  destruct e; try easy; try (apply IH; exact Hn);
    (destruct (IH false Hn) as [H|H]; left; exact H).
Qed.

Lemma playing_after_false (evs : list MediaEvent) :
  Ev_play ∉ evs -> playing_after evs false = false.
Proof. intros Hn. now destruct (playing_after_quiet evs false Hn). Qed.

Lemma playing_after_app (evs evs' : list MediaEvent) (b : bool) :
  playing_after (evs ++ evs') b = playing_after evs' (playing_after evs b).
Proof. unfold playing_after. now rewrite fold_left_app. Qed.

(** A start request, granted or not, leaves the provider in sync. *)
Lemma await_play_synced (granted : bool) (w : World) :
  synced w -> synced (settled_value (await_play granted w)).
Proof.
  intros Hw. pose proof Hw as (a & Ha & Hs & Hn). destruct granted.
  - destruct (await_play_granted w a Ha) as (w1 & -> & _ & Haud & Htk & Hplay).
    cbn [settled_value]. exists (set_paused false a).
    rewrite Htk, (Hplay (synced_in_sync w Hw)).
    repeat split; [exact Haud | apply not_elem_of_nil].
  - rewrite (await_play_denied w a Ha). exact Hw.
Qed.

Lemma fadeInVolume_sync_view (target : number) (w : World) :
  sync_view (fadeInVolume target w) = sync_view w.
Proof.
  unfold fadeInVolume. destruct (audioRef w) eqn:Ha; [|reflexivity].
  rewrite clearFade_spec. unfold sync_view. cbn. now rewrite Ha.
Qed.

Lemma emit_sync_view (e : Effect) (w : World) : sync_view (emit e w) = sync_view w.
Proof. reflexivity. Qed.

Lemma play_synced (track : Song.t) (granted : bool) (w : World) :
  synced w -> synced (play track granted w).
Proof.
  intros Hw. pose proof Hw as (a & Ha & _). unfold play, play_async.
  rewrite Ha, clearFade_spec.
  destruct w as [[fe fd pv sk dv] st aud fi ls ef tk]. cbn [audioRef] in Ha. subst aud.
  simpl.
  destruct (other_song (currentSong st) track), fe; simpl;
    match goal with |- context [await_play granted ?w0] =>
      assert (H0 : synced w0) by (apply (synced_same _ _ Hw); reflexivity);
      pose proof (await_play_synced granted w0 H0) as H1;
      pose proof (await_play_granted w0 _ eq_refl)
        as (w1 & Haw & Hlev & _);
      destruct granted;
      [ rewrite Haw in *; apply levels_inv in Hlev;
        destruct Hlev as (_ & _ & _ & _ & _ & Hcfg & _); simpl in *;
        rewrite Hcfg; cbn [fadeInEnabled]
      | erewrite await_play_denied in * by reflexivity; simpl in * ]
    end;
    try exact H1;
    (apply (synced_same _ _ H1);
     rewrite ?emit_sync_view, ?fadeInVolume_sync_view, ?emit_sync_view; reflexivity).
Qed.

Lemma pause_synced (w : World) : synced w -> synced (pause w).
Proof.
  intros (a & Ha & Hs & Hn).
  destruct (pause_fields w a Ha) as (Hst & _ & Haud & Htk & _).
  exists (fst (el_pause a)). rewrite Hst, Htk. split; [exact Haud|].
  unfold el_pause. destruct (Audio.paused a) eqn:Hp; cbn.
  - rewrite app_nil_r, Hp. split; [exact Hs | exact Hn].
  - split.
    + rewrite playing_after_app. reflexivity.
    + rewrite not_elem_of_app. split; [exact Hn|].
      rewrite not_elem_of_cons. split; [discriminate | apply not_elem_of_nil].
Qed.

Lemma togglePlay_synced (granted : bool) (w : World) :
  synced w -> synced (togglePlay granted w).
Proof.
  intros Hw. pose proof Hw as (a & Ha & _).
  destruct (currentSong (state w)) as [cur|] eqn:Hc.
  2:{ unfold togglePlay. now rewrite Ha, Hc. }
  destruct (isPlaying (state w)) eqn:Hp.
  { rewrite (togglePlay_pauses granted w a cur Ha Hc Hp). now apply pause_synced. }
  unfold togglePlay. rewrite Ha, Hc, Hp.
  destruct w as [[fe fd pv sk dv] st aud fi ls ef tk]. cbn [audioRef] in Ha. subst aud.
  simpl in *.
  destruct fe; simpl;
    match goal with |- context [await_play granted ?w0] =>
      assert (H0 : synced w0) by (apply (synced_same _ _ Hw); reflexivity);
      pose proof (await_play_synced granted w0 H0) as H1;
      pose proof (await_play_granted w0 _ eq_refl)
        as (w1 & Haw & Hlev & _);
      destruct granted;
      [ rewrite Haw in *; apply levels_inv in Hlev;
        destruct Hlev as (_ & _ & _ & _ & _ & Hcfg & _); simpl in *;
        rewrite Hcfg; cbn [fadeInEnabled]
      | erewrite await_play_denied in * by reflexivity; simpl in * ]
    end;
    try exact H1;
    (apply (synced_same _ _ H1);
     rewrite ?emit_sync_view, ?fadeInVolume_sync_view, ?emit_sync_view; reflexivity).
Qed.

Lemma stop_synced (w : World) : synced w -> synced (stop w).
Proof.
  intros (a & Ha & Hs & Hn). unfold stop. rewrite Ha, clearFade_spec.
  unfold audio_pause. cbn [audioRef with_fadeIntervalRef]. rewrite Ha.
  unfold el_pause. destruct (Audio.paused a) eqn:Hp; eexists;
    (split; [reflexivity|]); cbn; rewrite ?app_nil_r, ?Hp.
  - split; [now apply playing_after_false | exact Hn].
  - split.
    + rewrite playing_after_app. reflexivity.
    + rewrite not_elem_of_app. split; [exact Hn|].
      rewrite not_elem_of_cons. split; [discriminate | apply not_elem_of_nil].
Qed.

Lemma deliver_synced (w : World) : synced w -> synced (deliver w).
Proof.
  intros (a & Ha & Hs & Hn). unfold deliver.
  destruct (tasks w) as [|e q] eqn:Ht; [exists a; now rewrite Ht|].
  apply not_elem_of_cons in Hn as [Hne Hn].
  exists a. unfold handle. cbn [with_tasks audioRef]. rewrite Ha.
  destruct e; try (now destruct Hne); cbn; repeat split; assumption.
Qed.

Lemma source_synced (w : World) :
  synced w ->
  (forall t, synced (source_progress t w))
  /\ (forall d, synced (source_metadata d w))
  /\ synced (source_ended w).
Proof.
  intros (a & Ha & Hs & Hn).
  unfold source_progress, source_metadata, source_ended. rewrite Ha.
  split; [|split]; intros.
  - eexists. split; [reflexivity|]. cbn. rewrite playing_after_app. cbn.
    split; [exact Hs|]. rewrite not_elem_of_app, not_elem_of_cons.
    repeat split; [exact Hn | discriminate | apply not_elem_of_nil].
  - eexists. split; [reflexivity|]. cbn. rewrite playing_after_app. cbn.
    split; [exact Hs|]. rewrite not_elem_of_app, not_elem_of_cons.
    repeat split; [exact Hn | discriminate | apply not_elem_of_nil].
  - unfold el_pause. destruct (Audio.paused a) eqn:Hp; eexists;
      (split; [reflexivity|]); cbn; rewrite !playing_after_app; cbn; rewrite ?Hp.
    + split; [reflexivity|]. rewrite not_elem_of_app, not_elem_of_cons.
      repeat split; [exact Hn | discriminate | apply not_elem_of_nil].
    + split; [reflexivity|]. rewrite not_elem_of_app, !not_elem_of_cons.
      repeat split; [exact Hn | discriminate | discriminate | apply not_elem_of_nil].
Qed.

Section InSync.
Context {fmt : NumberFormat}.

Lemma provider_synced (cfg : AudioPlayerConfig) (storage : gmap string string) :
  synced (provider cfg storage).
Proof.
  assert (H : sync_view (provider cfg storage) = (false, [], Some true)).
  { unfold provider, mount, initial. destruct cfg as [fe fd pv sk dv].
    cbn [config persistVolume storageKey with_audioRef localStorage].
    destruct pv; [|reflexivity].
    destruct (storage !! sk) as [saved|]; [|reflexivity].
    destruct (negb (String.eqb saved "")); [|reflexivity].
    destruct (negb (isNaN (parseFloat saved)) && num_geb (parseFloat saved) (Fin 0)
              && num_leb (parseFloat saved) (Fin 1)); reflexivity. }
  unfold sync_view in H. injection H as Hp Ht Ha.
  destruct (audioRef (provider cfg storage)) as [a|] eqn:E; [|discriminate].
  cbn in Ha. injection Ha as Ha. exists a. rewrite Hp, Ht, Ha.
  split; [exact E|]. split; [reflexivity | apply not_elem_of_nil].
Qed.

Lemma step_synced (act : Action) (w : World) : synced w -> synced (step act w).
Proof.
  intros Hw. destruct act; cbn [step].
  - now apply play_synced.
  - now apply pause_synced.
  - now apply togglePlay_synced.
  - apply (synced_same _ _ Hw). destruct Hw as (a & Ha & _).
    destruct (seek_cases time w a Ha) as [-> | ->]; [reflexivity|].
    unfold sync_view. cbn. now rewrite Ha.
  - apply (synced_same _ _ Hw). destruct Hw as (a & Ha & _).
    destruct (isNaN v) eqn:Hv.
    + destruct v; try discriminate. unfold setVolume.
      rewrite (setVolume_refused w a Ha). cbn [outcome_world].
      destruct w as [cfg st aud [iv|] ls ef tk]; reflexivity.
    + unfold setVolume, setVolume_call, setVolume_on. rewrite Ha. cbv zeta.
      rewrite (volume_setter_clamp v a Hv).
      destruct w as [[fe fd pv sk dv] st aud [iv|] ls ef tk]; cbn [audioRef] in Ha;
        subst aud; destruct pv; reflexivity.
  - now apply stop_synced.
  - apply (synced_same _ _ Hw). destruct Hw as (a & Ha & _).
    destruct (fadeIntervalRef w) as [iv|] eqn:Hi.
    + pose proof (fade_tick_fields w iv a Hi Ha) as T. cbv zeta in T.
      destruct T as (_ & T2 & _ & _ & _ & T6 & _ & _ & _ & _ & T11).
      unfold sync_view. now rewrite T2, T6, T11, Ha.
    + unfold fade_tick. now rewrite Hi.
  - now apply deliver_synced.
  - now apply source_synced.
  - now apply source_synced.
  - now apply source_synced.
Qed.

(** Every state reached from a mounted provider is in sync with its
    element. *)
Lemma run_synced (cfg : AudioPlayerConfig) (storage : gmap string string)
    (tr : list Action) :
  source_in_sync (run tr (provider cfg storage)).
Proof.
  apply synced_in_sync. generalize (provider_synced cfg storage).
  generalize (provider cfg storage). induction tr as [|act tr IH]; intros w Hw.
  - exact Hw.
  - cbn [run fold_left]. apply IH. now apply step_synced.
Qed.
End InSync.

(** ** Players that exclude each other *)

Lemma string_eqb_false (s u : string) : s <> u -> String.eqb s u = false.
Proof. intros H. now apply String.eqb_neq. Qed.

(** A widget that is not playing starts on a click and says so. *)
Lemma handlePlayClick_starts (granted : bool) (p : Widget) (a : Audio.t) :
  localAudioRef p = Some a ->
  localIsPlaying p = false ->
  Song.id (song p) <> "" ->
  Song.audioUrl (song p) <> "" ->
  exists a' : Audio.t,
    handlePlayClick granted p
    = (setLocalIsPlaying true (with_localAudioRef (Some a') p),
       [Some (Song.id (song p))])
    /\ Audio.volume a' = Audio.volume a.
Proof.
  intros Ha Hp Hid Hurl. unfold handlePlayClick.
  rewrite (string_eqb_false _ _ Hid), (string_eqb_false _ _ Hurl), Ha, Hp. cbn [orb].
  destruct (el_play granted _) as [[a' evs] ok] eqn:E. exists a'. split; [reflexivity|].
  unfold el_play in E.
  destruct (negb (String.eqb (Audio.src a) (Song.audioUrl (song p)))), granted;
    cbn in E; try destruct (Audio.paused a); injection E as <- _ _; reflexivity.
Qed.

(** The play of another track pauses a mounted widget. *)
Lemma handleOtherPlayerPlay_other (detail : option string) (p : Widget) (a : Audio.t) :
  localAudioRef p = Some a ->
  detail <> Some (Song.id (song p)) ->
  handleOtherPlayerPlay detail p
  = setLocalIsPlaying false (with_localAudioRef (Some (fst (el_pause a))) p).
Proof.
  intros Ha Hd. unfold handleOtherPlayerPlay. rewrite Ha.
  now rewrite bool_decide_eq_true_2.
Qed.

(** Its own play does not. *)
Lemma handleOtherPlayerPlay_own (p : Widget) :
  handleOtherPlayerPlay (Some (Song.id (song p))) p = p.
Proof.
  unfold handleOtherPlayerPlay. destruct (localAudioRef p); [|reflexivity].
  rewrite bool_decide_eq_false_2; [reflexivity|]. intros H. now apply H.
Qed.

Lemma el_pause_volume (a : Audio.t) : Audio.volume (fst (el_pause a)) = Audio.volume a.
Proof. unfold el_pause. now destruct (Audio.paused a). Qed.

(** The events a granted [play] of a session dispatches. *)
Lemma start_session (track : Song.t) (w : World) (a : Audio.t) :
  audioRef w = Some a ->
  start track true (Session w)
  = (Session (play track true w), [Some (Song.id track)]).
Proof.
  intros Ha. cbn [start]. f_equal.
  pose proof (play_granted track w a Ha) as P. cbv zeta in P.
  destruct P as (_ & _ & _ & _ & _ & _ & _ & (l & -> & Hl) & _).
  rewrite drop_app_length. unfold dispatched in *. rewrite omap_app, Hl. reflexivity.
Qed.

(** C2, as the code has it: a standalone widget [A] that has started its
    track reports that it plays; once any other ready instance [B], widget or
    session, has started a track with another id, [A] reports that it does
    not play and [B] that it does; the level of [A]'s element is the one it
    had, and the store [B] sees is untouched. *)
Theorem standalone_mutual_exclusion
    (p : Widget) (a : Audio.t) (B : Instance) (trackY : Song.t) (grantedA : bool) :
  localAudioRef p = Some a ->
  localIsPlaying p = false ->
  Song.id (song p) <> "" ->
  Song.audioUrl (song p) <> "" ->
  ready B ->
  track_id B trackY <> Song.id (song p) ->
  reports_isPlaying (fst (start (song p) grantedA (Standalone p))) = true
  /\ reports_isPlaying
       (fst (two_players (Standalone p) B (song p) trackY grantedA true)) = false
  /\ reports_isPlaying
       (snd (two_players (Standalone p) B (song p) trackY grantedA true)) = true
  /\ output_volume (fst (two_players (Standalone p) B (song p) trackY grantedA true))
     = output_volume (Standalone p)
  /\ storage_of (snd (two_players (Standalone p) B (song p) trackY grantedA true))
     = storage_of B.
Proof.
  intros Ha Hp Hid Hurl HB Hne.
  destruct (handlePlayClick_starts grantedA p a Ha Hp Hid Hurl) as (a1 & Hclick & Hvol).
  unfold two_players. cbn [start]. rewrite Hclick. cbn [broadcast fold_left receive fst].
  set (p1 := setLocalIsPlaying true (with_localAudioRef (Some a1) p)).
  assert (Hown : handleOtherPlayerPlay (Some (Song.id (song p))) p1 = p1)
    by (exact (handleOtherPlayerPlay_own p1)).
  rewrite !Hown.
  split; [reflexivity|].
  destruct B as [w|q]; cbn [ready track_id] in HB, Hne.
  - destruct HB as ((b & Hb) & Hsync). cbn [broadcast fold_left receive].
    rewrite (start_session trackY w b Hb). cbn [broadcast fold_left receive fst snd].
    rewrite (handleOtherPlayerPlay_other _ p1 a1 eq_refl)
      by (intros [= E]; exact (Hne E)).
    pose proof (play_granted trackY w b Hb) as P. cbv zeta in P.
    destruct P as (_ & _ & Pls & _ & _ & _ & Pplay & _).
    cbn [reports_isPlaying output_volume storage_of localIsPlaying setLocalIsPlaying
         localAudioRef with_localAudioRef fmap option_fmap option_map].
    rewrite el_pause_volume, Hvol, Ha, Pls, (Pplay Hsync). repeat split; reflexivity.
  - destruct HB as ((b & Hb) & Hqid & Hqurl). cbn [broadcast fold_left receive].
    rewrite (handleOtherPlayerPlay_other _ q b Hb)
      by (intros [= E]; apply Hne; symmetry; exact E).
    set (q1 := setLocalIsPlaying false (with_localAudioRef (Some (fst (el_pause b))) q)).
    destruct (handlePlayClick_starts true q1 _ eq_refl eq_refl Hqid Hqurl)
      as (b2 & Hclick2 & _).
    cbn [start]. rewrite Hclick2. cbn [broadcast fold_left receive fst snd].
    set (q2 := setLocalIsPlaying true (with_localAudioRef (Some b2) q1)).
    assert (Hown2 : handleOtherPlayerPlay (Some (Song.id (song q1))) q2 = q2)
      by (exact (handleOtherPlayerPlay_own q2)).
    rewrite !Hown2.
    rewrite (handleOtherPlayerPlay_other _ p1 a1 eq_refl)
      by (intros [= E]; exact (Hne E)).
    cbn [reports_isPlaying output_volume storage_of localIsPlaying setLocalIsPlaying
         localAudioRef with_localAudioRef fmap option_fmap option_map].
    rewrite el_pause_volume, Hvol, Ha. repeat split; reflexivity.
Qed.

Lemma standalone_mutual_exclusion_witness :
  localAudioRef (standalone_player testSong) = Some new_Audio
  /\ localIsPlaying (standalone_player testSong) = false
  /\ Song.id (song (standalone_player testSong)) <> ""
  /\ Song.audioUrl (song (standalone_player testSong)) <> ""
  /\ ready (Session default_provider)
  /\ track_id (Session default_provider) otherSong
     <> Song.id (song (standalone_player testSong))
  /\ reports_isPlaying
       (fst (two_players (Standalone (standalone_player testSong))
               (Session default_provider) testSong otherSong true true)) = false
  /\ reports_isPlaying
       (snd (two_players (Standalone (standalone_player testSong))
               (Session default_provider) testSong otherSong true true)) = true.
Proof.
  assert (H3 : Song.id (song (standalone_player testSong)) <> "")
    by (vm_compute; discriminate).
  assert (H4 : Song.audioUrl (song (standalone_player testSong)) <> "")
    by (vm_compute; discriminate).
  assert (H5 : ready (Session default_provider)).
  { split.
    - exists new_Audio. vm_compute. reflexivity.
    - intros a0 H0. vm_compute in H0. injection H0 as <-. vm_compute. reflexivity. }
  assert (H6 : track_id (Session default_provider) otherSong
               <> Song.id (song (standalone_player testSong)))
    by (vm_compute; discriminate).
  pose proof (standalone_mutual_exclusion (standalone_player testSong) new_Audio
                (Session default_provider) otherSong true
                eq_refl eq_refl H3 H4 H5 H6) as (_ & HA & HB & _).
  repeat (split; [first [reflexivity | assumption]|]). exact HB.
Defined.

(** C2 as stated fails: a session does not listen for the event, so two
    sessions, or a session followed by a standalone widget, end up both
    reporting that they play. *)
Lemma sessions_do_not_exclude :
  reports_isPlaying (fst (start testSong true (Session default_provider))) = true
  /\ reports_isPlaying
       (fst (two_players (Session default_provider) (Session default_provider)
               testSong otherSong true true)) = true
  /\ reports_isPlaying
       (snd (two_players (Session default_provider) (Session default_provider)
               testSong otherSong true true)) = true
  /\ reports_isPlaying
       (fst (two_players (Session default_provider)
               (Standalone (standalone_player otherSong))
               testSong otherSong true true)) = true
  /\ reports_isPlaying
       (snd (two_players (Session default_provider)
               (Standalone (standalone_player otherSong))
               testSong otherSong true true)) = true.
Proof. vm_compute. repeat split; reflexivity. Qed.

(** ** Playing without a fade *)

(** With the fade disabled a granted [play] puts
    [max(volume, MIN_FADE_IN_VOLUME)] on the element, starts no interval and
    leaves [volume], [displayVolume] and [isFadingIn] as they were; the
    provider reports that it plays. *)
Lemma play_without_fade (track : Song.t) (w : World) (a : Audio.t) :
  audioRef w = Some a ->
  fadeInEnabled (config w) = false ->
  source_in_sync w ->
  let w' := play track true w in
  isPlaying (state w') = true
  /\ output_volume (Session w')
     = Some (Math_max (volume (state w)) MIN_FADE_IN_VOLUME)
  /\ fadeIntervalRef w' = None
  /\ volume (state w') = volume (state w)
  /\ displayVolume (state w') = displayVolume (state w)
  /\ isFadingIn (state w') = isFadingIn (state w).
Proof.
  intros Ha Hfade Hsync w'. subst w'.
  pose proof (play_granted track w a Ha) as P. cbv zeta in P. rewrite Hfade in P.
  destruct P as (Pv & _ & _ & _ & _ & (a' & Pa & _ & Pvol) & Pplay & _ & Pi & Pd & Pf).
  cbn [output_volume]. rewrite Pa, Pv, Pi, Pd, Pf, (Pplay Hsync). cbn. rewrite Pvol.
  repeat split; reflexivity.
Qed.

(** At or above the floor, and outside a fade, [displayVolume] is then the
    number [max(volume, MIN_FADE_IN_VOLUME)]. *)
Lemma play_without_fade_above_floor (track : Song.t) (w : World) (a : Audio.t) :
  audioRef w = Some a ->
  fadeInEnabled (config w) = false ->
  source_in_sync w ->
  displayVolume (state w) = volume (state w) ->
  num_le MIN_FADE_IN_VOLUME (volume (state w)) ->
  num_eq (displayVolume (state (play track true w)))
         (Math_max (volume (state w)) MIN_FADE_IN_VOLUME).
Proof.
  intros Ha Hfade Hsync Hd Hfloor.
  pose proof (play_without_fade track w a Ha Hfade Hsync) as P. cbv zeta in P.
  destruct P as (_ & _ & _ & _ & -> & _). rewrite Hd.
  unfold num_le in Hfloor. destruct (volume (state w)) as [| |q|]; cbn in *; try easy.
  destruct (Qle_bool q 0.1) eqn:E; cbn; qprop; lra.
Qed.

(** C8 below the floor: a provider with the fade disabled, muted, then
    started.  The element plays at the floor, 0.1; [displayVolume] stays at
    0, not at [max(volume, MIN_FADE_IN_VOLUME)]. *)
Theorem play_without_fade_below_floor :
  let w := play testSong true (setVolume (Fin 0) no_fade_provider) in
  isPlaying (state w) = true
  /\ isFadingIn (state w) = false
  /\ fadeIntervalRef w = None
  /\ volume (state w) = Fin 0
  /\ displayVolume (state w) = Fin 0
  /\ Math_max (volume (state w)) MIN_FADE_IN_VOLUME = Fin 0.1
  /\ output_volume (Session w) = Some (Fin 0.1).
Proof. vm_compute. repeat split; reflexivity. Qed.

(** ** The persisted volume *)

Section RoundTrip.
Context {fmt : NumberFormat}.

(** The check of the mount effect is membership in the unit interval. *)
Lemma load_check (x : number) :
  negb (isNaN x) && num_geb x (Fin 0) && num_leb x (Fin 1) = true <-> in_unit x.
Proof.
  unfold in_unit, num_le, num_geb. rewrite !andb_true_iff. split.
  - intros [[_ H0] H1]. now split.
  - intros [H0 H1]. repeat split; try assumption.
    destruct x; cbn in *; easy.
Qed.

(** A stored string that reads as a number of the unit interval becomes
    the volume of a provider that persists its volume. *)
Lemma mount_loads (cfg : AudioPlayerConfig) (storage : gmap string string)
    (raw : string) :
  persistVolume cfg = true ->
  storage !! storageKey cfg = Some raw ->
  in_unit (parseFloat raw) ->
  volume (state (provider cfg storage)) = parseFloat raw
  /\ displayVolume (state (provider cfg storage)) = parseFloat raw.
Proof.
  intros Hp Hraw Hu. unfold provider, mount, initial.
  cbn [config with_audioRef localStorage]. rewrite Hp, Hraw.
  destruct (String.eqb raw "") eqn:He.
  - apply String.eqb_eq in He. subst raw. rewrite parseFloat_empty in Hu.
    now apply in_unit_not_NaN in Hu.
  - cbn [negb]. apply load_check in Hu. rewrite Hu. split; reflexivity.
Qed.

(** Any other content of the store leaves the configured default. *)
Lemma mount_default (cfg : AudioPlayerConfig) (storage : gmap string string) :
  (forall raw, storage !! storageKey cfg = Some raw -> ~ in_unit (parseFloat raw)) ->
  volume (state (provider cfg storage)) = defaultVolume cfg.
Proof.
  intros Hbad. unfold provider, mount, initial.
  cbn [config with_audioRef localStorage].
  destruct (persistVolume cfg); [|reflexivity].
  destruct (storage !! storageKey cfg) as [raw|] eqn:Hraw; [|reflexivity].
  destruct (negb (String.eqb raw "")); [|reflexivity].
  destruct (negb (isNaN (parseFloat raw)) && num_geb (parseFloat raw) (Fin 0)
            && num_leb (parseFloat raw) (Fin 1)) eqn:Hc; [|reflexivity].
  apply load_check in Hc. now destruct (Hbad raw eq_refl).
Qed.

Lemma num_eq_in_unit (x y : number) : num_eq x y -> in_unit y -> in_unit x.
Proof.
  intros He [H0 H1]. unfold in_unit, num_le in *.
  now rewrite (num_eq_leb_r _ _ _ He), (num_eq_leb_l _ _ _ He).
Qed.

(** C9: after [setVolume(v)], for [v] in the unit interval, on a provider
    that persists its volume, a fresh provider that persists under the
    same key starts with the volume [v], provided the platform reads back
    as [v] the string it writes for [v]; and a stored string that does not
    read as a number of the unit interval, or no stored string, leaves
    the configured default. *)
Theorem volume_round_trip
    (cfg' : AudioPlayerConfig) (w : World) (a : Audio.t) (v : number) :
  audioRef w = Some a ->
  persistVolume (config w) = true ->
  persistVolume cfg' = true ->
  storageKey cfg' = storageKey (config w) ->
  in_unit v ->
  num_eq (parseFloat (Number_toString v)) v ->
  num_eq (volume (state (provider cfg' (localStorage (setVolume v w))))) v
  /\ (forall (storage : gmap string string) (raw : string),
        storage !! storageKey cfg' = Some raw ->
        ~ in_unit (parseFloat raw) ->
        volume (state (provider cfg' storage)) = defaultVolume cfg')
  /\ (forall storage : gmap string string,
        storage !! storageKey cfg' = None ->
        volume (state (provider cfg' storage)) = defaultVolume cfg').
Proof.
  intros Ha Hp Hp' Hkey Hu Hrt. split; [|split].
  - pose proof (setVolume_fields v w a Ha (in_unit_not_NaN v Hu)) as S. cbv zeta in S.
    destruct S as (_ & _ & _ & _ & _ & Sls & _).
    rewrite Hp, (clamp_code_in_unit v Hu) in Sls.
    destruct (mount_loads cfg' (localStorage (setVolume v w)) (Number_toString v))
      as (Hv & _).
    + exact Hp'.
    + rewrite Sls, Hkey. apply lookup_insert_eq.
    + exact (num_eq_in_unit _ _ Hrt Hu).
    + rewrite Hv. exact Hrt.
  - intros storage raw Hraw Hbad. apply mount_default.
    intros raw' Hraw'. rewrite Hraw in Hraw'. now injection Hraw' as <-.
  - intros storage Hnone. apply mount_default. intros raw Hraw. congruence.
Qed.
End RoundTrip.

Lemma volume_round_trip_witness :
  audioRef default_provider = Some new_Audio
  /\ persistVolume (config default_provider) = true
  /\ persistVolume DEFAULT_CONFIG = true
  /\ storageKey DEFAULT_CONFIG = storageKey (config default_provider)
  /\ in_unit (Fin 0.42)
  /\ num_eq (parseFloat (Number_toString (Fin 0.42))) (Fin 0.42)
  /\ num_eq (volume (state (provider DEFAULT_CONFIG
                              (localStorage (setVolume (Fin 0.42) default_provider)))))
            (Fin 0.42)
  /\ volume (state (provider DEFAULT_CONFIG {["audioPlayerVolume" := "abc"]})) = Fin 1.
Proof.
  assert (H1 : audioRef default_provider = Some new_Audio) by (vm_compute; reflexivity).
  assert (H2 : persistVolume (config default_provider) = true)
    by (vm_compute; reflexivity).
  assert (H3 : persistVolume DEFAULT_CONFIG = true) by reflexivity.
  assert (H4 : storageKey DEFAULT_CONFIG = storageKey (config default_provider))
    by (vm_compute; reflexivity).
  assert (H5 : in_unit (Fin 0.42)) by (split; vm_compute; reflexivity).
  assert (H6 : num_eq (parseFloat (Number_toString (Fin 0.42))) (Fin 0.42))
    by (vm_compute; reflexivity).
  destruct (volume_round_trip DEFAULT_CONFIG default_provider new_Audio (Fin 0.42)
              H1 H2 H3 H4 H5 H6) as (Hv & Hbad & _).
  repeat (split; [assumption|]).
  apply (Hbad {["audioPlayerVolume" := "abc"]} "abc").
  - vm_compute. reflexivity.
  - intros [Hlo _]. vm_compute in Hlo. discriminate Hlo.
Defined.

(** * Further properties of the code *)

(** ** The start request, seen from the caller *)

(** Whatever the element answers, the start request leaves the provider's
    configuration, interval and store alone, and of the element changes the
    [paused] attribute at most. *)
Lemma await_play_shape (granted : bool) (w : World) (a : Audio.t) :
  audioRef w = Some a ->
  exists (st' : AudioPlayerState) (a' : Audio.t) (ef' : list Effect)
         (tk' : list MediaEvent),
    await_play granted w
    = (if granted then Fulfilled else Rejected)
        (mkWorld (config w) st' (Some a') (fadeIntervalRef w) (localStorage w)
                 ef' tk')
    /\ volume st' = volume (state w)
    /\ displayVolume st' = displayVolume (state w)
    /\ isFadingIn st' = isFadingIn (state w)
    /\ currentSong st' = currentSong (state w)
    /\ Audio.src a' = Audio.src a
    /\ Audio.volume a' = Audio.volume a
    /\ Audio.currentTime a' = Audio.currentTime a
    /\ Audio.duration a' = Audio.duration a
    /\ Audio.paused a' = (if granted then false else Audio.paused a).
Proof.
  intros Ha. destruct granted.
  - destruct (await_play_granted w a Ha) as (w1 & Haw & Hlev & Haud & _).
    apply levels_inv in Hlev. destruct Hlev as (Hv & Hd & Hf & Hc & Hfi & Hcfg & Hls).
    destruct w1 as [cfg1 st1 aud1 fi1 ls1 ef1 tk1]. cbn in *. subst.
    exists st1, (set_paused false a), ef1, tk1. rewrite Haw. repeat split; assumption.
  - rewrite (await_play_denied w a Ha).
    destruct w as [cfg st aud fi ls ef tk]. cbn in *. subst.
    exists st, a, ef, tk. repeat split; reflexivity.
Qed.

(** With no event waiting, the granted request has one event delivered: the
    element's [play], when it was paused. *)
Lemma await_play_quiet (w : World) (a : Audio.t) :
  audioRef w = Some a ->
  tasks w = [] ->
  await_play true w
  = Fulfilled
      (mkWorld (config w)
               (if Audio.paused a then with_isPlaying true (state w) else state w)
               (Some (set_paused false a)) (fadeIntervalRef w) (localStorage w)
               (effects w) []).
Proof.
  intros Ha Ht. unfold await_play. rewrite Ha. unfold el_play.
  destruct w as [cfg st aud fi ls ef tk]. cbn in *. subst.
  destruct a as [s v t d p]. destruct p; reflexivity.
Qed.

(** ** Stopping *)

(** The world after [stop()]. *)
Lemma stop_fields (w : World) (a : Audio.t) :
  audioRef w = Some a ->
  stop w
  = mkWorld (config w)
      (mkState None false (Fin 0) (Fin 0) (volume (state w))
               (displayVolume (state w)) false)
      (Some (set_src "" (set_currentTime (Fin 0) (fst (el_pause a)))))
      None (localStorage w) (effects w) (tasks w ++ snd (el_pause a)).
Proof.
  intros Ha. unfold stop. rewrite Ha, clearFade_spec. unfold audio_pause.
  cbn [audioRef with_fadeIntervalRef]. rewrite Ha.
  destruct (el_pause a) as [a' evs]. destruct w. reflexivity.
Qed.

(** X1: [stop()] on a mounted provider unloads the song: no current song,
    not playing, position and duration 0, no fade flagged and no interval
    live; the element is paused, rewound and without a source.  The volume,
    the displayed volume (also in the middle of a fade), the store, the
    configuration and the log of callbacks are the ones before the call: the
    on-pause callback is not invoked. *)
Theorem stop_unloads (w : World) (a : Audio.t) :
  audioRef w = Some a ->
  currentSong (state (stop w)) = None
  /\ isPlaying (state (stop w)) = false
  /\ currentTime (state (stop w)) = Fin 0
  /\ duration (state (stop w)) = Fin 0
  /\ isFadingIn (state (stop w)) = false
  /\ fadeIntervalRef (stop w) = None
  /\ volume (state (stop w)) = volume (state w)
  /\ displayVolume (state (stop w)) = displayVolume (state w)
  /\ (exists a', audioRef (stop w) = Some a'
                 /\ Audio.paused a' = true
                 /\ Audio.src a' = ""
                 /\ Audio.currentTime a' = Fin 0
                 /\ Audio.volume a' = Audio.volume a)
  /\ effects (stop w) = effects w
  /\ localStorage (stop w) = localStorage w
  /\ config (stop w) = config w.
Proof.
  intros Ha. rewrite (stop_fields w a Ha). cbn.
  repeat match goal with |- _ /\ _ => split end; try reflexivity.
  eexists. split; [reflexivity|]. unfold el_pause.
  destruct (Audio.paused a) eqn:Hp; cbn; rewrite ?Hp; repeat split; reflexivity.
Qed.

Lemma stop_unloads_witness :
  audioRef mid_fade = Some (set_volume (Fin (3 # 30)) (set_paused false
                              (set_volume (Fin 0)
                                 (set_src (Song.audioUrl testSong) new_Audio))))
  /\ currentSong (state (stop mid_fade)) = None
  /\ displayVolume (state (stop mid_fade)) = Fin (3 # 30).
Proof.
  assert (Ha : audioRef mid_fade
               = Some (set_volume (Fin (3 # 30)) (set_paused false
                         (set_volume (Fin 0)
                            (set_src (Song.audioUrl testSong) new_Audio)))))
    by (vm_compute; reflexivity).
  assert (Hd : displayVolume (state mid_fade) = Fin (3 # 30))
    by (vm_compute; reflexivity).
  split; [exact Ha|].
  destruct (stop_unloads mid_fade _ Ha) as (Hc & _ & _ & _ & _ & _ & _ & Hdv & _).
  split; [exact Hc|]. rewrite Hdv. exact Hd.
Defined.

(** X2: a stopped provider stays as it is under a second [stop()], under
    [togglePlay()] (there is no song to resume) and under the firings of a
    fade interval; the [MiniPlayer] renders nothing for it and a
    [WaveformPlayer] of any song shows it as not playing at position 0. *)
Theorem stop_is_final (w : World) (a : Audio.t) (granted : bool) (k : nat)
    (s : Song.t) :
  audioRef w = Some a ->
  stop (stop w) = stop w
  /\ togglePlay granted (stop w) = stop w
  /\ fade_ticks k (stop w) = stop w
  /\ MiniPlayer_renders (stop w) = false
  /\ context_isPlaying s (stop w) = false
  /\ context_currentTime s (stop w) = Fin 0.
Proof.
  intros Ha. rewrite (stop_fields w a Ha).
  set (w1 := mkWorld _ _ _ _ _ _ _).
  assert (H1 : stop w1 = w1).
  { rewrite (stop_fields w1 _ eq_refl). subst w1. cbn.
    unfold el_pause. destruct a as [sr v t d p]. destruct p; cbn;
      now rewrite <- ?app_assoc, ?app_nil_r. }
  split; [exact H1|]. split; [reflexivity|].
  split; [now apply fade_ticks_idle|]. repeat split.
Qed.

Lemma stop_is_final_witness :
  audioRef mid_fade = Some (set_volume (Fin (3 # 30)) (set_paused false
                              (set_volume (Fin 0)
                                 (set_src (Song.audioUrl testSong) new_Audio))))
  /\ stop (stop mid_fade) = stop mid_fade
  /\ togglePlay true (stop mid_fade) = stop mid_fade
  /\ fade_ticks 5 (stop mid_fade) = stop mid_fade.
Proof.
  assert (Ha : audioRef mid_fade
               = Some (set_volume (Fin (3 # 30)) (set_paused false
                         (set_volume (Fin 0)
                            (set_src (Song.audioUrl testSong) new_Audio)))))
    by (vm_compute; reflexivity).
  split; [exact Ha|].
  destruct (stop_is_final mid_fade _ true 5 testSong Ha) as (H1 & H2 & H3 & _).
  split; [exact H1|]. split; [exact H2 | exact H3].
Defined.

(** ** What ends a fade *)

Section Cancel.
Context {fmt : NumberFormat}.

(** X3: [setVolume], [pause()] and a denied [play] leave no fade interval
    behind: however often the timer of an earlier fade would have fired
    afterwards, nothing changes any more, so a level chosen during a fade is
    not overwritten by the ramp. *)
Theorem fade_cancelled (w : World) (a : Audio.t) (k : nat) (v : number)
    (track : Song.t) :
  audioRef w = Some a ->
  fade_ticks k (setVolume v w) = setVolume v w
  /\ fade_ticks k (pause w) = pause w
  /\ fade_ticks k (play track false w) = play track false w.
Proof.
  intros Ha. split; [|split]; apply fade_ticks_idle.
  - destruct (isNaN v) eqn:Hv.
    + destruct v; try discriminate. unfold setVolume.
      rewrite (setVolume_refused w a Ha). cbn [outcome_world].
      destruct (fadeIntervalRef w) eqn:Hi; [reflexivity | exact Hi].
    + pose proof (setVolume_fields v w a Ha Hv) as S. cbv zeta in S.
      destruct S as (_ & _ & _ & _ & Si & _). exact Si.
  - destruct (pause_fields w a Ha) as (_ & Pi & _). exact Pi.
  - destruct (play_denied_fields track w a Ha) as (_ & _ & Pi & _). exact Pi.
Qed.
End Cancel.

Lemma fade_cancelled_witness :
  audioRef mid_fade = Some (set_volume (Fin (3 # 30)) (set_paused false
                              (set_volume (Fin 0)
                                 (set_src (Song.audioUrl testSong) new_Audio))))
  /\ fade_ticks 40 (setVolume (Fin 0.5) mid_fade) = setVolume (Fin 0.5) mid_fade
  /\ fade_ticks 40 (pause mid_fade) = pause mid_fade.
Proof.
  assert (Ha : audioRef mid_fade
               = Some (set_volume (Fin (3 # 30)) (set_paused false
                         (set_volume (Fin 0)
                            (set_src (Song.audioUrl testSong) new_Audio)))))
    by (vm_compute; reflexivity).
  split; [exact Ha|].
  destruct (fade_cancelled mid_fade _ 40 (Fin 0.5) otherSong Ha) as (H1 & H2 & _).
  split; [exact H1 | exact H2].
Defined.

(** ** Loading a song *)

(** X4: [play(song)] loads [song] only when its id differs from the id of
    the current song: then the song becomes current, the position is 0, the
    duration is the one the song declares (0 when it declares none) and the
    element gets the song's URL.  With the id of the current song the
    current song object, the position, the duration and the element's source
    stay as they are.  This holds whether or not the start is granted, no
    event of the element waiting for delivery. *)
Theorem play_loads (track : Song.t) (granted : bool) (w : World) (a : Audio.t) :
  audioRef w = Some a ->
  tasks w = [] ->
  let w' := play track granted w in
  if other_song (currentSong (state w)) track
  then currentSong (state w') = Some track
       /\ currentTime (state w') = Fin 0
       /\ duration (state w') = or_zero (Song.duration track)
       /\ element_src w' = Some (Song.audioUrl track)
  else currentSong (state w') = currentSong (state w)
       /\ currentTime (state w') = currentTime (state w)
       /\ duration (state w') = duration (state w)
       /\ element_src w' = Some (Audio.src a).
Proof.
  intros Ha Ht w'. subst w'. unfold play, play_async, element_src.
  rewrite Ha, clearFade_spec.
  destruct w as [[fe fd pv sk dv] st aud fi ls ef tk]. cbn in Ha, Ht. subst aud tk.
  simpl.
  destruct (other_song (currentSong st) track), fe, granted; simpl;
    try first [ erewrite await_play_quiet by reflexivity
              | erewrite await_play_denied by reflexivity ];
    simpl; try (erewrite fadeInVolume_fields by reflexivity); simpl;
    destruct a as [sr v t d p]; destruct p; simpl; repeat split; reflexivity.
Qed.

Lemma play_loads_witness :
  audioRef default_provider = Some new_Audio
  /\ tasks default_provider = []
  /\ currentSong (state (play otherSong true default_provider)) = Some otherSong
  /\ duration (state (play otherSong true default_provider)) = Fin 0.
Proof.
  assert (Ha : audioRef default_provider = Some new_Audio)
    by (vm_compute; reflexivity).
  assert (Ht : tasks default_provider = []) by (vm_compute; reflexivity).
  split; [exact Ha|]. split; [exact Ht|].
  pose proof (play_loads otherSong true default_provider new_Audio Ha Ht) as P.
  cbv zeta in P.
  assert (Ho : other_song (currentSong (state default_provider)) otherSong = true)
    by (vm_compute; reflexivity).
  rewrite Ho in P. destruct P as (P1 & _ & P3 & _).
  split; [exact P1 | exact P3].
Defined.

(** ** The end of a song *)

(** X5: when playback reaches the end of the resource and the events of the
    element are delivered, the provider reports not playing at position 0
    and the on-end callback has been invoked once; the song stays current
    with its duration, the levels and the fade flag stay, and an interval of
    a fade that is still running is not cleared. *)
Theorem ended_rewinds (w : World) (a : Audio.t) :
  audioRef w = Some a ->
  tasks w = [] ->
  let w' := run_tasks (source_ended w) in
  isPlaying (state w') = false
  /\ currentTime (state w') = Fin 0
  /\ currentSong (state w') = currentSong (state w)
  /\ duration (state w') = duration (state w)
  /\ volume (state w') = volume (state w)
  /\ displayVolume (state w') = displayVolume (state w)
  /\ isFadingIn (state w') = isFadingIn (state w)
  /\ fadeIntervalRef w' = fadeIntervalRef w
  /\ effects w' = effects w ++ [OnEnd]
  /\ tasks w' = []
  /\ audioRef w' = Some (set_paused true a).
Proof.
  intros Ha Ht w'. subst w'. unfold source_ended. rewrite Ha.
  destruct w as [cfg st aud fi ls ef tk]. cbn in Ha, Ht. subst aud tk.
  unfold el_pause. destruct a as [sr v t d p]. destruct p; cbn; repeat split.
Qed.

Lemma ended_rewinds_witness :
  audioRef mid_fade = Some (set_volume (Fin (3 # 30)) (set_paused false
                              (set_volume (Fin 0)
                                 (set_src (Song.audioUrl testSong) new_Audio))))
  /\ tasks mid_fade = []
  /\ isPlaying (state (run_tasks (source_ended mid_fade))) = false
  /\ fadeIntervalRef (run_tasks (source_ended mid_fade)) = fadeIntervalRef mid_fade.
Proof.
  assert (Ha : audioRef mid_fade
               = Some (set_volume (Fin (3 # 30)) (set_paused false
                         (set_volume (Fin 0)
                            (set_src (Song.audioUrl testSong) new_Audio)))))
    by (vm_compute; reflexivity).
  assert (Ht : tasks mid_fade = []) by (vm_compute; reflexivity).
  split; [exact Ha|]. split; [exact Ht|].
  pose proof (ended_rewinds mid_fade _ Ha Ht) as P. cbv zeta in P.
  destruct P as (P1 & _ & _ & _ & _ & _ & _ & P8 & _).
  split; [exact P1 | exact P8].
Defined.

(** ** The callbacks *)

(** X6: which callbacks an action invokes, no event of the element waiting
    for delivery.  A granted [play] dispatches the play event with the
    song's id and then invokes on-play; a denied one does neither.  Resuming
    through [togglePlay] dispatches the event with the id of the current
    song but does not invoke on-play; pausing through it invokes on-pause.
    [pause()] invokes on-pause whether or not anything was playing, and
    [stop()] invokes nothing. *)
Theorem callbacks_invoked (track cur : Song.t) (granted : bool) (w : World)
    (a : Audio.t) :
  audioRef w = Some a ->
  tasks w = [] ->
  effects (play track true w)
  = effects w ++ [DispatchEvent (Some (Song.id track)); OnPlay track]
  /\ effects (play track false w) = effects w
  /\ (currentSong (state w) = Some cur -> isPlaying (state w) = false ->
      effects (togglePlay granted w)
      = effects w ++ (if granted then [DispatchEvent (Some (Song.id cur))] else []))
  /\ (currentSong (state w) = Some cur -> isPlaying (state w) = true ->
      effects (togglePlay granted w) = effects w ++ [OnPause])
  /\ effects (pause w) = effects w ++ [OnPause]
  /\ effects (stop w) = effects w.
Proof.
  intros Ha Ht.
  destruct (play_denied_fields track w a Ha) as (_ & Pe & _).
  destruct (pause_fields w a Ha) as (_ & _ & _ & _ & Qe & _).
  split; [|split; [exact Pe|split; [|split; [|split; [exact Qe|]]]]].
  - unfold play, play_async. rewrite Ha, clearFade_spec.
    destruct w as [[fe fd pv sk dv] st aud fi ls ef tk]. cbn in Ha, Ht. subst aud tk.
    simpl.
    destruct (other_song (currentSong st) track), fe; simpl;
      erewrite await_play_quiet by reflexivity;
      simpl; try (erewrite fadeInVolume_fields by reflexivity); simpl;
      symmetry; apply (app_assoc ef [_] [_]).
  - intros Hc Hp. unfold togglePlay. rewrite Ha, Hc, Hp.
    destruct w as [[fe fd pv sk dv] st aud fi ls ef tk]. cbn in Ha, Ht. subst aud tk.
    simpl.
    destruct fe, granted; simpl;
      try first [ erewrite await_play_quiet by reflexivity
                | erewrite await_play_denied by reflexivity ];
      simpl; rewrite ?clearFade_spec; simpl; now rewrite ?app_nil_r.
  - intros Hc Hp. rewrite (togglePlay_pauses granted w a cur Ha Hc Hp). exact Qe.
  - now rewrite (stop_fields w a Ha).
Qed.

Lemma callbacks_invoked_witness :
  audioRef default_provider = Some new_Audio
  /\ tasks default_provider = []
  /\ effects (play testSong true default_provider)
     = [DispatchEvent (Some "test-1"); OnPlay testSong]
  /\ effects (stop default_provider) = [].
Proof.
  assert (Ha : audioRef default_provider = Some new_Audio)
    by (vm_compute; reflexivity).
  assert (Ht : tasks default_provider = []) by (vm_compute; reflexivity).
  split; [exact Ha|]. split; [exact Ht|].
  destruct (callbacks_invoked testSong testSong true default_provider new_Audio Ha Ht)
    as (H1 & _ & _ & _ & _ & H6).
  split; [exact H1 | exact H6].
Defined.

(** ** What the actions do to the element and the levels *)

Lemma el_pause_attrs (a : Audio.t) :
  Audio.src (fst (el_pause a)) = Audio.src a
  /\ Audio.volume (fst (el_pause a)) = Audio.volume a
  /\ Audio.paused (fst (el_pause a)) = true.
Proof.
  unfold el_pause. destruct (Audio.paused a) eqn:Hp; cbn; rewrite ?Hp; easy.
Qed.

(** The levels, the current song and the element after [play]. *)
Lemma play_view (track : Song.t) (granted : bool) (w : World) (a : Audio.t) :
  audioRef w = Some a ->
  let target := Math_max (volume (state w)) MIN_FADE_IN_VOLUME in
  let fades := granted && fadeInEnabled (config w) in
  let w' := play track granted w in
  config w' = config w
  /\ localStorage w' = localStorage w
  /\ volume (state w') = volume (state w)
  /\ currentSong (state w')
     = (if other_song (currentSong (state w)) track then Some track
        else currentSong (state w))
  /\ element_src w'
     = Some (if other_song (currentSong (state w)) track then Song.audioUrl track
             else Audio.src a)
  /\ element_volume w'
     = Some (if fadeInEnabled (config w) then Fin 0 else target)
  /\ fadeIntervalRef w'
     = (if fades
        then Some (mkFade (num_div (fadeInDuration (config w)) (of_nat FADE_STEPS))
                          (num_div target (of_nat FADE_STEPS)) target 0)
        else None)
  /\ displayVolume (state w') = (if fades then Fin 0 else displayVolume (state w))
  /\ isFadingIn (state w') = (if fades then true else isFadingIn (state w)).
Proof.
  intros Ha target fades w'. subst target fades w'.
  unfold play, play_async, element_src, element_volume.
  rewrite Ha, clearFade_spec.
  destruct w as [[fe fd pv sk dv] st aud fi ls ef tk]. cbn in Ha. subst aud.
  simpl.
  destruct (other_song (currentSong st) track), fe, granted; simpl;
    try match goal with |- context [await_play ?g ?w0] =>
      destruct (await_play_shape g w0 _ eq_refl)
        as (st' & a' & ef' & tk' & Haw & Hv & Hd & Hf & Hc & Hsrc & Hvol & _);
      rewrite Haw; cbn in Hv, Hd, Hf, Hc, Hsrc, Hvol
    end;
    simpl; rewrite ?Hv, ?Hd, ?Hf, ?Hc, ?Hsrc, ?Hvol; repeat split; reflexivity.
Qed.

(** The same after the resume branch of [togglePlay]. *)
Lemma togglePlay_view (granted : bool) (w : World) (a : Audio.t) (cur : Song.t) :
  audioRef w = Some a ->
  currentSong (state w) = Some cur ->
  isPlaying (state w) = false ->
  let target := Math_max (volume (state w)) MIN_FADE_IN_VOLUME in
  let fades := granted && fadeInEnabled (config w) in
  let w' := togglePlay granted w in
  config w' = config w
  /\ localStorage w' = localStorage w
  /\ volume (state w') = volume (state w)
  /\ currentSong (state w') = currentSong (state w)
  /\ element_src w' = Some (Audio.src a)
  /\ element_volume w'
     = Some (if fadeInEnabled (config w) then Fin 0 else Audio.volume a)
  /\ fadeIntervalRef w'
     = (if fades
        then Some (mkFade (num_div (fadeInDuration (config w)) (of_nat FADE_STEPS))
                          (num_div target (of_nat FADE_STEPS)) target 0)
        else fadeIntervalRef w)
  /\ displayVolume (state w') = (if fades then Fin 0 else displayVolume (state w))
  /\ isFadingIn (state w') = (if fades then true else isFadingIn (state w)).
Proof.
  intros Ha Hcur Hp target fades w'. subst target fades w'.
  unfold togglePlay, element_src, element_volume. rewrite Ha, Hcur, Hp.
  destruct w as [[fe fd pv sk dv] st aud fi ls ef tk]. cbn in Ha. subst aud.
  simpl.
  destruct fe, granted; simpl;
    try match goal with |- context [await_play ?g ?w0] =>
      destruct (await_play_shape g w0 _ eq_refl)
        as (st' & a' & ef' & tk' & Haw & Hv & Hd & Hf & Hc & Hsrc & Hvol & _);
      rewrite Haw; cbn in Hv, Hd, Hf, Hc, Hsrc, Hvol
    end;
    simpl; rewrite ?clearFade_spec; simpl; cbn in Hcur;
    rewrite ?Hv, ?Hd, ?Hf, ?Hc, ?Hsrc, ?Hvol, ?Hcur; repeat split; reflexivity.
Qed.

(** [pause()], [seek], the listeners and the events of the source write
    none of the levels; of the element they leave the source and the level
    alone. *)
Lemma quiet_steps_view (w : World) (a : Audio.t) :
  audioRef w = Some a ->
  forall w' : World,
    w' = pause w \/ (exists t, w' = seek t w) \/ w' = deliver w
    \/ (exists t, w' = source_progress t w)
    \/ (exists d, w' = source_metadata d w) \/ w' = source_ended w ->
    config w' = config w
    /\ localStorage w' = localStorage w
    /\ volume (state w') = volume (state w)
    /\ displayVolume (state w') = displayVolume (state w)
    /\ isFadingIn (state w') = isFadingIn (state w)
    /\ currentSong (state w') = currentSong (state w)
    /\ element_src w' = Some (Audio.src a)
    /\ element_volume w' = Some (Audio.volume a)
    /\ (fadeIntervalRef w' = fadeIntervalRef w \/ fadeIntervalRef w' = None).
Proof.
  intros Ha w' H. unfold element_src, element_volume.
  destruct H as [->|[(t & ->)|[->|[(t & ->)|[(d & ->)| ->]]]]].
  - destruct (pause_fields w a Ha) as (Hst & Hfi & Haud & _ & _ & Hls & Hcfg).
    destruct (el_pause_attrs a) as (Hs & Hv & _).
    rewrite Hst, Hfi, Haud, Hls, Hcfg. cbn. rewrite Hs, Hv. repeat split. now right.
  - destruct (seek_cases t w a Ha) as [-> | ->];
      [rewrite Ha | cbn]; repeat split; now left.
  - unfold deliver. destruct (tasks w) as [|e q]; [rewrite Ha; cbn; repeat split; now left|].
    destruct (handle_levels e (with_tasks q w)) as (Hl & Haud & _).
    apply levels_inv in Hl. cbn in Hl.
    destruct Hl as (Hv & Hd & Hf & Hc & Hfi & Hcfg & Hls).
    rewrite Hv, Hd, Hf, Hc, Hfi, Hcfg, Hls, Haud. cbn. rewrite Ha. cbn.
    repeat split. now left.
  - unfold source_progress. rewrite Ha. cbn. repeat split. now left.
  - unfold source_metadata. rewrite Ha. cbn. repeat split. now left.
  - unfold source_ended. rewrite Ha.
    destruct (el_pause_attrs a) as (Hs & Hv & _).
    destruct (el_pause a) as [a' evs]. cbn in *. rewrite Hs, Hv.
    repeat split. now left.
Qed.

(** ** The range of the levels *)

Lemma in_unit_zero : in_unit (Fin 0).
Proof. unfold in_unit, num_le. cbn. split; qprop; lra. Qed.

Lemma target_in_unit (v : number) :
  in_unit v -> in_unit (Math_max v MIN_FADE_IN_VOLUME).
Proof.
  unfold in_unit, num_le, MIN_FADE_IN_VOLUME.
  destruct v as [| |q|]; cbn; try easy.
  intros [H0 H1]. destruct (Qle_bool q 0.1) eqn:H; cbn; qprop; split; qprop; lra.
Qed.

Lemma fade_step_nonneg (t : number) :
  in_unit t -> num_le (Fin 0) (num_div t (of_nat FADE_STEPS)).
Proof.
  unfold in_unit, num_le. destruct t as [| |q|]; cbn; try easy.
  intros [H0 H1]. change (inject_Z (Z.of_nat FADE_STEPS)) with 30%Q.
  change (Qeq_bool 30 0) with false. cbn. qprop.
  unfold Qdiv. change (/ 30)%Q with (1 # 30)%Q. lra.
Qed.

(** A firing of an interval with a step that is not negative and a target
    in the unit interval gives a level in the unit interval. *)
Lemma fade_level_in_unit (inc t : number) (k : nat) :
  num_le (Fin 0) inc -> in_unit t ->
  in_unit (Math_min (num_mul inc (of_nat (S k))) t).
Proof.
  unfold in_unit, num_le, of_nat. pose proof (of_nat_S_pos k) as Hp.
  set (X := inject_Z (Z.of_nat (S k))) in *.
  destruct inc as [| |i|], t as [| |q|]; cbn; try easy; intros Hi [H0 H1]; qprop.
  destruct (Qle_bool q (i * X)) eqn:H; cbn; qprop; split; qprop; try lra.
  nra.
Qed.

Lemma element_volume_inv (w : World) (x : number) (a : Audio.t) :
  element_volume w = Some x -> audioRef w = Some a -> Audio.volume a = x.
Proof. unfold element_volume. intros H Ha. rewrite Ha in H. now injection H. Qed.

Lemma levels_in_unit_intro (w : World) :
  in_unit (volume (state w)) ->
  in_unit (displayVolume (state w)) ->
  (forall x, element_volume w = Some x -> in_unit x) ->
  (forall iv, fadeIntervalRef w = Some iv ->
     in_unit (targetVolume iv) /\ num_le (Fin 0) (volumeStep iv)) ->
  levels_in_unit w.
Proof.
  intros Hv Hd He Hi. split; [exact Hv|]. split; [exact Hd|]. split; [|exact Hi].
  intros a Ha. apply He. unfold element_volume. now rewrite Ha.
Qed.

Section Range.
Context {fmt : NumberFormat}.

Lemma provider_in_unit (cfg : AudioPlayerConfig) (storage : gmap string string) :
  in_unit (defaultVolume cfg) -> levels_in_unit (provider cfg storage).
Proof.
  intros Hd. unfold provider, mount, initial. destruct cfg as [fe fd pv sk dv].
  cbn in Hd. cbn [config persistVolume storageKey with_audioRef localStorage].
  assert (H1 : in_unit (Fin 1)) by (split; unfold num_le; cbn; qprop; lra).
  assert (Hplain : forall w0 : World,
    volume (state w0) = dv -> displayVolume (state w0) = dv ->
    audioRef w0 = Some new_Audio -> fadeIntervalRef w0 = None ->
    levels_in_unit w0).
  { intros w0 Hv Hdv Ha Hi. apply levels_in_unit_intro.
    - now rewrite Hv.
    - now rewrite Hdv.
    - unfold element_volume. rewrite Ha. intros x [= <-]. exact H1.
    - rewrite Hi. discriminate. }
  destruct pv; [|now apply Hplain].
  destruct (storage !! sk) as [saved|]; [|now apply Hplain].
  destruct (negb (String.eqb saved "")); [|now apply Hplain].
  destruct (negb (isNaN (parseFloat saved)) && num_geb (parseFloat saved) (Fin 0)
            && num_leb (parseFloat saved) (Fin 1)) eqn:Hok; [|now apply Hplain].
  apply andb_prop in Hok. destruct Hok as [Hok Hle].
  apply andb_prop in Hok. destruct Hok as [_ Hge].
  assert (Hu : in_unit (parseFloat saved)) by (split; assumption).
  apply levels_in_unit_intro.
  - exact Hu.
  - exact Hu.
  - cbn. intros x [= <-]. exact Hu.
  - cbn. discriminate.
Qed.

Lemma step_in_unit (act : Action) (w : World) (a : Audio.t) :
  audioRef w = Some a ->
  levels_in_unit w ->
  (forall v, act = ASetVolume v -> isNaN v = false) ->
  levels_in_unit (step act w).
Proof.
  intros Ha Hw Hnum. pose proof Hw as (Hv & Hd & Hel & Hiv).
  pose proof (Hel a Ha) as Hav.
  pose proof (target_in_unit _ Hv) as Ht.
  assert (Hquiet : forall w' : World,
    w' = pause w \/ (exists t, w' = seek t w) \/ w' = deliver w
    \/ (exists t, w' = source_progress t w)
    \/ (exists d, w' = source_metadata d w) \/ w' = source_ended w ->
    levels_in_unit w').
  { intros w' Hw'.
    destruct (quiet_steps_view w a Ha w' Hw')
      as (_ & _ & Qv & Qd & _ & _ & _ & Qe & Qi).
    apply levels_in_unit_intro.
    - now rewrite Qv.
    - now rewrite Qd.
    - rewrite Qe. intros x [= <-]. exact Hav.
    - intros iv Hi. destruct Qi as [Qi|Qi]; rewrite Qi in Hi;
        [now apply Hiv | discriminate]. }
  destruct act as [track g| |g|t|v| | | |t|d| ]; cbn [step];
    try (apply Hquiet; eauto 10; fail).
  - (* play *)
    pose proof (play_view track g w a Ha) as P. cbv zeta in P.
    destruct P as (_ & _ & Pv & _ & _ & Pe & Pi & Pd & _).
    apply levels_in_unit_intro.
    + now rewrite Pv.
    + rewrite Pd. destruct (g && fadeInEnabled (config w));
        [apply in_unit_zero | exact Hd].
    + rewrite Pe. intros x [= <-].
      destruct (fadeInEnabled (config w)); [apply in_unit_zero | exact Ht].
    + rewrite Pi. destruct (g && fadeInEnabled (config w)); [|discriminate].
      intros iv [= <-]. cbn. split; [exact Ht | now apply fade_step_nonneg].
  - (* togglePlay *)
    destruct (currentSong (state w)) as [cur|] eqn:Hc.
    2:{ unfold togglePlay. rewrite Ha, Hc. exact Hw. }
    destruct (isPlaying (state w)) eqn:Hp.
    { rewrite (togglePlay_pauses g w a cur Ha Hc Hp). apply Hquiet. now left. }
    pose proof (togglePlay_view g w a cur Ha Hc Hp) as P. cbv zeta in P.
    destruct P as (_ & _ & Pv & _ & _ & Pe & Pi & Pd & _).
    apply levels_in_unit_intro.
    + now rewrite Pv.
    + rewrite Pd. destruct (g && fadeInEnabled (config w));
        [apply in_unit_zero | exact Hd].
    + rewrite Pe. intros x [= <-].
      destruct (fadeInEnabled (config w)); [apply in_unit_zero | exact Hav].
    + rewrite Pi. destruct (g && fadeInEnabled (config w)); [|exact Hiv].
      intros iv [= <-]. cbn. split; [exact Ht | now apply fade_step_nonneg].
  - (* setVolume *)
    pose proof (setVolume_clamps v w a Ha (Hnum v eq_refl)) as S. cbv zeta in S.
    destruct S as (Sv & Sd & Su & Sa & Si & _).
    apply levels_in_unit_intro.
    + exact Su.
    + now rewrite Sd.
    + unfold element_volume. rewrite Sa. intros x [= <-]. cbn.
      rewrite <- Sv. exact Su.
    + rewrite Si. discriminate.
  - (* stop *)
    rewrite (stop_fields w a Ha).
    destruct (el_pause_attrs a) as (_ & Hpv & _).
    apply levels_in_unit_intro; cbn.
    + exact Hv.
    + exact Hd.
    + intros x [= <-]. rewrite Hpv. exact Hav.
    + discriminate.
  - (* a firing of the interval *)
    destruct (fadeIntervalRef w) as [iv|] eqn:Hi.
    2:{ unfold fade_tick. rewrite Hi. exact Hw. }
    destruct (Hiv iv eq_refl) as (Htv & Hstep).
    pose proof (fade_level_in_unit (volumeStep iv) (targetVolume iv)
                  (currentStep iv) Hstep Htv) as Hlev.
    pose proof (fade_tick_fields w iv a Hi Ha) as T. cbv zeta in T.
    destruct T as (T1 & T2 & T3 & _ & T5 & _).
    apply levels_in_unit_intro.
    + now rewrite T5.
    + rewrite T3. destruct (FADE_STEPS <=? S (currentStep iv))%nat; assumption.
    + unfold element_volume. rewrite T2. intros x [= <-]. exact Hlev.
    + rewrite T1. destruct (FADE_STEPS <=? S (currentStep iv))%nat; [discriminate|].
      intros iv' [= <-]. cbn. split; assumption.
Qed.

Lemma step_mounted (act : Action) (w : World) :
  (exists a, audioRef w = Some a) -> exists a', audioRef (step act w) = Some a'.
Proof.
  intros (a & Ha).
  assert (Hquiet : forall w' : World,
    w' = pause w \/ (exists t, w' = seek t w) \/ w' = deliver w
    \/ (exists t, w' = source_progress t w)
    \/ (exists d, w' = source_metadata d w) \/ w' = source_ended w ->
    exists a', audioRef w' = Some a').
  { intros w' Hw'.
    destruct (quiet_steps_view w a Ha w' Hw') as (_ & _ & _ & _ & _ & _ & Qs & _).
    unfold element_src in Qs. destruct (audioRef w') as [a'|]; [now exists a'|easy]. }
  destruct act as [track g| |g|t|v| | | |t|d| ]; cbn [step];
    try (apply Hquiet; eauto 10; fail).
  - pose proof (play_view track g w a Ha) as P. cbv zeta in P.
    destruct P as (_ & _ & _ & _ & Ps & _).
    unfold element_src in Ps. destruct (audioRef (play track g w)) as [a'|]; [now exists a'|easy].
  - destruct (currentSong (state w)) as [cur|] eqn:Hc.
    2:{ unfold togglePlay. rewrite Ha, Hc. now exists a. }
    destruct (isPlaying (state w)) eqn:Hp.
    { rewrite (togglePlay_pauses g w a cur Ha Hc Hp). apply Hquiet. now left. }
    pose proof (togglePlay_view g w a cur Ha Hc Hp) as P. cbv zeta in P.
    destruct P as (_ & _ & _ & _ & Ps & _).
    unfold element_src in Ps. destruct (audioRef (togglePlay g w)) as [a'|]; [now exists a'|easy].
  - pose proof (setVolume_frame v w a Ha) as S. cbv zeta in S.
    destruct S as (_ & _ & _ & _ & _ & _ & _ & _ & a' & Sa & _). now exists a'.
  - rewrite (stop_fields w a Ha). now eexists.
  - destruct (fadeIntervalRef w) as [iv|] eqn:Hi.
    2:{ unfold fade_tick. rewrite Hi. now exists a. }
    pose proof (fade_tick_fields w iv a Hi Ha) as T. cbv zeta in T.
    destruct T as (_ & T2 & _). rewrite T2. now eexists.
Qed.

Lemma run_in_unit (tr : list Action) (w : World) :
  (exists a, audioRef w = Some a) ->
  levels_in_unit w ->
  sets_numbers tr = true ->
  levels_in_unit (run tr w).
Proof.
  revert w. induction tr as [|act tr IH]; intros w Hm Hw Hn; [exact Hw|].
  cbn [run fold_left]. fold (run tr (step act w)).
  cbn [sets_numbers forallb] in Hn. apply andb_prop in Hn. destruct Hn as [Hn1 Hn2].
  apply IH; [now apply step_mounted | | exact Hn2].
  destruct Hm as (a & Ha). apply (step_in_unit act w a Ha Hw).
  intros v ->. now apply negb_true_iff in Hn1.
Qed.

(** X7: the levels stay in range.  From a provider whose default volume
    lies in the interval from 0 to 1, after any sequence of actions of the
    context, firings of the fade interval and events of the source in which
    [setVolume] is never given [NaN], the volume, the displayed volume and
    the level of the element lie between 0 and 1, and so does the target of
    a fade that is running. *)
Theorem levels_stay_in_unit
    (cfg : AudioPlayerConfig) (storage : gmap string string) (tr : list Action) :
  in_unit (defaultVolume cfg) ->
  sets_numbers tr = true ->
  levels_in_unit (run tr (provider cfg storage)).
Proof.
  intros Hd Hn. apply run_in_unit; [|now apply provider_in_unit|exact Hn].
  destruct (provider_mounted cfg storage) as (a & Ha & _). now exists a.
Qed.
End Range.

Lemma levels_stay_in_unit_witness :
  in_unit (defaultVolume DEFAULT_CONFIG)
  /\ sets_numbers (ASetVolume (Fin 7) :: stop_mid_fade_trace) = true
  /\ levels_in_unit (run (ASetVolume (Fin 7) :: stop_mid_fade_trace)
                         (provider DEFAULT_CONFIG ∅)).
Proof.
  assert (Hd : in_unit (defaultVolume DEFAULT_CONFIG))
    by (split; vm_compute; reflexivity).
  assert (Hn : sets_numbers (ASetVolume (Fin 7) :: stop_mid_fade_trace) = true)
    by (vm_compute; reflexivity).
  split; [exact Hd|]. split; [exact Hn|].
  exact (levels_stay_in_unit DEFAULT_CONFIG ∅ _ Hd Hn).
Defined.

(** ** The source of the element *)

Section Loaded.
Context {fmt : NumberFormat}.

Lemma step_loaded (act : Action) (w : World) (a : Audio.t) :
  audioRef w = Some a -> element_loaded w -> element_loaded (step act w).
Proof.
  intros Ha Hw. unfold element_loaded in *.
  assert (Hsrc : Some (Audio.src a)
                 = Some (match currentSong (state w) with
                         | Some c => Song.audioUrl c
                         | None => ""
                         end)).
  { rewrite <- Hw. unfold element_src. now rewrite Ha. }
  assert (Hquiet : forall w' : World,
    w' = pause w \/ (exists t, w' = seek t w) \/ w' = deliver w
    \/ (exists t, w' = source_progress t w)
    \/ (exists d, w' = source_metadata d w) \/ w' = source_ended w ->
    element_src w' = Some (match currentSong (state w') with
                           | Some c => Song.audioUrl c
                           | None => ""
                           end)).
  { intros w' Hw'.
    destruct (quiet_steps_view w a Ha w' Hw') as (_ & _ & _ & _ & _ & Qc & Qs & _).
    now rewrite Qs, Qc. }
  destruct act as [track g| |g|t|v| | | |t|d| ]; cbn [step];
    try (apply Hquiet; eauto 10; fail).
  - pose proof (play_view track g w a Ha) as P. cbv zeta in P.
    destruct P as (_ & _ & _ & Pc & Ps & _). rewrite Ps, Pc.
    destruct (other_song (currentSong (state w)) track); [reflexivity | exact Hsrc].
  - destruct (currentSong (state w)) as [cur|] eqn:Hc.
    2:{ unfold togglePlay. rewrite Ha, Hc. rewrite Hc. exact Hw. }
    destruct (isPlaying (state w)) eqn:Hp.
    { rewrite (togglePlay_pauses g w a cur Ha Hc Hp). apply Hquiet. now left. }
    pose proof (togglePlay_view g w a cur Ha Hc Hp) as P. cbv zeta in P.
    destruct P as (_ & _ & _ & Pc & Ps & _). rewrite Ps, Pc, Hc. exact Hsrc.
  - assert (Hs : element_src (setVolume v w) = Some (Audio.src a)
                 /\ currentSong (state (setVolume v w)) = currentSong (state w)).
    { pose proof (setVolume_frame v w a Ha) as S. cbv zeta in S.
      destruct S as (_ & _ & _ & _ & Sc & _ & _ & _ & a' & Sa & Ss & _).
      unfold element_src. rewrite Sa, Sc. cbn. now rewrite Ss. }
    destruct Hs as (Hs1 & Hs2). rewrite Hs1, Hs2. exact Hsrc.
  - rewrite (stop_fields w a Ha). reflexivity.
  - destruct (fadeIntervalRef w) as [iv|] eqn:Hi.
    2:{ unfold fade_tick. rewrite Hi. exact Hw. }
    pose proof (fade_tick_fields w iv a Hi Ha) as T. cbv zeta in T.
    destruct T as (_ & T2 & _ & _ & _ & _ & T7 & _).
    unfold element_src. rewrite T2, T7. exact Hsrc.
Qed.

Lemma run_loaded (tr : list Action) (w : World) :
  (exists a, audioRef w = Some a) -> element_loaded w -> element_loaded (run tr w).
Proof.
  revert w. induction tr as [|act tr IH]; intros w Hm Hw; [exact Hw|].
  cbn [run fold_left]. fold (run tr (step act w)).
  apply IH; [now apply step_mounted|].
  destruct Hm as (a & Ha). now apply (step_loaded act w a).
Qed.

(** X8: the element always holds the source of the current song.  After
    any sequence of actions of the context, firings of the fade interval and
    events of the source, the [src] of the provider's audio element is the
    URL of the current song, and the empty string when there is no current
    song. *)
Theorem element_holds_current_song
    (cfg : AudioPlayerConfig) (storage : gmap string string) (tr : list Action) :
  element_loaded (run tr (provider cfg storage)).
Proof.
  apply run_loaded.
  - destruct (provider_mounted cfg storage) as (a & Ha & _). now exists a.
  - unfold element_loaded, element_src, provider, mount, initial.
    destruct cfg as [fe fd pv sk dv].
    cbn [config persistVolume storageKey with_audioRef localStorage].
    destruct pv; [|reflexivity].
    destruct (storage !! sk) as [saved|]; [|reflexivity].
    destruct (negb (String.eqb saved "")); [|reflexivity].
    destruct (negb (isNaN (parseFloat saved)) && num_geb (parseFloat saved) (Fin 0)
              && num_leb (parseFloat saved) (Fin 1)); reflexivity.
Qed.

(** ** The store *)

(** What a step does to the configuration, the store and the volume. *)
Lemma step_store (act : Action) (w : World) (a : Audio.t) :
  audioRef w = Some a ->
  config (step act w) = config w
  /\ match act with
     | ASetVolume v =>
         if isNaN v
         then volume (state (step act w)) = volume (state w)
              /\ localStorage (step act w) = localStorage w
         else
           let c := Math_max (Fin 0) (Math_min (Fin 1) v) in
           volume (state (step act w)) = c
           /\ localStorage (step act w)
              = (if persistVolume (config w)
                 then <[storageKey (config w) := Number_toString c]> (localStorage w)
                 else localStorage w)
     | _ =>
         volume (state (step act w)) = volume (state w)
         /\ localStorage (step act w) = localStorage w
     end.
Proof.
  intros Ha.
  assert (Hquiet : forall w' : World,
    w' = pause w \/ (exists t, w' = seek t w) \/ w' = deliver w
    \/ (exists t, w' = source_progress t w)
    \/ (exists d, w' = source_metadata d w) \/ w' = source_ended w ->
    config w' = config w
    /\ volume (state w') = volume (state w) /\ localStorage w' = localStorage w).
  { intros w' Hw'.
    destruct (quiet_steps_view w a Ha w' Hw') as (Qc & Qs & Qv & _). easy. }
  destruct act as [track g| |g|t|v| | | |t|d| ]; cbn [step];
    try (apply Hquiet; eauto 10; fail).
  - pose proof (play_view track g w a Ha) as P. cbv zeta in P.
    destruct P as (Pc & Ps & Pv & _). easy.
  - destruct (currentSong (state w)) as [cur|] eqn:Hc.
    2:{ unfold togglePlay. rewrite Ha, Hc. easy. }
    destruct (isPlaying (state w)) eqn:Hp.
    { rewrite (togglePlay_pauses g w a cur Ha Hc Hp). apply Hquiet. now left. }
    pose proof (togglePlay_view g w a cur Ha Hc Hp) as P. cbv zeta in P.
    destruct P as (Pc & Ps & Pv & _). easy.
  - destruct (isNaN v) eqn:Hv.
    + pose proof (setVolume_raises true v w a Ha (or_introl Hv)) as R.
      cbv zeta in R. fold (setVolume_call v w) in R. fold (setVolume v w) in R.
      destruct R as (_ & Rs & _ & Rl & Rc & _).
      rewrite Rs, Rl, Rc. now destruct (fadeIntervalRef w).
    + pose proof (setVolume_fields v w a Ha Hv) as S. cbv zeta in S.
      destruct S as (Sv & _ & _ & _ & _ & Ss & Sc & _). cbv zeta. easy.
  - rewrite (stop_fields w a Ha). easy.
  - destruct (fadeIntervalRef w) as [iv|] eqn:Hi.
    2:{ unfold fade_tick. rewrite Hi. easy. }
    pose proof (fade_tick_fields w iv a Hi Ha) as T. cbv zeta in T.
    destruct T as (_ & _ & _ & _ & T5 & _ & _ & T8 & T9 & _). easy.
Qed.

(** The two halves of a start leave the configuration, the store and the
    volume alone, and the provider mounted. *)
Lemma play_request_frame
    (seen : AudioPlayerState) (track : Song.t) (granted : bool) (w : World)
    (a : Audio.t) :
  audioRef w = Some a ->
  config (fst (play_request seen track granted w)) = config w
  /\ localStorage (fst (play_request seen track granted w)) = localStorage w
  /\ volume (state (fst (play_request seen track granted w))) = volume (state w)
  /\ exists a', audioRef (fst (play_request seen track granted w)) = Some a'.
Proof.
  intros Ha. unfold play_request. rewrite Ha, clearFade_spec. cbv zeta.
  match goal with |- context [request_start granted ?w0] =>
    assert (Hl : config w0 = config w /\ localStorage w0 = localStorage w
                 /\ volume (state w0) = volume (state w)
                 /\ exists a0, audioRef w0 = Some a0);
    [| destruct Hl as (Hc & Hs & Hv & a0 & Ha0);
       destruct (request_start_levels granted w0 a0 Ha0) as (Hl & Hm);
       destruct (request_start granted w0) as [w1 ok] ]
  end.
  { destruct w as [[fe fd pv sk dv] st aud fi ls ef tk]. cbn in Ha. subst aud.
    destruct (other_song (currentSong seen) track), fe; cbn;
      repeat split; now eexists. }
  cbn [fst] in *. apply levels_inv in Hl.
  destruct Hl as (Lv & _ & _ & _ & _ & Lc & Ls).
  repeat split; [congruence .. | exact Hm].
Qed.

Lemma togglePlay_request_frame
    (seen : AudioPlayerState) (granted : bool) (w : World) (a : Audio.t) :
  audioRef w = Some a ->
  config (fst (togglePlay_request seen granted w)) = config w
  /\ localStorage (fst (togglePlay_request seen granted w)) = localStorage w
  /\ volume (state (fst (togglePlay_request seen granted w))) = volume (state w)
  /\ exists a', audioRef (fst (togglePlay_request seen granted w)) = Some a'.
Proof.
  intros Ha. unfold togglePlay_request. rewrite Ha.
  destruct (currentSong seen) as [cur|]; [|repeat split; now exists a].
  destruct (isPlaying seen).
  { destruct (pause_fields w a Ha) as (Ps & _ & Pa & _ & _ & Pl & Pc).
    cbn [fst]. rewrite Ps, Pl, Pc, Pa. repeat split. now eexists. }
  cbv zeta.
  match goal with |- context [request_start granted ?w0] =>
    assert (Hl : config w0 = config w /\ localStorage w0 = localStorage w
                 /\ volume (state w0) = volume (state w)
                 /\ exists a0, audioRef w0 = Some a0);
    [| destruct Hl as (Hc & Hs & Hv & a0 & Ha0);
       destruct (request_start_levels granted w0 a0 Ha0) as (Hl & Hm);
       destruct (request_start granted w0) as [w1 ok] ]
  end.
  { destruct w as [[fe fd pv sk dv] st aud fi ls ef tk]. cbn in Ha. subst aud.
    destruct fe; cbn; repeat split; now eexists. }
  cbn [fst] in *. apply levels_inv in Hl.
  destruct Hl as (Lv & _ & _ & _ & _ & Lc & Ls).
  repeat split; [congruence .. | exact Hm].
Qed.

Lemma settle_frame (p : Pending) (w : World) (a : Audio.t) :
  audioRef w = Some a ->
  config (settle p w) = config w
  /\ localStorage (settle p w) = localStorage w
  /\ volume (state (settle p w)) = volume (state w)
  /\ exists a', audioRef (settle p w) = Some a'.
Proof.
  intros Ha. unfold settle.
  destruct (fulfils p); [|repeat split; now exists a]. cbv zeta.
  rewrite run_tasks_spec.
  destruct (handles_levels (tasks w) (with_tasks [] w)) as (Hl & Haud & _).
  apply levels_inv in Hl. destruct Hl as (Lv & _ & _ & _ & _ & Lc & Ls).
  cbn [with_tasks state audioRef config localStorage] in Lv, Lc, Ls, Haud.
  rewrite Ha in Haud.
  set (w1 := handles (tasks w) (with_tasks [] w)) in *.
  destruct (continuation p) as [track target|id target]; cbn [emit config];
    destruct (fadeInEnabled (config w1));
    rewrite ?(fadeInVolume_fields target (emit _ w1) a Haud); cbn;
    repeat split; try assumption; now exists a.
Qed.

(** What a move does to the configuration, the store and the volume. *)
Lemma move_store (m : Move) (r : Running) (a : Audio.t) :
  audioRef (world r) = Some a ->
  config (world (move m r)) = config (world r)
  /\ (exists a', audioRef (world (move m r)) = Some a')
  /\ localStorage (world (move m r))
     = (if persistVolume (config (world r)) && stores_volume m
        then <[storageKey (config (world r))
                 := Number_toString (volume (state (world (move m r))))]>
               (localStorage (world r))
        else localStorage (world r))
  /\ (persistVolume (config (world r)) = true -> stores_volume m = false ->
      volume (state (world (move m r))) = volume (state (world r))).
Proof.
  intros Ha. destruct m as [act|seen track g|seen g|i|v]; cbn [move world stores_volume].
  - destruct (step_store act (world r) a Ha) as (Sc & Ss).
    destruct (step_mounted act (world r) (ex_intro _ a Ha)) as (a' & Ha').
    split; [exact Sc|]. split; [now exists a'|].
    destruct act as [track g| |g|t|v| | | |t|d| ];
      try (destruct Ss as (Sv & Sl); rewrite andb_false_r; now repeat split).
    destruct (isNaN v) eqn:Hv; cbn [negb].
    + destruct Ss as (Sv & Sl). rewrite andb_false_r. now repeat split.
    + cbv zeta in Ss. destruct Ss as (Sv & Sl). rewrite andb_true_r, Sl, Sv.
      split; [reflexivity | discriminate].
  - rewrite andb_false_r.
    destruct (play_request_frame (default (state (world r)) seen) track g
                (world r) a Ha) as (Hc & Hs & Hv & Hm).
    unfold requested. cbn [world]. now repeat split.
  - rewrite andb_false_r.
    destruct (togglePlay_request_frame (default (state (world r)) seen) g
                (world r) a Ha) as (Hc & Hs & Hv & Hm).
    unfold requested. cbn [world]. now repeat split.
  - rewrite andb_false_r. destruct (pending r !! i) as [p|];
      [|repeat split; now exists a].
    destruct (settle_frame p (world r) a Ha) as (Hc & Hs & Hv & Hm).
    cbn [world]. now repeat split.
  - rewrite andb_false_r. destruct (isNaN v) eqn:Hv.
    + pose proof (setVolume_raises false v (world r) a Ha (or_introl Hv)) as R.
      cbv zeta in R. destruct R as (_ & Rs & _ & Rl & Rc & _ & _ & Ra).
      split; [exact Rc|]. split; [rewrite Ra; now eexists|].
      split; [exact Rl|]. intros _ _. rewrite Rs.
      now destruct (fadeIntervalRef (world r)).
    + destruct (persistVolume (config (world r))) eqn:Hp.
      * pose proof (setVolume_raises false v (world r) a Ha
                      (or_intror (conj eq_refl Hp))) as R.
        cbv zeta in R. destruct R as (_ & Rs & _ & Rl & Rc & _ & _ & Ra).
        split; [exact Rc|]. split; [rewrite Ra; now eexists|].
        split; [exact Rl|]. intros _ _. rewrite Rs.
        now destruct (fadeIntervalRef (world r)).
      * rewrite (setVolume_on_taken false v (world r) (or_intror Hp)).
        pose proof (setVolume_fields v (world r) a Ha Hv) as S. cbv zeta in S.
        destruct S as (_ & _ & _ & Sa & _ & Sl & Sc & _). rewrite Hp in Sl.
        split; [exact Sc|]. split; [rewrite Sa; now eexists|].
        split; [exact Sl|]. discriminate.
Qed.

Lemma moves_store (ms : list Move) (r : Running) (k : string) :
  (exists a, audioRef (world r) = Some a) ->
  config (world (moves ms r)) = config (world r)
  /\ (persistVolume (config (world r)) = true -> existsb stores_volume ms = false ->
      volume (state (world (moves ms r))) = volume (state (world r)))
  /\ (k <> storageKey (config (world r)) ->
      localStorage (world (moves ms r)) !! k = localStorage (world r) !! k)
  /\ localStorage (world (moves ms r)) !! storageKey (config (world r))
     = (if persistVolume (config (world r)) && existsb stores_volume ms
        then Some (Number_toString (volume (state (world (moves ms r)))))
        else localStorage (world r) !! storageKey (config (world r))).
Proof.
  revert r. induction ms as [|m ms IH]; intros r (a & Ha).
  { cbn. rewrite andb_false_r. easy. }
  cbn [moves fold_left]. fold (moves ms (move m r)).
  destruct (move_store m r a Ha) as (S1 & Hm & S3 & S4).
  destruct (IH (move m r) Hm) as (I1 & I2 & I3 & I4).
  rewrite S1 in *. split; [exact I1|]. cbn [existsb].
  destruct (persistVolume (config (world r))) eqn:Hp; cbn [andb] in *.
  - destruct (stores_volume m) eqn:Hs; cbn [orb].
    + split; [discriminate|]. split.
      * intros Hk. rewrite (I3 Hk), S3. now rewrite lookup_insert_ne.
      * rewrite I4. destruct (existsb stores_volume ms) eqn:He; [reflexivity|].
        rewrite S3, lookup_insert_eq. now rewrite (I2 eq_refl eq_refl).
    + rewrite I4, S3. split; [|split].
      * intros _ He. now rewrite (I2 eq_refl He), (S4 eq_refl eq_refl).
      * intros Hk. now rewrite (I3 Hk), S3.
      * reflexivity.
  - rewrite I4, S3. split; [discriminate|]. split; [|reflexivity].
    intros Hk. now rewrite (I3 Hk), S3.
Qed.

(** X9: what the provider writes to the store.  Take any run of a mounted
    provider: actions of the context, firings of the fade interval, events
    of the source, start requests that settle later, calls of [setVolume]
    that raise because the element refuses [NaN] or because the store
    refuses the write.  After it the configuration is the one the provider
    was given; every key of the store other than [storageKey] holds what it
    held at mount; and [storageKey] holds the text of the current volume
    once persistence is enabled and some [setVolume] on a number has been
    taken by the store, and what it held at mount otherwise.  A [setVolume]
    that raises writes neither the store nor the volume. *)
Theorem store_holds_volume
    (cfg : AudioPlayerConfig) (storage : gmap string string) (ms : list Move)
    (k : string) :
  config (world (moves ms (started cfg storage))) = cfg
  /\ (k <> storageKey cfg ->
      localStorage (world (moves ms (started cfg storage))) !! k = storage !! k)
  /\ localStorage (world (moves ms (started cfg storage))) !! storageKey cfg
     = (if persistVolume cfg && existsb stores_volume ms
        then Some (Number_toString
                     (volume (state (world (moves ms (started cfg storage))))))
        else storage !! storageKey cfg).
Proof.
  destruct (provider_mounted cfg storage) as (a & Ha & Hc & Hs & _).
  destruct (moves_store ms (started cfg storage) k (ex_intro _ a Ha))
    as (R1 & _ & R3 & R4).
  cbn [started world] in *. rewrite Hc, Hs in *. easy.
Qed.
End Loaded.

(** A run of the default provider: [setVolume(0.5)] is taken; at
    [setVolume(0.2)] the store refuses the write, after the element has
    taken the level; [setVolume(NaN)] is refused by the element.  The store
    and the volume are at 0.5, the element at 0.2. *)
Lemma store_refusals :
  let r := moves [MAction (ASetVolume (Fin 0.5)); MSetVolumeRefused (Fin 0.2);
                  MAction (ASetVolume NaN)] (started DEFAULT_CONFIG ∅) in
  localStorage (world r) !! storageKey DEFAULT_CONFIG = Some "0.5"
  /\ volume (state (world r)) = Fin 0.5
  /\ displayVolume (state (world r)) = Fin 0.5
  /\ element_volume (world r) = Some (Fin 0.2).
Proof. vm_compute. repeat split; reflexivity. Qed.

(** ** Formatting a time *)

Lemma Qfloor_unique (q : Q) (z : Z) :
  (inject_Z z <= q)%Q -> (q < inject_Z (z + 1))%Q -> Qfloor q = z.
Proof.
  intros H1 H2. pose proof (Qfloor_le q) as H3. pose proof (Qlt_floor q) as H4.
  assert (H5 : (inject_Z z < inject_Z (Qfloor q + 1))%Q) by lra.
  assert (H6 : (inject_Z (Qfloor q) < inject_Z (z + 1))%Q) by lra.
  rewrite <- Zlt_Qlt in H5, H6. lia.
Qed.

Lemma Qfloor_sub_Z (q : Q) (z : Z) : Qfloor (q - inject_Z z) = (Qfloor q - z)%Z.
Proof.
  pose proof (Qfloor_le q) as H3. pose proof (Qlt_floor q) as H4.
  apply Qfloor_unique.
  - unfold Z.sub. rewrite inject_Z_plus, inject_Z_opp. lra.
  - replace (Qfloor q - z + 1)%Z with ((Qfloor q + 1) + - z)%Z by lia.
    rewrite (inject_Z_plus (Qfloor q + 1) (- z)), inject_Z_opp. lra.
Qed.

(** The minutes of a time of at least 0 seconds do not depend on its
    fraction. *)
Lemma Qfloor_div_60 (q : Q) :
  Qfloor (inject_Z (Qfloor q) / 60) = Qfloor (q / 60).
Proof.
  pose proof (Qfloor_le q) as H3.
  pose proof (Qfloor_le (q / 60)) as H5. pose proof (Qlt_floor (q / 60)) as H6.
  set (m := Qfloor (q / 60)) in *.
  unfold Qdiv in *. change (/ 60)%Q with (1 # 60)%Q in *.
  apply Qfloor_unique.
  - assert (H7 : (inject_Z (60 * m) <= q)%Q) by (rewrite inject_Z_mult; change (inject_Z 60) with 60%Q; lra).
    apply Qfloor_resp_le in H7. rewrite Qfloor_Z in H7.
    rewrite Zle_Qle, inject_Z_mult in H7. change (inject_Z 60) with 60%Q in H7. lra.
  - lra.
Qed.

Lemma Qtrunc_nonneg (q : Q) : (0 <= q)%Q -> Qtrunc q = Qfloor q.
Proof.
  intros H. unfold Qtrunc. destruct (Qle_bool 0 q) eqn:E; [reflexivity|].
  qprop. lra.
Qed.

(** The two fields of the time [q], for [q] from 0 on. *)
Lemma time_fields (q : Q) :
  (0 <= q)%Q ->
  Math_floor (num_div (Fin q) (Fin 60)) = Fin (inject_Z (Qfloor q / 60))
  /\ Math_floor (num_rem (Fin q) (Fin 60)) = Fin (inject_Z (Qfloor q mod 60)).
Proof.
  intros Hq. cbn [num_div num_rem]. change (Qeq_bool 60 0) with false.
  cbn [Math_floor].
  assert (Hm : Qfloor (q / 60) = (Qfloor q / 60)%Z).
  { rewrite <- Qfloor_div_60. symmetry. exact (Zdiv_Qdiv (Qfloor q) 60). }
  split; [now rewrite Hm|].
  rewrite Qtrunc_nonneg.
  2:{ unfold Qdiv. change (/ 60)%Q with (1 # 60)%Q. lra. }
  rewrite Hm.
  assert (He : (q - 60 * inject_Z (Qfloor q / 60) == q - inject_Z (60 * (Qfloor q / 60)))%Q).
  { rewrite inject_Z_mult. change (inject_Z 60) with 60%Q. lra. }
  rewrite He, Qfloor_sub_Z. f_equal. f_equal.
  pose proof (Z.div_mod (Qfloor q) 60 ltac:(lia)). lia.
Qed.

Lemma padStart_seconds (m : nat) :
  (m < 60)%nat ->
  padStart 2 "0" (pretty m) = if (m <? 10)%nat then "0" +:+ pretty m else pretty m.
Proof.
  intros Hm. do 60 (destruct m as [|m]; [vm_compute; reflexivity|]). lia.
Qed.

Section FormatTimeProps.
Context {fmt : NumberFormat}.

Lemma formatTime_positive (q : Q) :
  (0 < q)%Q ->
  formatTime (Fin q)
  = Number_toString (Fin (inject_Z (Qfloor q / 60))) +:+ ":"
    +:+ padStart 2 "0" (Number_toString (Fin (inject_Z (Qfloor q mod 60)))).
Proof.
  intros Hq. unfold formatTime.
  destruct (time_fields q ltac:(lra)) as (-> & ->).
  unfold num_ltb. cbn [num_truthy isNaN num_leb negb orb].
  destruct (Qeq_bool q 0) eqn:E; [apply Qeq_bool_iff in E; lra|].
  destruct (Qle_bool q 0) eqn:E1; [qprop; lra|]. reflexivity.
Qed.

(** X10: [formatTime] shows "0:00" for every time that is not at least one
    second: for [NaN], for negative times, for 0 and for the fractions of
    the first second, on a platform that writes the number 0 as "0". *)
Theorem formatTime_below_one_second (seconds : number) :
  Number_toString (Fin 0) = "0" ->
  num_geb seconds (Fin 1) = false ->
  formatTime seconds = "0:00".
Proof.
  intros H0 Hs. unfold num_geb in Hs.
  destruct seconds as [| |q|]; try reflexivity; try discriminate.
  cbn in Hs. qprop.
  destruct (Qlt_le_dec 0 q) as [Hpos|Hneg].
  - rewrite (formatTime_positive q Hpos).
    assert (Hf : Qfloor q = 0%Z).
    { apply Qfloor_unique; [change (inject_Z 0) with 0%Q
                           | change (inject_Z (0 + 1)) with 1%Q]; lra. }
    rewrite Hf. change (inject_Z (0 / 60)) with 0%Q.
    change (inject_Z (0 mod 60)) with 0%Q. now rewrite H0.
  - unfold formatTime, num_ltb. cbn [num_truthy isNaN num_leb negb orb].
    destruct (Qeq_bool q 0) eqn:E; [reflexivity|].
    destruct (Qle_bool q 0) eqn:E1, (Qle_bool 0 q) eqn:E2; cbn;
      try reflexivity; qprop; try lra.
    exfalso. apply Qeq_bool_neq in E. apply E. lra.
Qed.

(** X11: for a whole number [n] of seconds from 1 up to
    [Number.MAX_SAFE_INTEGER], [formatTime] writes the minutes [n / 60], a
    colon and the seconds [n mod 60] on two digits, on a platform that
    writes these two whole numbers in decimal. *)
Theorem formatTime_whole_seconds (n : nat) :
  (0 < n)%nat ->
  (Z.of_nat n <= MAX_SAFE_INTEGER)%Z ->
  Number_toString (of_nat (n / 60)) = pretty (n / 60)%nat ->
  Number_toString (of_nat (n mod 60)) = pretty (n mod 60)%nat ->
  formatTime (of_nat n)
  = pretty (n / 60)%nat +:+ ":"
    +:+ (if (n mod 60 <? 10)%nat then "0" +:+ pretty (n mod 60)%nat
         else pretty (n mod 60)%nat).
Proof.
  intros Hn _ Hmin Hsec. unfold of_nat in *.
  rewrite formatTime_positive.
  2:{ change 0%Q with (inject_Z 0). rewrite <- Zlt_Qlt. lia. }
  rewrite Qfloor_Z.
  replace (Z.of_nat n / 60)%Z with (Z.of_nat (n / 60))
    by (now rewrite Nat2Z.inj_div).
  replace (Z.of_nat n mod 60)%Z with (Z.of_nat (n mod 60))
    by (now rewrite Nat2Z.inj_mod).
  rewrite Hmin, Hsec. f_equal. f_equal. apply padStart_seconds.
  apply Nat.mod_upper_bound. lia.
Qed.

(** X12: [formatTime] ignores the fraction of a second: from one second on
    it writes a time as it writes the whole number of seconds below it. *)
Theorem formatTime_ignores_fraction (q : Q) :
  (1 <= q)%Q ->
  formatTime (Fin q) = formatTime (Math_floor (Fin q)).
Proof.
  intros Hq. cbn [Math_floor].
  assert (H1 : (1 <= inject_Z (Qfloor q))%Q).
  { change 1%Q with (inject_Z 1). rewrite <- Zle_Qle.
    rewrite <- (Qfloor_Z 1). now apply Qfloor_resp_le. }
  assert (Hq0 : (0 < q)%Q) by lra.
  assert (H0 : (0 < inject_Z (Qfloor q))%Q) by lra.
  rewrite (formatTime_positive q Hq0), (formatTime_positive _ H0).
  now rewrite Qfloor_Z.
Qed.
End FormatTimeProps.

Lemma formatTime_below_one_second_witness :
  Number_toString (Fin 0) = "0"
  /\ num_geb (Fin 0.5) (Fin 1) = false
  /\ formatTime (Fin 0.5) = "0:00".
Proof.
  assert (H0 : Number_toString (Fin 0) = "0") by (vm_compute; reflexivity).
  assert (H1 : num_geb (Fin 0.5) (Fin 1) = false) by (vm_compute; reflexivity).
  split; [exact H0|]. split; [exact H1|].
  exact (formatTime_below_one_second (Fin 0.5) H0 H1).
Defined.

Lemma formatTime_whole_seconds_witness :
  (0 < 3661)%nat
  /\ (Z.of_nat 3661 <= MAX_SAFE_INTEGER)%Z
  /\ Number_toString (of_nat (3661 / 60)) = pretty (3661 / 60)%nat
  /\ Number_toString (of_nat (3661 mod 60)) = pretty (3661 mod 60)%nat
  /\ formatTime (of_nat 3661) = "61:01".
Proof.
  assert (H0 : (0 < 3661)%nat) by lia.
  assert (Hs : (Z.of_nat 3661 <= MAX_SAFE_INTEGER)%Z) by (vm_compute; discriminate).
  assert (H1 : Number_toString (of_nat (3661 / 60)) = pretty (3661 / 60)%nat)
    by (vm_compute; reflexivity).
  assert (H2 : Number_toString (of_nat (3661 mod 60)) = pretty (3661 mod 60)%nat)
    by (vm_compute; reflexivity).
  split; [exact H0|]. split; [exact Hs|]. split; [exact H1|]. split; [exact H2|].
  rewrite (formatTime_whole_seconds 3661 H0 Hs H1 H2). vm_compute. reflexivity.
Defined.

Lemma formatTime_ignores_fraction_witness :
  (1 <= 30.7)%Q /\ formatTime (Fin 30.7) = formatTime (Math_floor (Fin 30.7)).
Proof.
  assert (H1 : (1 <= 30.7)%Q) by (vm_compute; discriminate).
  split; [exact H1|]. exact (formatTime_ignores_fraction 30.7 H1).
Defined.

(** ** Lazy loading *)

Lemma lazy_step_keeps (e : LazyEvent) (l : LazyLoad) :
  isVisible l = true -> isVisible (lazy_step e l) = true.
Proof.
  destruct l as [v o], e as [f at_|i|]; cbn; intros ->; try reflexivity.
  - destruct f, at_; reflexivity.
  - destruct o, i; reflexivity.
Qed.

(** X13: an element that the hook has reported visible stays visible,
    whatever follows: renders with other options, entries of the observer
    that do not intersect, the unmount. *)
Theorem lazy_visibility_is_kept (evs : list LazyEvent) (l : LazyLoad) :
  isVisible l = true -> isVisible (lazy_run evs l) = true.
Proof.
  revert l. induction evs as [|e evs IH]; intros l Hl; [exact Hl|].
  cbn [lazy_run fold_left]. fold (lazy_run evs (lazy_step e l)).
  apply IH. now apply lazy_step_keeps.
Qed.

Lemma lazy_visibility_is_kept_witness :
  isVisible (lazy_run [LRender false true; LEntries true] (useLazyLoad false)) = true
  /\ isVisible (lazy_run [LEntries false; LRender false false; LUnmount]
                  (lazy_run [LRender false true; LEntries true] (useLazyLoad false)))
     = true.
Proof.
  assert (H : isVisible (lazy_run [LRender false true; LEntries true]
                                  (useLazyLoad false)) = true) by reflexivity.
  split; [exact H|].
  exact (lazy_visibility_is_kept [LEntries false; LRender false false; LUnmount] _ H).
Defined.

(** X14: the hook reports an element visible only for a cause: while no
    render asks for [forceVisible] and no entry of the observer intersects,
    a hidden element stays hidden. *)
Theorem lazy_hidden_without_cause (evs : list LazyEvent) (l : LazyLoad) :
  isVisible l = false ->
  forallb (fun e => negb (reveals e)) evs = true ->
  isVisible (lazy_run evs l) = false.
Proof.
  revert l. induction evs as [|e evs IH]; intros l Hl Hc; [exact Hl|].
  cbn [lazy_run fold_left]. fold (lazy_run evs (lazy_step e l)).
  cbn [forallb] in Hc. apply andb_prop in Hc. destruct Hc as [He Hc].
  apply IH; [|exact Hc].
  destruct l as [v o], e as [f at_|i|]; cbn in *; subst v.
  - destruct f; [discriminate|]. destruct at_; reflexivity.
  - destruct i; [discriminate|]. destruct o; reflexivity.
  - reflexivity.
Qed.

Lemma lazy_hidden_without_cause_witness :
  isVisible (useLazyLoad false) = false
  /\ forallb (fun e => negb (reveals e))
       [LRender false true; LEntries false; LEntries false; LUnmount] = true
  /\ isVisible (lazy_run [LRender false true; LEntries false; LEntries false; LUnmount]
                  (useLazyLoad false)) = false.
Proof.
  assert (H1 : isVisible (useLazyLoad false) = false) by reflexivity.
  assert (H2 : forallb (fun e => negb (reveals e))
                 [LRender false true; LEntries false; LEntries false; LUnmount]
               = true) by reflexivity.
  split; [exact H1|]. split; [exact H2|].
  exact (lazy_hidden_without_cause _ _ H1 H2).
Defined.

(** X15: the observer detects once.  When an intersecting entry reaches a
    connected observer, the element is visible and the observer is
    disconnected; whatever entries follow while no effect runs again leave
    the hook in that state. *)
Theorem lazy_detects_once (l : LazyLoad) (later : list bool) :
  observing l = true ->
  lazy_run (LEntries true :: (LEntries <$> later)) l = mkLazy true false.
Proof.
  intros Ho.
  assert (H1 : lazy_step (LEntries true) l = mkLazy true false)
    by (cbn; unfold lazy_callback; now rewrite Ho).
  cbn [lazy_run fold_left]. rewrite H1.
  induction later as [|b later IH]; [reflexivity|]. exact IH.
Qed.

Lemma lazy_detects_once_witness :
  observing (lazy_run [LRender false true] (useLazyLoad false)) = true
  /\ lazy_run (LEntries true :: (LEntries <$> [false; true; false]))
       (lazy_run [LRender false true] (useLazyLoad false))
     = mkLazy true false.
Proof.
  assert (H : observing (lazy_run [LRender false true] (useLazyLoad false)) = true)
    by reflexivity.
  split; [exact H|]. exact (lazy_detects_once _ [false; true; false] H).
Defined.

(** ** The cursor of a waveform *)

(** X16: where the waveform cursor is put.  When the effect of a
    [WaveformPlayer] or of the [MiniPlayer] calls [seekTo], the two times
    not being both infinite, the argument lies between 0 and 1; at a
    position at or past a finite duration it is exactly 1. *)
Theorem seekTo_in_unit (time waveDuration progress : number) (flag : bool) :
  WaveformPlayer_sync (Some waveDuration) flag time = Some progress
  \/ MiniPlayer_sync (Some waveDuration) flag time = Some progress ->
  time <> PosInf \/ waveDuration <> PosInf ->
  in_unit progress
  /\ (num_leb waveDuration time = true -> progress = Fin 1).
Proof.
  intros Hs Hfin.
  assert (H : seekTo_progress time waveDuration = Some progress).
  { unfold WaveformPlayer_sync, MiniPlayer_sync in Hs.
    destruct flag; destruct Hs as [Hs|Hs]; try discriminate; exact Hs. }
  clear Hs. unfold seekTo_progress, num_ltb, num_geb, in_unit, num_le in *.
  destruct time as [| |t|], waveDuration as [| |d|]; cbn in H;
    rewrite ?andb_false_r in H; try discriminate;
    try (destruct Hfin as [F|F]; now exfalso).
  - destruct (Qle_bool 0 d) eqn:H1; [|discriminate].
    destruct (Qle_bool d 0) eqn:H2; [discriminate|].
    destruct (Qle_bool 0 t) eqn:H3; [|discriminate]. cbn in H.
    destruct (Qeq_bool d 0) eqn:H4; [apply Qeq_bool_iff in H4; qprop; lra|].
    cbn in H. qprop.
    assert (Hd : (t / d == t * / d)%Q) by reflexivity.
    assert (Hi : (0 < / d)%Q) by now apply Qinv_lt_0_compat.
    assert (Hdd : (d * / d == 1)%Q) by (apply Qmult_inv_r; lra).
    destruct (Qle_bool 1 (t / d)) eqn:H5; injection H as <-; cbn; qprop.
    + split; [split; qprop; lra | reflexivity].
    + split; [split; qprop; [rewrite Hd; nra | lra]|].
      intros Hle. qprop. exfalso. rewrite Hd in H5. nra.
  - destruct (Qle_bool 0 t) eqn:H3; [|discriminate]. cbn in H.
    injection H as <-. cbn. split; [split; qprop; lra | discriminate].
  - destruct (Qle_bool 0 d) eqn:H1; [|discriminate].
    destruct (Qle_bool d 0) eqn:H2; [discriminate|]. cbn in H.
    injection H as <-. cbn.
    split; [split; qprop; lra | reflexivity].
Qed.

Lemma seekTo_in_unit_witness :
  (WaveformPlayer_sync (Some (Fin 60)) true (Fin 90) = Some (Fin 1)
   \/ MiniPlayer_sync (Some (Fin 60)) true (Fin 90) = Some (Fin 1))
  /\ (Fin 90 <> PosInf \/ Fin 60 <> PosInf)
  /\ in_unit (Fin 1).
Proof.
  assert (H1 : WaveformPlayer_sync (Some (Fin 60)) true (Fin 90) = Some (Fin 1)
               \/ MiniPlayer_sync (Some (Fin 60)) true (Fin 90) = Some (Fin 1))
    by (left; vm_compute; reflexivity).
  assert (H2 : Fin 90 <> PosInf \/ Fin 60 <> PosInf) by (left; discriminate).
  split; [exact H1|]. split; [exact H2|].
  exact (proj1 (seekTo_in_unit (Fin 90) (Fin 60) (Fin 1) true H1 H2)).
Defined.

(** ** [WaveformPlayer] under a provider *)

(** X17: under one provider, components of songs with different ids never
    both show playing; a component whose song is not the current one shows
    the position 0, ignores a click on its waveform and does not move its
    cursor. *)
Theorem context_players_exclusive (s1 s2 : Song.t) (w : World)
    (newTime : number) (wavesurfer : option number) :
  Song.id s1 <> Song.id s2 ->
  context_isPlaying s1 w && context_isPlaying s2 w = false
  /\ (isThisSongPlayingInContext s1 w = true ->
      context_isPlaying s2 w = false
      /\ context_currentTime s2 w = Fin 0
      /\ context_interaction s2 newTime w = w
      /\ WaveformPlayer_sync wavesurfer (isThisSongPlayingInContext s2 w)
           (currentTime (state w)) = None).
Proof.
  intros Hne.
  assert (H : isThisSongPlayingInContext s1 w = true ->
              isThisSongPlayingInContext s2 w = false).
  { unfold isThisSongPlayingInContext. destruct (currentSong (state w)) as [c|]; [|easy].
    intros H1. apply String.eqb_eq in H1. apply String.eqb_neq. congruence. }
  split.
  - unfold context_isPlaying.
    destruct (isThisSongPlayingInContext s1 w); [|reflexivity].
    rewrite (H eq_refl). cbn. apply andb_false_r.
  - intros H1. unfold context_isPlaying, context_currentTime, context_interaction.
    rewrite (H H1). repeat split. now destruct wavesurfer.
Qed.

Lemma context_players_exclusive_witness :
  Song.id testSong <> Song.id otherSong
  /\ context_isPlaying testSong (play testSong true default_provider)
     && context_isPlaying otherSong (play testSong true default_provider) = false.
Proof.
  assert (H : Song.id testSong <> Song.id otherSong) by (vm_compute; discriminate).
  split; [exact H|].
  exact (proj1 (context_players_exclusive testSong otherSong
                  (play testSong true default_provider) (Fin 0) None H)).
Defined.

(** X18: the play button of a component under a provider.  On a provider
    in sync with its element, a granted click on the component of a song
    that is not the current one makes that song current with the
    component showing it playing, and every component of another song
    showing not playing; a click on the component of the current song while
    it plays pauses through the provider. *)
Theorem context_click_switches (s : Song.t) (w : World) (a : Audio.t) :
  audioRef w = Some a ->
  source_in_sync w ->
  Song.id s <> "" ->
  Song.audioUrl s <> "" ->
  (isThisSongPlayingInContext s w = false ->
   context_isPlaying s (context_handlePlayClick s true w) = true
   /\ forall s' : Song.t,
        Song.id s' <> Song.id s ->
        context_isPlaying s' (context_handlePlayClick s true w) = false)
  /\ (context_isPlaying s w = true ->
      forall granted : bool, context_handlePlayClick s granted w = pause w).
Proof.
  intros Ha Hsync Hid Hurl.
  assert (Hguard : String.eqb (Song.id s) "" || String.eqb (Song.audioUrl s) "" = false).
  { apply orb_false_iff. split; now apply String.eqb_neq. }
  unfold context_handlePlayClick. rewrite Hguard. split.
  - intros Hthis. rewrite Hthis.
    pose proof (play_granted s w a Ha) as P. cbv zeta in P.
    destruct P as (_ & _ & _ & _ & (c & Pc & Pid) & _ & Pp & _).
    unfold context_isPlaying, isThisSongPlayingInContext. rewrite Pc, (Pp Hsync).
    split; [rewrite Pid, String.eqb_refl; reflexivity|].
    intros s' Hs'. rewrite Pid.
    assert (E : String.eqb (Song.id s) (Song.id s') = false)
      by (apply String.eqb_neq; congruence).
    now rewrite E.
  - intros Hplay granted. unfold context_isPlaying in Hplay.
    apply andb_prop in Hplay. destruct Hplay as [Hthis Hp]. rewrite Hthis.
    unfold isThisSongPlayingInContext in Hthis.
    destruct (currentSong (state w)) as [c|] eqn:Hc; [|discriminate].
    exact (togglePlay_pauses granted w a c Ha Hc Hp).
Qed.

Lemma context_click_switches_witness :
  audioRef (play testSong true default_provider)
  = Some (set_paused false (set_volume (Fin 0)
            (set_src (Song.audioUrl testSong) new_Audio)))
  /\ source_in_sync (play testSong true default_provider)
  /\ Song.id otherSong <> ""
  /\ Song.audioUrl otherSong <> ""
  /\ isThisSongPlayingInContext otherSong (play testSong true default_provider) = false
  /\ context_isPlaying otherSong
       (context_handlePlayClick otherSong true (play testSong true default_provider))
     = true.
Proof.
  assert (Ha : audioRef (play testSong true default_provider)
               = Some (set_paused false (set_volume (Fin 0)
                         (set_src (Song.audioUrl testSong) new_Audio))))
    by (vm_compute; reflexivity).
  assert (Hs : source_in_sync (play testSong true default_provider)).
  { intros a0 Ha0. rewrite Ha in Ha0. injection Ha0 as <-. vm_compute. reflexivity. }
  assert (H1 : Song.id otherSong <> "") by (vm_compute; discriminate).
  assert (H2 : Song.audioUrl otherSong <> "") by (vm_compute; discriminate).
  assert (H3 : isThisSongPlayingInContext otherSong (play testSong true default_provider)
               = false) by (vm_compute; reflexivity).
  split; [exact Ha|]. split; [exact Hs|]. split; [exact H1|]. split; [exact H2|].
  split; [exact H3|].
  exact (proj1 (proj1 (context_click_switches otherSong _ _ Ha Hs H1 H2) H3)).
Defined.

(** ** The volume button of the [MiniPlayer] *)

Section Mute.
Context {fmt : NumberFormat}.

(** X19: the volume button mutes and unmutes, but does not restore.  From
    a displayed volume above 0, one click sets the volume, the displayed
    volume and the element to 0 and ends a running fade; a second click sets
    them to 1, whatever the volume was before the first. *)
Theorem mute_does_not_restore (w : World) (a : Audio.t) :
  audioRef w = Some a ->
  num_ltb (Fin 0) (displayVolume (state w)) = true ->
  volume (state (MiniPlayer_muteClick w)) = Fin 0
  /\ displayVolume (state (MiniPlayer_muteClick w)) = Fin 0
  /\ element_volume (MiniPlayer_muteClick w) = Some (Fin 0)
  /\ fadeIntervalRef (MiniPlayer_muteClick w) = None
  /\ volume (state (MiniPlayer_muteClick (MiniPlayer_muteClick w))) = Fin 1
  /\ displayVolume (state (MiniPlayer_muteClick (MiniPlayer_muteClick w))) = Fin 1
  /\ element_volume (MiniPlayer_muteClick (MiniPlayer_muteClick w)) = Some (Fin 1).
Proof.
  intros Ha Hd.
  assert (H1 : MiniPlayer_muteClick w = setVolume (Fin 0) w)
    by (unfold MiniPlayer_muteClick; now rewrite Hd).
  pose proof (setVolume_fields (Fin 0) w a Ha eq_refl) as S. cbv zeta in S.
  change (Math_max (Fin 0) (Math_min (Fin 1) (Fin 0))) with (Fin 0) in S.
  destruct S as (S1 & S2 & _ & S4 & S5 & _).
  assert (H2 : MiniPlayer_muteClick (setVolume (Fin 0) w)
               = setVolume (Fin 1) (setVolume (Fin 0) w))
    by (unfold MiniPlayer_muteClick; now rewrite S2).
  pose proof (setVolume_fields (Fin 1) _ _ S4 eq_refl) as T. cbv zeta in T.
  change (Math_max (Fin 0) (Math_min (Fin 1) (Fin 1))) with (Fin 1) in T.
  destruct T as (T1 & T2 & _ & T4 & _).
  rewrite H1, H2. unfold element_volume. rewrite S1, S2, S4, S5, T1, T2, T4.
  repeat split.
Qed.
End Mute.

Lemma mute_does_not_restore_witness :
  audioRef volume_08 = Some (set_volume (Fin 0.8) new_Audio)
  /\ num_ltb (Fin 0) (displayVolume (state volume_08)) = true
  /\ volume (state (MiniPlayer_muteClick (MiniPlayer_muteClick volume_08))) = Fin 1.
Proof.
  assert (Ha : audioRef volume_08 = Some (set_volume (Fin 0.8) new_Audio))
    by (vm_compute; reflexivity).
  assert (Hd : num_ltb (Fin 0) (displayVolume (state volume_08)) = true)
    by (vm_compute; reflexivity).
  split; [exact Ha|]. split; [exact Hd|].
  destruct (mute_does_not_restore volume_08 _ Ha Hd) as (_ & _ & _ & _ & H & _).
  exact H.
Defined.

(** ** The play button of a standalone player *)

(** X20: the play button of a standalone player toggles.  A click on a
    mounted player that is not playing loads the song's URL when the element
    holds another source, dispatches one play event with the song's id and
    reports playing, also when the platform denies the start; the next
    click pauses the element, reports not playing and dispatches nothing. *)
Theorem standalone_click_toggles (p : Widget) (a : Audio.t) (granted granted' : bool) :
  localAudioRef p = Some a ->
  Song.id (song p) <> "" ->
  Song.audioUrl (song p) <> "" ->
  localIsPlaying p = false ->
  let p1 := fst (handlePlayClick granted p) in
  let p2 := fst (handlePlayClick granted' p1) in
  localIsPlaying p1 = true
  /\ snd (handlePlayClick granted p) = [Some (Song.id (song p))]
  /\ (exists a1, localAudioRef p1 = Some a1
                 /\ Audio.src a1 = Song.audioUrl (song p)
                 /\ Audio.paused a1 = (if granted then false else Audio.paused a))
  /\ localIsPlaying p2 = false
  /\ snd (handlePlayClick granted' p1) = []
  /\ (exists a2, localAudioRef p2 = Some a2
                 /\ Audio.src a2 = Song.audioUrl (song p)
                 /\ Audio.paused a2 = true)
  /\ song p2 = song p.
Proof.
  intros Ha Hid Hurl Hp p1 p2.
  assert (Hguard : String.eqb (Song.id (song p)) ""
                   || String.eqb (Song.audioUrl (song p)) "" = false).
  { apply orb_false_iff. split; now apply String.eqb_neq. }
  assert (E1 : exists a1,
    handlePlayClick granted p
    = (mkWidget (song p) (Some a1) true (localCurrentTime p) (totalDuration p),
       [Some (Song.id (song p))])
    /\ Audio.src a1 = Song.audioUrl (song p)
    /\ Audio.paused a1 = (if granted then false else Audio.paused a)).
  { unfold handlePlayClick. rewrite Hguard, Ha, Hp.
    destruct a as [sr v t d pa]. cbn.
    destruct (String.eqb sr (Song.audioUrl (song p))) eqn:Es; cbn.
    - apply String.eqb_eq in Es. subst sr.
      destruct granted, pa; cbn; eexists; repeat split; reflexivity.
    - destruct granted, pa; cbn; eexists; repeat split; reflexivity. }
  destruct E1 as (a1 & E1 & Hs1 & Hp1).
  subst p2 p1. rewrite E1. cbn [fst snd].
  unfold handlePlayClick at 1 2 3. cbn [song localAudioRef localIsPlaying].
  rewrite Hguard. cbn [fst snd setLocalIsPlaying with_localAudioRef song
                       localAudioRef localIsPlaying localCurrentTime totalDuration].
  destruct (el_pause_attrs a1) as (Hs2 & _ & Hp2).
  repeat split.
  - exists a1. repeat split; assumption.
  - exists (fst (el_pause a1)). rewrite Hs2, Hp2. repeat split. exact Hs1.
  - unfold handlePlayClick. cbn [song localAudioRef localIsPlaying].
    now rewrite Hguard.
Qed.

Lemma standalone_click_toggles_witness :
  localAudioRef (standalone_player testSong) = Some new_Audio
  /\ Song.id (song (standalone_player testSong)) <> ""
  /\ Song.audioUrl (song (standalone_player testSong)) <> ""
  /\ localIsPlaying (standalone_player testSong) = false
  /\ localIsPlaying (fst (handlePlayClick false (standalone_player testSong))) = true
  /\ localIsPlaying
       (fst (handlePlayClick true
               (fst (handlePlayClick false (standalone_player testSong))))) = false.
Proof.
  assert (H1 : localAudioRef (standalone_player testSong) = Some new_Audio)
    by reflexivity.
  assert (H2 : Song.id (song (standalone_player testSong)) <> "")
    by (vm_compute; discriminate).
  assert (H3 : Song.audioUrl (song (standalone_player testSong)) <> "")
    by (vm_compute; discriminate).
  assert (H4 : localIsPlaying (standalone_player testSong) = false) by reflexivity.
  split; [exact H1|]. split; [exact H2|]. split; [exact H3|]. split; [exact H4|].
  pose proof (standalone_click_toggles _ _ false true H1 H2 H3 H4) as P.
  cbv zeta in P. destruct P as (P1 & _ & _ & P4 & _).
  split; [exact P1 | exact P4].
Defined.

(** ** A page of standalone players *)

Lemma playing_players_spec (ps : list Widget) (j : nat) :
  j ∈ playing_players ps <-> localIsPlaying <$> ps !! j = Some true.
Proof.
  unfold playing_players. rewrite list_elem_of_filter, elem_of_seq. split.
  - now intros [H _].
  - intros H. split; [exact H|]. split; [lia|]. cbn.
    apply lookup_lt_is_Some. destruct (ps !! j); [now eexists | discriminate].
Qed.

Lemma playing_players_NoDup (ps : list Widget) : NoDup (playing_players ps).
Proof. unfold playing_players. apply NoDup_filter, NoDup_seq. Qed.

Lemma playing_at_most_one (ps : list Widget) :
  (length (playing_players ps) <= 1)%nat
  <-> (forall j k, j ∈ playing_players ps -> k ∈ playing_players ps -> j = k).
Proof.
  pose proof (playing_players_NoDup ps) as Hn.
  destruct (playing_players ps) as [|x [|y l]]; cbn; split; intros H; try lia.
  - intros j k Hj. now apply elem_of_nil in Hj.
  - intros j k Hj Hk. apply list_elem_of_singleton in Hj, Hk. congruence.
  - exfalso. assert (x = y) by (apply H; [left | right; left]). subst y.
    apply NoDup_cons in Hn. destruct Hn as [Hn _]. apply Hn. left.
Qed.

Lemma playing_only (ps : list Widget) (i : nat) :
  (forall j, localIsPlaying <$> ps !! j = Some true <-> j = i) ->
  playing_players ps = [i].
Proof.
  intros H. pose proof (playing_players_NoDup ps) as Hn.
  assert (Hi : i ∈ playing_players ps) by (apply playing_players_spec, H; reflexivity).
  assert (Hall : forall j, j ∈ playing_players ps -> j = i)
    by (intros j Hj; now apply H, playing_players_spec).
  destruct (playing_players ps) as [|x [|y l]].
  - now apply elem_of_nil in Hi.
  - f_equal. apply Hall. left.
  - exfalso. assert (x = i) by (apply Hall; left).
    assert (y = i) by (apply Hall; right; left). subst x y.
    apply NoDup_cons in Hn. destruct Hn as [Hn _]. apply Hn. left.
Qed.

(** The play button and the listener keep the song of a player and its
    element. *)
Lemma handlePlayClick_keeps (granted : bool) (p : Widget) :
  song (fst (handlePlayClick granted p)) = song p
  /\ (is_Some (localAudioRef p) ->
      is_Some (localAudioRef (fst (handlePlayClick granted p)))).
Proof.
  unfold handlePlayClick.
  destruct (String.eqb (Song.id (song p)) "" || String.eqb (Song.audioUrl (song p)) "");
    [easy|].
  destruct (localAudioRef p) as [a|] eqn:Ha;
    [|split; [reflexivity | intros [? [=]]]].
  destruct (localIsPlaying p); [easy|].
  destruct (el_play granted _) as [[a' evs] ok]. easy.
Qed.

Lemma handleOtherPlayerPlay_keeps (detail : option string) (p : Widget) :
  song (handleOtherPlayerPlay detail p) = song p
  /\ (is_Some (localAudioRef p) ->
      is_Some (localAudioRef (handleOtherPlayerPlay detail p))).
Proof.
  unfold handleOtherPlayerPlay. destruct (localAudioRef p) as [a|] eqn:Ha;
    [|split; [reflexivity | intros [? [=]]]].
  destruct (bool_decide _); [easy | now rewrite Ha].
Qed.

Lemma ready_kept (p p' : Widget) :
  song p' = song p ->
  (is_Some (localAudioRef p) -> is_Some (localAudioRef p')) ->
  ready (Standalone p) -> ready (Standalone p').
Proof.
  intros Hs Hm ((a & Ha) & Hid & Hurl). cbn. rewrite Hs.
  split; [|easy]. destruct Hm as (a' & Ha'); [now exists a | now exists a'].
Qed.

Lemma listeners_ready (ds : list (option string)) (ps : list Widget) :
  page_ready ps ->
  page_ready (fold_left (fun ps d => handleOtherPlayerPlay d <$> ps) ds ps).
Proof.
  revert ps. induction ds as [|d ds IH]; intros ps Hps; [exact Hps|].
  cbn [fold_left]. apply IH. destruct Hps as (Hr & Hn). split.
  - apply Forall_fmap. eapply Forall_impl; [exact Hr|].
    intros q Hq. cbn. eapply ready_kept; [..|exact Hq];
      apply handleOtherPlayerPlay_keeps.
  - rewrite <- list_fmap_compose.
    erewrite list_fmap_ext; [exact Hn|].
    intros j q _. cbn. now destruct (handleOtherPlayerPlay_keeps d q) as (-> & _).
Qed.

Lemma click_player_ready (i : nat) (granted : bool) (ps : list Widget) :
  page_ready ps -> page_ready (click_player i granted ps).
Proof.
  intros Hps. unfold click_player. destruct (ps !! i) as [p|] eqn:Hi; [|exact Hps].
  destruct (handlePlayClick_keeps granted p) as (Hs & Hm).
  destruct (handlePlayClick granted p) as [p' ds]. cbn in Hs, Hm.
  apply listeners_ready. destruct Hps as (Hr & Hn). split.
  - apply Forall_insert; [exact Hr|].
    eapply ready_kept; [exact Hs | exact Hm|].
    exact (Forall_lookup_1 _ _ _ _ Hr Hi).
  - rewrite list_fmap_insert. cbn. rewrite Hs.
    rewrite list_insert_id; [exact Hn|]. now rewrite list_lookup_fmap, Hi.
Qed.

(** A click on a player that is not playing: the page afterwards. *)
Lemma click_player_stopped (i : nat) (granted : bool) (ps : list Widget)
    (p : Widget) :
  page_ready ps ->
  ps !! i = Some p ->
  localIsPlaying p = false ->
  forall j, localIsPlaying <$> click_player i granted ps !! j = Some true <-> j = i.
Proof.
  intros (Hr & Hn) Hi Hp j. unfold click_player. rewrite Hi.
  pose proof (Forall_lookup_1 _ _ _ _ Hr Hi) as ((a & Ha) & Hid & Hurl).
  destruct (handlePlayClick_starts granted p a Ha Hp Hid Hurl) as (a' & -> & _).
  assert (Hown : handleOtherPlayerPlay (Some (Song.id (song p)))
                   (setLocalIsPlaying true (with_localAudioRef (Some a') p))
                 = setLocalIsPlaying true (with_localAudioRef (Some a') p))
    by exact (handleOtherPlayerPlay_own
                (setLocalIsPlaying true (with_localAudioRef (Some a') p))).
  assert (Hplay : localIsPlaying (setLocalIsPlaying true
                                    (with_localAudioRef (Some a') p)) = true)
    by reflexivity.
  remember (setLocalIsPlaying true (with_localAudioRef (Some a') p)) as p1 eqn:E1.
  cbn [fold_left]. rewrite list_lookup_fmap.
  destruct (decide (j = i)) as [->|Hji].
  - rewrite list_lookup_insert_eq by (now apply lookup_lt_Some in Hi).
    cbn [fmap option_fmap option_map]. rewrite Hown, Hplay. easy.
  - rewrite list_lookup_insert_ne by congruence.
    split; [|congruence]. intros H. exfalso.
    destruct (ps !! j) as [q|] eqn:Hj; [|discriminate]. cbn in H.
    pose proof (Forall_lookup_1 _ _ _ _ Hr Hj) as ((b & Hb) & _).
    assert (Hne : Some (Song.id (song p)) <> Some (Song.id (song q))).
    { intros [= E]. apply Hji.
      apply (NoDup_lookup _ j i (Song.id (song q)) Hn);
        rewrite list_lookup_fmap; [now rewrite Hj | rewrite Hi; cbn; now rewrite E]. }
    rewrite (handleOtherPlayerPlay_other _ q b Hb Hne) in H. discriminate.
Qed.

(** A click on a player that is playing changes that player only, which
    then reports not playing. *)
Lemma click_player_playing (i : nat) (granted : bool) (ps : list Widget)
    (p : Widget) :
  page_ready ps ->
  ps !! i = Some p ->
  localIsPlaying p = true ->
  forall j, localIsPlaying <$> click_player i granted ps !! j = Some true ->
            j <> i /\ localIsPlaying <$> ps !! j = Some true.
Proof.
  intros (Hr & Hn) Hi Hp j. unfold click_player. rewrite Hi.
  pose proof (Forall_lookup_1 _ _ _ _ Hr Hi) as ((a & Ha) & Hid & Hurl).
  unfold handlePlayClick.
  rewrite (string_eqb_false _ _ Hid), (string_eqb_false _ _ Hurl), Ha, Hp.
  cbn [orb fold_left].
  destruct (decide (j = i)) as [->|Hji].
  - rewrite list_lookup_insert_eq by (now apply lookup_lt_Some in Hi). discriminate.
  - rewrite list_lookup_insert_ne by congruence. easy.
Qed.

(** X21: on a page of standalone players with songs of different ids, a
    click on a player that is not playing leaves that player as the only
    one that reports playing, however many reported playing before and
    whether or not the platform grants the start. *)
Theorem click_plays_alone (i : nat) (granted : bool) (ps : list Widget)
    (p : Widget) :
  page_ready ps ->
  ps !! i = Some p ->
  localIsPlaying p = false ->
  playing_players (click_player i granted ps) = [i].
Proof.
  intros Hps Hi Hp. apply playing_only.
  exact (click_player_stopped i granted ps p Hps Hi Hp).
Qed.

(** Fewer players playing: at most one before, at most one after. *)
Lemma playing_fewer (ps ps' : list Widget) :
  (forall j, localIsPlaying <$> ps' !! j = Some true ->
             localIsPlaying <$> ps !! j = Some true) ->
  (length (playing_players ps) <= 1)%nat ->
  (length (playing_players ps') <= 1)%nat.
Proof.
  intros Hsub Hone. apply playing_at_most_one. intros j k Hj Hk.
  apply playing_players_spec in Hj, Hk.
  apply (proj1 (playing_at_most_one ps) Hone);
    apply playing_players_spec; now apply Hsub.
Qed.

Lemma page_step_ready (e : PageEvent) (ps : list Widget) :
  page_ready ps -> page_ready (page_step e ps).
Proof.
  intros Hps. destruct e as [i g|i|d]; cbn [page_step].
  - now apply click_player_ready.
  - destruct (ps !! i) as [p|] eqn:Hi; [|exact Hps].
    destruct Hps as (Hr & Hn).
    pose proof (Forall_lookup_1 _ _ _ _ Hr Hi) as Hp.
    assert (Hk : song (player_ended p) = song p
                 /\ ready (Standalone (player_ended p))).
    { destruct Hp as ((a & Ha) & Hid & Hurl). unfold player_ended. rewrite Ha.
      split; [reflexivity|]. split; [now eexists | easy]. }
    destruct Hk as (Hs & Hrd). split.
    + apply Forall_insert; [exact Hr | exact Hrd].
    + rewrite list_fmap_insert. cbn. rewrite Hs.
      rewrite list_insert_id; [exact Hn|]. now rewrite list_lookup_fmap, Hi.
  - exact (listeners_ready [d] ps Hps).
Qed.

(** X22: at most one standalone player reports playing.  On a page of
    players with songs of different ids on which at most one reports
    playing, after any sequence of clicks on play buttons (granted or
    denied), ends of songs and play events dispatched by other instances of
    the page, at most one player reports playing. *)
Theorem one_player_at_a_time (evs : list PageEvent) (ps : list Widget) :
  page_ready ps ->
  (length (playing_players ps) <= 1)%nat ->
  (length (playing_players (page_run evs ps)) <= 1)%nat.
Proof.
  revert ps. induction evs as [|e evs IH]; intros ps Hps Hone; [exact Hone|].
  cbn [page_run fold_left]. fold (page_run evs (page_step e ps)).
  apply IH; [now apply page_step_ready|].
  destruct e as [i g|i|d]; cbn [page_step].
  - destruct (ps !! i) as [p|] eqn:Hi.
    2:{ unfold click_player. now rewrite Hi. }
    destruct (localIsPlaying p) eqn:Hp.
    + apply (playing_fewer ps); [|exact Hone]. intros j Hj.
      now destruct (click_player_playing i g ps p Hps Hi Hp j Hj).
    + rewrite (playing_only _ i (click_player_stopped i g ps p Hps Hi Hp)). cbn. lia.
  - destruct (ps !! i) as [p|] eqn:Hi; [|exact Hone].
    apply (playing_fewer ps); [|exact Hone]. intros j.
    destruct (decide (j = i)) as [->|Hji].
    + rewrite list_lookup_insert_eq by (now apply lookup_lt_Some in Hi).
      unfold player_ended. destruct (localAudioRef p); [discriminate|].
      now rewrite Hi.
    + now rewrite list_lookup_insert_ne by congruence.
  - apply (playing_fewer ps); [|exact Hone]. intros j.
    rewrite list_lookup_fmap. destruct (ps !! j) as [q|]; [|discriminate].
    cbn. unfold handleOtherPlayerPlay. destruct (localAudioRef q); [|easy].
    destruct (bool_decide _); [discriminate | easy].
Qed.

Lemma three_players_ready : page_ready three_players.
Proof.
  split.
  - repeat constructor; try (now eexists); cbn; discriminate.
  - cbn. repeat constructor; rewrite ?elem_of_cons, ?elem_of_nil; intros H;
      repeat (destruct H as [H|H]; try discriminate); exact H.
Qed.

Lemma click_plays_alone_witness :
  page_ready three_players
  /\ click_player 0 true three_players !! 1%nat
     = Some (standalone_player otherSong)
  /\ localIsPlaying (standalone_player otherSong) = false
  /\ playing_players (click_player 1 false (click_player 0 true three_players)) = [1%nat].
Proof.
  assert (H1 : page_ready (click_player 0 true three_players))
    by (apply click_player_ready, three_players_ready).
  assert (H2 : click_player 0 true three_players !! 1%nat
               = Some (standalone_player otherSong)) by (vm_compute; reflexivity).
  assert (H3 : localIsPlaying (standalone_player otherSong) = false) by reflexivity.
  split; [exact three_players_ready|]. split; [exact H2|]. split; [exact H3|].
  exact (click_plays_alone 1 false _ _ H1 H2 H3).
Defined.

Lemma one_player_at_a_time_witness :
  page_ready three_players
  /\ (length (playing_players three_players) <= 1)%nat
  /\ (length (playing_players
                (page_run [PClick 0 true; PClick 2 false; PPlayEvent (Some "test-2");
                           PEnded 2; PClick 1 true]
                          three_players)) <= 1)%nat.
Proof.
  assert (H2 : (length (playing_players three_players) <= 1)%nat)
    by (vm_compute; lia).
  split; [exact three_players_ready|]. split; [exact H2|].
  exact (one_player_at_a_time _ _ three_players_ready H2).
Defined.

(** ** The provider and its element *)

Section Tracking.
Context {fmt : NumberFormat}.


Lemma step_idle (act : Action) (w : World) (a : Audio.t) :
  audioRef w = Some a -> idle_without_song w -> idle_without_song (step act w).
Proof.
  intros Ha Hw. unfold idle_without_song in *. rewrite Ha in Hw. cbn in Hw.
  destruct act as [track g| |g|t|v| | | |t|d| ]; cbn [step].
  - pose proof (play_view track g w a Ha) as P. cbv zeta in P.
    destruct P as (_ & _ & _ & Pc & _). rewrite Pc.
    destruct (other_song (currentSong (state w)) track) eqn:Ho; [discriminate|].
    destruct (other_song_false _ _ Ho) as (c & Hc & _). now rewrite Hc.
  - destruct (pause_fields w a Ha) as (Hst & _ & Haud & _).
    destruct (el_pause_attrs a) as (_ & _ & Hp). rewrite Haud. cbn. now rewrite Hp.
  - destruct (currentSong (state w)) as [cur|] eqn:Hc.
    2:{ unfold togglePlay. rewrite Ha, Hc. rewrite Hc, Ha. exact Hw. }
    destruct (isPlaying (state w)) eqn:Hp.
    { rewrite (togglePlay_pauses g w a cur Ha Hc Hp).
      destruct (pause_fields w a Ha) as (Hst & _). now rewrite Hst, Hc. }
    pose proof (togglePlay_view g w a cur Ha Hc Hp) as P. cbv zeta in P.
    destruct P as (_ & _ & _ & Pc & _). now rewrite Pc, Hc.
  - destruct (seek_cases t w a Ha) as [-> | ->]; [now rewrite Ha | exact Hw].
  - assert (Hs : Audio.paused <$> audioRef (setVolume v w) = Some (Audio.paused a)
                 /\ currentSong (state (setVolume v w)) = currentSong (state w)).
    { pose proof (setVolume_frame v w a Ha) as S. cbv zeta in S.
      destruct S as (_ & _ & _ & _ & Sc & _ & _ & _ & a' & Sa & _ & Sp & _).
      rewrite Sa, Sc. cbn. now rewrite Sp. }
    destruct Hs as (-> & ->). exact Hw.
  - rewrite (stop_fields w a Ha). cbn. intros _.
    destruct (el_pause_attrs a) as (_ & _ & Hp). now rewrite Hp.
  - destruct (fadeIntervalRef w) as [iv|] eqn:Hi.
    2:{ unfold fade_tick. rewrite Hi, Ha. exact Hw. }
    pose proof (fade_tick_fields w iv a Hi Ha) as T. cbv zeta in T.
    destruct T as (_ & T2 & _ & _ & _ & _ & T7 & _). rewrite T2, T7. exact Hw.
  - unfold deliver. destruct (tasks w) as [|e q]; [now rewrite Ha|].
    destruct (handle_levels e (with_tasks q w)) as (Hl & Haud & _).
    apply levels_inv in Hl. destruct Hl as (_ & _ & _ & Hc & _).
    rewrite Hc, Haud. cbn. rewrite Ha. exact Hw.
  - unfold source_progress. rewrite Ha. exact Hw.
  - unfold source_metadata. rewrite Ha. exact Hw.
  - unfold source_ended. rewrite Ha.
    destruct (el_pause_attrs a) as (_ & _ & Hp).
    destruct (el_pause a) as [a' evs]. cbn in *. now rewrite Hp.
Qed.

(** X24: nothing plays without a song.  After any sequence of actions,
    firings and events, when the provider has no current song its element
    is paused. *)
Theorem nothing_plays_without_song
    (cfg : AudioPlayerConfig) (storage : gmap string string) (tr : list Action) :
  idle_without_song (run tr (provider cfg storage)).
Proof.
  assert (H0 : idle_without_song (provider cfg storage)).
  { pose proof (provider_synced cfg storage) as (a & Ha & Hp & _).
    assert (Hv : sync_view (provider cfg storage) = (false, [], Some true)).
    { unfold provider, mount, initial. destruct cfg as [fe fd pv sk dv].
      cbn [config persistVolume storageKey with_audioRef localStorage].
      destruct pv; [|reflexivity].
      destruct (storage !! sk) as [saved|]; [|reflexivity].
      destruct (negb (String.eqb saved "")); [|reflexivity].
      destruct (negb (isNaN (parseFloat saved)) && num_geb (parseFloat saved) (Fin 0)
                && num_leb (parseFloat saved) (Fin 1)); reflexivity. }
    unfold sync_view in Hv. injection Hv as _ _ Hv. intros _. exact Hv. }
  assert (Hm : exists a, audioRef (provider cfg storage) = Some a).
  { destruct (provider_mounted cfg storage) as (a & Ha & _). now exists a. }
  revert H0 Hm. generalize (provider cfg storage).
  induction tr as [|act tr IH]; intros w Hw Hm; [exact Hw|].
  cbn [run fold_left]. apply IH; [|now apply step_mounted].
  destruct Hm as (a & Ha). now apply (step_idle act w a).
Qed.
End Tracking.

(** ** The listeners of the element *)

(** X25: the listeners mirror the element.  When the source reports the
    position [t] and the event is delivered, the provider's [currentTime]
    is [t] and the on-time-update callback has been invoked with [t]; when
    the metadata gives the length [d], the provider's [duration] is [d] and
    no callback is invoked.  Neither changes whether the provider reports
    playing, nor any level, nor the current song or a running fade. *)
Theorem listeners_mirror_element (w : World) (a : Audio.t) (t d : number) :
  audioRef w = Some a ->
  tasks w = [] ->
  currentTime (state (run_tasks (source_progress t w))) = t
  /\ effects (run_tasks (source_progress t w)) = effects w ++ [OnTimeUpdate t]
  /\ duration (state (run_tasks (source_metadata d w))) = d
  /\ effects (run_tasks (source_metadata d w)) = effects w
  /\ isPlaying (state (run_tasks (source_progress t w))) = isPlaying (state w)
  /\ isPlaying (state (run_tasks (source_metadata d w))) = isPlaying (state w)
  /\ levels (run_tasks (source_progress t w)) = levels w
  /\ levels (run_tasks (source_metadata d w)) = levels w.
Proof.
  intros Ha Ht. unfold source_progress, source_metadata. rewrite Ha.
  destruct w as [cfg st aud fi ls ef tk]. cbn in Ha, Ht. subst aud tk.
  cbn. repeat split.
Qed.

Lemma listeners_mirror_element_witness :
  audioRef mid_fade = Some (set_volume (Fin (3 # 30)) (set_paused false
                              (set_volume (Fin 0)
                                 (set_src (Song.audioUrl testSong) new_Audio))))
  /\ tasks mid_fade = []
  /\ currentTime (state (run_tasks (source_progress (Fin 30.7) mid_fade))) = Fin 30.7
  /\ duration (state (run_tasks (source_metadata (Fin 180) mid_fade))) = Fin 180.
Proof.
  assert (Ha : audioRef mid_fade
               = Some (set_volume (Fin (3 # 30)) (set_paused false
                         (set_volume (Fin 0)
                            (set_src (Song.audioUrl testSong) new_Audio)))))
    by (vm_compute; reflexivity).
  assert (Ht : tasks mid_fade = []) by (vm_compute; reflexivity).
  split; [exact Ha|]. split; [exact Ht|].
  destruct (listeners_mirror_element mid_fade _ (Fin 30.7) (Fin 180) Ha Ht)
    as (H1 & _ & H3 & _).
  split; [exact H1 | exact H3].
Defined.
